(** * FB2 translator: the tree walker of [llm_fb2_translator.py]

    A shallow embedding of [AdvancedLLMFB2Translator] and of the
    [LLMTranslator] providers, with the properties of the walk
    ([process_element_translations]), of the metadata update
    ([update_document_metadata]), of the provider cache and counters
    ([translate_text]) and of the output stage ([write_enhanced_xml],
    [process_fb2_structure]). *)

From Stdlib Require Import Ascii String.
From stdpp Require Import base option list gmap fin_maps numbers strings.

(** ** Python strings

    A Python [str] is a sequence of Unicode code points; [len] counts code
    points, not bytes.  Literals of this file are written as UTF-8 text and
    decoded by [u]. *)

Module PyStr.

Definition char := N.
Definition str := list char.

Definition len (s : str) : nat := length s.

(** Truth value of a [str]: the empty string is false. *)
Definition truthy (s : str) : bool :=
  match s with [] => false | _ :: _ => true end.

(** Truth value of an [Optional[str]]: [None] and [""] are false. *)
Definition truthy_opt (o : option str) : bool :=
  match o with None => false | Some s => truthy s end.

(** [str.isspace] on one code point: the characters CPython's
    [_PyUnicode_IsWhitespace] accepts. *)
Definition isspace (c : char) : bool :=
  ((9 <=? c) && (c <=? 13) || (28 <=? c) && (c <=? 32)
   || (c =? 133) || (c =? 160) || (c =? 5760)
   || (8192 <=? c) && (c <=? 8202)
   || (c =? 8232) || (c =? 8233) || (c =? 8239) || (c =? 8287)
   || (c =? 12288))%N.

(** [str.lstrip()], [str.rstrip()] and [str.strip()] with no argument. *)
Fixpoint lstrip (s : str) : str :=
  match s with
  | [] => []
  | c :: s' => if isspace c then lstrip s' else s
  end.

Definition rstrip (s : str) : str := rev (lstrip (rev s)).

Definition strip (s : str) : str := rstrip (lstrip s).

(** [s.endswith(t)]. *)
Definition endswith (s t : str) : bool :=
  bool_decide (drop (length s - length t) s = t).

(** UTF-8 decoding of the literals of this file. *)
Definition byte_of (a : ascii) : N := N_of_ascii a.

Fixpoint bytes_of (s : string) : list N :=
  match s with
  | EmptyString => []
  | String a s' => byte_of a :: bytes_of s'
  end.

Definition cont (b : N) : N := N.land b 63.

Fixpoint decode (fuel : nat) (bs : list N) : str :=
  match fuel with
  | O => []
  | S fuel =>
    match bs with
    | [] => []
    | b0 :: r0 =>
      if (b0 <? 128)%N then b0 :: decode fuel r0
      else if (b0 <? 224)%N then
        match r0 with
        | b1 :: r1 => (N.land b0 31 * 64 + cont b1)%N :: decode fuel r1
        | _ => []
        end
      else if (b0 <? 240)%N then
        match r0 with
        | b1 :: b2 :: r2 =>
          (N.land b0 15 * 4096 + cont b1 * 64 + cont b2)%N :: decode fuel r2
        | _ => []
        end
      else
        match r0 with
        | b1 :: b2 :: b3 :: r3 =>
          (N.land b0 7 * 262144 + cont b1 * 4096 + cont b2 * 64 + cont b3)%N
            :: decode fuel r3
        | _ => []
        end
    end
  end.

Definition u (s : string) : str :=
  let bs := bytes_of s in decode (length bs) bs.

End PyStr.

Import PyStr.
Arguments u : simpl never.

Example len_privet : len (u "Привет мир") = 10.
Proof. reflexivity. Qed.

Example strip_hello : strip (u "  hello
 ") = u "hello".
Proof. reflexivity. Qed.

(** ** The document tree

    An [xml.etree.ElementTree.Element]: tag, attributes in document order,
    body text, children, tail text.  [text] and [tail] are [None] or a
    string. *)

Unset Elimination Schemes.
Inductive Element : Type :=
  mkElement {
    tag : str;
    attrib : list (str * str);
    text : option str;
    children : list Element;
    tail : option str
  }.

Section Element_ind.
Variable P : Element -> Prop.
Hypothesis Hnode : forall tg ats tx cs tl,
  Forall P cs -> P (mkElement tg ats tx cs tl).

Fixpoint Element_nested_ind (e : Element) : P e :=
  match e with
  | mkElement tg ats tx cs tl =>
    Hnode tg ats tx cs tl
      ((fix all (l : list Element) : Forall P l :=
          match l with
          | [] => List.Forall_nil P
          | c :: l' => List.Forall_cons P c l' (Element_nested_ind c) (all l')
          end) cs)
  end.
End Element_ind.

(** What the walk must not change: tags, attributes and the child lists. *)
Inductive Shape : Type :=
  ShapeNode (stag : str) (sattrib : list (str * str)) (skids : list Shape).
Set Elimination Schemes.

Fixpoint shape_of (e : Element) : Shape :=
  match e with
  | mkElement tg ats _ cs _ => ShapeNode tg ats (map shape_of cs)
  end.

(** The node reached from [e] by a path of child indices, and the tags of
    the nodes passed below [e] on the way (the last one is the node's). *)
Fixpoint node_at (e : Element) (p : list nat) : option Element :=
  match p with
  | [] => Some e
  | i :: p' =>
    match children e !! i with
    | Some c => node_at c p'
    | None => None
    end
  end.

Fixpoint tags_below (e : Element) (p : list nat) : list str :=
  match p with
  | [] => []
  | i :: p' =>
    match children e !! i with
    | Some c => tag c :: tags_below c p'
    | None => []
    end
  end.

(** ** The translator interface

    What the walker uses of [self.translator]: the method [translate_text],
    which returns [None] or a string and may change the translator, and the
    counter [translation_stats['total']], which the walker increments
    itself. *)

Class Translator (T : Type) := {
  translate_text : T -> str -> str -> option str * T;
  incr_total : T -> T
}.

(** ** The walker *)

Section Walker.
Context {T : Type} `{Translator T}.

(** [f"{context}/{child.tag}" if context else child.tag] *)
Definition child_context (context child_tag : str) : str :=
  if truthy context then context ++ u "/" ++ child_tag else child_tag.

(** [f"{context}/tail"] *)
Definition tail_context (context : str) : str := context ++ u "/tail".

(** The block the walker runs on [element.text] with [context] and on
    [element.tail] with [f"{context}/tail"]: the two blocks of the source
    differ in nothing else.  The result is the new value of the slot.
    The progress marks written to the console are left out. *)
Definition translate_slot (slot : option str) (context : str) (t : T)
  : option str * T :=
  match slot with
  | Some s =>
    if truthy s && truthy (strip s) then
      let text := strip s in
      if 2 <? len text then
        let t1 := incr_total t in
        let '(translation, t2) := translate_text t1 text context in
        if truthy_opt translation then (translation, t2) else (slot, t2)
      else (slot, t)
    else (slot, t)
  | None => (slot, t)
  end.

Fixpoint process_element_translations (element : Element) (context : str)
    (t : T) : Element * T :=
  match element with
  | mkElement tg ats tx cs tl =>
    let '(tx', t1) := translate_slot tx context t in
    let '(cs', t2) :=
      (fix each (l : list Element) (t : T) : list Element * T :=
         match l with
         | [] => ([], t)
         | child :: l' =>
           let '(child', t') :=
             process_element_translations child
               (child_context context (tag child)) t in
           let '(l'', t'') := each l' t' in
           (child' :: l'', t'')
         end) cs t1 in
    let '(tl', t3) := translate_slot tl (tail_context context) t2 in
    (mkElement tg ats tx' cs' tl', t3)
  end.

(** The loop over the children, named. *)
Fixpoint process_children (l : list Element) (context : str) (t : T)
  : list Element * T :=
  match l with
  | [] => ([], t)
  | child :: l' =>
    let '(child', t') :=
      process_element_translations child
        (child_context context (tag child)) t in
    let '(l'', t'') := process_children l' context t' in
    (child' :: l'', t'')
  end.

Lemma process_element_translations_eq tg ats tx cs tl context t :
  process_element_translations (mkElement tg ats tx cs tl) context t =
  let '(tx', t1) := translate_slot tx context t in
  let '(cs', t2) := process_children cs context t1 in
  let '(tl', t3) := translate_slot tl (tail_context context) t2 in
  (mkElement tg ats tx' cs' tl', t3).
Proof.
  simpl. destruct (translate_slot tx context t) as [tx' t1].
  assert (Hk : forall l t0,
    (fix each (l : list Element) (t : T) : list Element * T :=
         match l with
         | [] => ([], t)
         | child :: l' =>
           let '(child', t') :=
             process_element_translations child
               (child_context context (tag child)) t in
           let '(l'', t'') := each l' t' in
           (child' :: l'', t'')
         end) l t0 = process_children l context t0).
  { induction l as [|c l IH]; intros t0; simpl; [done|].
    destruct (process_element_translations c _ t0) as [c' t'].
    by rewrite IH. }
  by rewrite Hk.
Qed.

End Walker.

(** ** The walk as a sequence of slots *)

(** The text slots of a subtree in the order the walker reaches them, each
    with the context the walker holds there: the body of a node, the slots
    of its children from first to last, the tail of the node. *)
Fixpoint slots_of (e : Element) (context : str) : list (option str * str) :=
  match e with
  | mkElement tg ats tx cs tl =>
    (tx, context)
      :: flat_map (fun c => slots_of c (child_context context (tag c))) cs
      ++ [(tl, tail_context context)]
  end.

(** The stored values of the same slots, in the same order. *)
Fixpoint texts_of (e : Element) : list (option str) :=
  match e with
  | mkElement tg ats tx cs tl => tx :: flat_map texts_of cs ++ [tl]
  end.

Fixpoint node_count (e : Element) : nat :=
  match e with
  | mkElement tg ats tx cs tl => S (list_sum (map node_count cs))
  end.

(** The qualification rule in the words of the specification: the slot is
    not null and its stripped length is strictly greater than 2. *)
Definition qualifies (slot : option str) : bool :=
  match slot with
  | Some s => 2 <? len (strip s)
  | None => false
  end.

(** The translation unit of a slot: the pair handed to [translate_text]. *)
Definition unit_of (sc : option str * str) : list (str * str) :=
  match sc with
  | (Some s, c) => if qualifies (Some s) then [(strip s, c)] else []
  | (None, _) => []
  end.

Definition units (e : Element) (context : str) : list (str * str) :=
  flat_map unit_of (slots_of e context).

Section Sequence.
Context {T : Type} `{Translator T}.

(** [translate_slot] over a list of slots, from first to last. *)
Fixpoint run_slots (l : list (option str * str)) (t : T)
  : list (option str) * T :=
  match l with
  | [] => ([], t)
  | (s, c) :: l' =>
    let '(s', t1) := translate_slot s c t in
    let '(r, t2) := run_slots l' t1 in
    (s' :: r, t2)
  end.

Lemma run_slots_app l1 l2 t :
  run_slots (l1 ++ l2) t =
  let '(r1, t1) := run_slots l1 t in
  let '(r2, t2) := run_slots l2 t1 in
  (r1 ++ r2, t2).
Proof.
  revert t. induction l1 as [|[s c] l1 IH]; intros t; simpl.
  - by destruct (run_slots l2 t).
  - destruct (translate_slot s c t) as [s' t1]. rewrite IH.
    destruct (run_slots l1 t1) as [r1 t2].
    by destruct (run_slots l2 t2).
Qed.

Lemma run_slots_length l t : length (fst (run_slots l t)) = length l.
Proof.
  revert t. induction l as [|[s c] l IH]; intros t; simpl; [done|].
  destruct (translate_slot s c t) as [s' t1]. specialize (IH t1).
  destruct (run_slots l t1). simpl in *. by rewrite IH.
Qed.

(** The guard of the walker is the qualification rule. *)
Lemma translate_slot_guard s :
  truthy s && truthy (strip s) && (2 <? len (strip s))
  = qualifies (Some s).
Proof.
  simpl. destruct (2 <? len (strip s)) eqn:E.
  - apply Nat.ltb_lt in E. unfold len in E.
    destruct s as [|a s]; [by vm_compute in E; lia|].
    destruct (strip (a :: s)); simpl in *; [lia|done].
  - by rewrite andb_false_r.
Qed.

Lemma translate_slot_skip slot c t :
  qualifies slot = false -> translate_slot slot c t = (slot, t).
Proof.
  destruct slot as [s|]; [|done]. intros Hq.
  rewrite <- translate_slot_guard in Hq. unfold translate_slot.
  destruct (truthy s && truthy (strip s)); [|done].
  simpl in Hq. by rewrite Hq.
Qed.

Lemma translate_slot_unit s c t :
  qualifies (Some s) = true ->
  translate_slot (Some s) c t =
  let '(translation, t2) := translate_text (incr_total t) (strip s) c in
  (if truthy_opt translation then translation else Some s, t2).
Proof.
  intros Hq. rewrite <- translate_slot_guard in Hq.
  apply andb_true_iff in Hq as [Hg Hl]. unfold translate_slot.
  rewrite Hg, Hl.
  destruct (translate_text (incr_total t) (strip s) c) as [r t2].
  by destruct (truthy_opt r).
Qed.

(** The walk of a subtree is [translate_slot] over its slots in order. *)
Lemma walk_children_slots cs c :
  Forall (fun e => forall c t,
    texts_of (fst (process_element_translations e c t))
      = fst (run_slots (slots_of e c) t)
    /\ snd (process_element_translations e c t)
      = snd (run_slots (slots_of e c) t)) cs ->
  forall t,
    flat_map texts_of (fst (process_children cs c t))
      = fst (run_slots
          (flat_map (fun e => slots_of e (child_context c (tag e))) cs) t)
    /\ snd (process_children cs c t)
      = snd (run_slots
          (flat_map (fun e => slots_of e (child_context c (tag e))) cs) t).
Proof.
  induction 1 as [|e cs He _ IH]; intros t; [done|].
  cbn [process_children flat_map]. rewrite run_slots_app.
  destruct (He (child_context c (tag e)) t) as [E1 E2].
  destruct (process_element_translations e _ t) as [e' t1].
  destruct (run_slots (slots_of e _) t) as [r1 t1']. simpl in E1, E2.
  subst t1'. destruct (IH t1) as [E3 E4].
  destruct (process_children cs c t1) as [cs' t2].
  destruct (run_slots _ t1) as [r2 t2']. simpl in *.
  by rewrite E1, E3, E4.
Qed.

Lemma walk_slots e : forall c t,
  texts_of (fst (process_element_translations e c t))
    = fst (run_slots (slots_of e c) t)
  /\ snd (process_element_translations e c t)
    = snd (run_slots (slots_of e c) t).
Proof.
  induction e as [tg ats tx cs tl IH] using Element_nested_ind; intros c t.
  rewrite process_element_translations_eq.
  cbn [slots_of run_slots].
  destruct (translate_slot tx c t) as [tx' t1].
  rewrite run_slots_app.
  destruct (walk_children_slots cs c IH t1) as [E1 E2].
  destruct (process_children cs c t1) as [cs' t2].
  destruct (run_slots _ t1) as [r t2']. simpl in E1, E2. subst t2'.
  cbn [run_slots].
  destruct (translate_slot tl (tail_context c) t2) as [tl' t3].
  simpl. by rewrite E1.
Qed.

(** The walk keeps tags, attributes and child lists. *)
Lemma walk_children_shape cs c :
  Forall (fun e => forall c t,
    shape_of (fst (process_element_translations e c t)) = shape_of e) cs ->
  forall t, map shape_of (fst (process_children cs c t)) = map shape_of cs.
Proof.
  induction 1 as [|e cs He _ IH]; intros t; [done|].
  cbn [process_children]. specialize (He (child_context c (tag e)) t).
  destruct (process_element_translations e _ t) as [e' t1].
  specialize (IH t1). destruct (process_children cs c t1) as [cs' t2].
  simpl in *. by rewrite He, IH.
Qed.

Lemma walk_shape e : forall c t,
  shape_of (fst (process_element_translations e c t)) = shape_of e.
Proof.
  induction e as [tg ats tx cs tl IH] using Element_nested_ind; intros c t.
  rewrite process_element_translations_eq.
  destruct (translate_slot tx c t) as [tx' t1].
  pose proof (walk_children_shape cs c IH t1) as E.
  destruct (process_children cs c t1) as [cs' t2].
  destruct (translate_slot tl (tail_context c) t2) as [tl' t3].
  simpl in *. by rewrite E.
Qed.

End Sequence.

(** A tree is its shape together with the values of its slots. *)
Lemma texts_length_shape x : forall y,
  shape_of x = shape_of y -> length (texts_of x) = length (texts_of y).
Proof.
  induction x as [tg ats tx cs tl IH] using Element_nested_ind.
  intros [tg' ats' tx' cs' tl'] Hs. simpl in Hs.
  injection Hs as _ _ Hk. simpl. f_equal.
  rewrite !length_app. f_equal. revert cs' Hk.
  induction IH as [|x cs Hx _ IHl]; intros [|y cs'] Hk; try done.
  simpl in *. injection Hk as Hxy Hk. rewrite !length_app.
  by rewrite (Hx _ Hxy), (IHl _ Hk).
Qed.

Lemma shape_texts_inj a : forall b,
  shape_of a = shape_of b -> texts_of a = texts_of b -> a = b.
Proof.
  induction a as [tg ats tx cs tl IH] using Element_nested_ind.
  intros [tg' ats' tx' cs' tl'] Hs Ht. simpl in Hs, Ht.
  injection Hs as -> -> Hk. injection Ht as -> Ht.
  assert (Hcs : forall cs' rest rest',
    map shape_of cs = map shape_of cs' ->
    flat_map texts_of cs ++ rest = flat_map texts_of cs' ++ rest' ->
    cs = cs' /\ rest = rest').
  { clear Hk Ht cs'. induction IH as [|a cs Ha _ IHcs];
      intros [|b cs'] rest rest' Hm Hf; try done.
    simpl in Hm, Hf. injection Hm as Hab Hm.
    rewrite <- !app_assoc in Hf.
    apply app_inj_1 in Hf as [Hf1 Hf2]; [|by apply texts_length_shape].
    destruct (IHcs _ _ _ Hm Hf2) as [-> ->].
    by rewrite (Ha _ Hab Hf1). }
  destruct (Hcs cs' [tl] [tl'] Hk Ht) as [-> Ht']. by injection Ht' as ->.
Qed.

Lemma slots_texts e : forall c, map fst (slots_of e c) = texts_of e.
Proof.
  induction e as [tg ats tx cs tl IH] using Element_nested_ind; intros c.
  simpl. f_equal. rewrite map_app. simpl. f_equal.
  induction IH as [|x cs Hx _ IHl]; [done|].
  simpl. by rewrite map_app, Hx, IHl.
Qed.

Lemma slots_count e : forall c, length (slots_of e c) = 2 * node_count e.
Proof.
  induction e as [tg ats tx cs tl IH] using Element_nested_ind; intros c.
  simpl. rewrite length_app. simpl.
  assert (E : length (flat_map
              (fun x => slots_of x (child_context c (tag x))) cs)
            = 2 * list_sum (map node_count cs)).
  { induction IH as [|x cs Hx _ IHl]; [done|].
    simpl. rewrite length_app, Hx, IHl. lia. }
  rewrite E. lia.
Qed.

(** ** Observing the calls

    A translator wrapped so that every call of [translate_text] is written
    down with its arguments and its result.  The wrapped translator answers
    as the one inside. *)

Record Call := mkCall {
  call_text : str;
  call_context : str;
  call_result : option str
}.

Definition call_unit (k : Call) : str * str := (call_text k, call_context k).

Record Traced (T : Type) := mkTraced { inner : T; calls : list Call }.
Arguments mkTraced {T} _ _.
Arguments inner {T} _.
Arguments calls {T} _.

#[export] Instance traced_translator {T : Type} `{Translator T}
  : Translator (Traced T) := {
  translate_text tr text context :=
    let '(r, t') := translate_text (inner tr) text context in
    (r, mkTraced t' (calls tr ++ [mkCall text context r]));
  incr_total tr := mkTraced (incr_total (inner tr)) (calls tr)
}.

(** The pairs submitted to [translate_text] by a walk started in state
    [t]. *)
Definition submitted {T : Type} `{Translator T}
    (e : Element) (context : str) (t : T) : list (str * str) :=
  map call_unit
    (calls (snd (process_element_translations e context (mkTraced t [])))).

Section TracedFacts.
Context {T : Type} `{Translator T}.

Lemma translate_slot_traced slot c (t : T) log :
  translate_slot slot c (mkTraced t log) =
  (fst (translate_slot slot c t),
   mkTraced (snd (translate_slot slot c t))
     (log ++ match slot with
             | Some s =>
               if qualifies slot
               then [mkCall (strip s) c
                       (fst (translate_text (incr_total t) (strip s) c))]
               else []
             | None => []
             end)).
Proof.
  destruct slot as [s|]; [|by simpl; rewrite app_nil_r].
  destruct (qualifies (Some s)) eqn:Hq.
  - rewrite !translate_slot_unit by done. cbn.
    destruct (translate_text (incr_total t) (strip s) c) as [r t2].
    by destruct (truthy_opt r).
  - rewrite !translate_slot_skip by done. by rewrite app_nil_r.
Qed.

Lemma run_slots_traced l : forall (t : T) log,
  fst (run_slots l (mkTraced t log)) = fst (run_slots l t)
  /\ inner (snd (run_slots l (mkTraced t log))) = snd (run_slots l t)
  /\ exists new,
      calls (snd (run_slots l (mkTraced t log))) = log ++ new
      /\ map call_unit new = flat_map unit_of l.
Proof.
  induction l as [|[s c] l IH]; intros t log.
  - simpl. repeat split; try done. exists []. by rewrite app_nil_r.
  - cbn [run_slots]. rewrite translate_slot_traced. cbn [fst snd].
    destruct (translate_slot s c t) as [s' t1] eqn:Es. cbn [fst snd].
    match goal with |- context [mkTraced t1 ?L] =>
      destruct (IH t1 L) as (E1 & E2 & new & E3 & E4) end.
    destruct (run_slots l (mkTraced t1 _)) as [r tr2].
    destruct (run_slots l t1) as [r' t2]. simpl in *. subst.
    repeat split; try done.
    eexists. rewrite E3, <- app_assoc. split; [done|].
    rewrite map_app, E4. f_equal.
    destruct s as [s|]; [|done]. simpl.
    by destruct (2 <? len (strip s)).
Qed.

(** What a walk submits is the list of the units of its slots. *)
Lemma submitted_units e c (t : T) : submitted e c t = units e c.
Proof.
  unfold submitted, units.
  destruct (walk_slots e c (mkTraced t [])) as [_ ->].
  destruct (run_slots_traced (slots_of e c) t []) as (_ & _ & new & -> & E).
  done.
Qed.

(** Tracing does not change the walk. *)
Lemma walk_traced e c (t : T) log :
  fst (process_element_translations e c (mkTraced t log))
    = fst (process_element_translations e c t)
  /\ inner (snd (process_element_translations e c (mkTraced t log)))
    = snd (process_element_translations e c t).
Proof.
  destruct (walk_slots e c (mkTraced t log)) as [E1 E2].
  destruct (walk_slots e c t) as [E3 E4].
  destruct (run_slots_traced (slots_of e c) t log) as (E5 & E6 & _).
  rewrite E2, E4, E6. split; [|done].
  apply shape_texts_inj.
  - by rewrite !walk_shape.
  - by rewrite E1, E3.
Qed.

End TracedFacts.

(** ** One slot of the walk *)

Section SlotAt.
Context {T : Type} `{Translator T}.

(** The translator as the walker holds it when it reaches slot [i]. *)
Definition state_at (e : Element) (context : str) (t : T) (i : nat) : T :=
  snd (run_slots (take i (slots_of e context)) t).

Lemma run_slots_lookup l : forall (t : T) i s c,
  l !! i = Some (s, c) ->
  fst (run_slots l t) !! i
    = Some (fst (translate_slot s c (snd (run_slots (take i l) t)))).
Proof.
  induction l as [|[s0 c0] l IH]; intros t i s c Hi; [done|].
  destruct i as [|i]; simpl in Hi.
  - injection Hi as -> ->. simpl.
    destruct (translate_slot s c t) as [s' t1].
    by destruct (run_slots l t1).
  - cbn [take run_slots].
    destruct (translate_slot s0 c0 t) as [s' t1].
    specialize (IH t1 i s c Hi).
    destruct (run_slots l t1) as [r t2].
    destruct (run_slots (take i l) t1) as [r' t2']. simpl in *. done.
Qed.

(** After the walk, slot [i] holds what [translate_slot] made of it. *)
Lemma walk_slot_at e c (t : T) i s ctx :
  slots_of e c !! i = Some (s, ctx) ->
  texts_of (fst (process_element_translations e c t)) !! i
    = Some (fst (translate_slot s ctx (state_at e c t i))).
Proof.
  intros Hi. destruct (walk_slots e c t) as [-> _].
  by apply run_slots_lookup.
Qed.

End SlotAt.

(** ** Contexts along a path *)

(** ["/".join(tags)] *)
Fixpoint join (sep : str) (l : list str) : str :=
  match l with
  | [] => []
  | [x] => x
  | x :: l' => x ++ sep ++ join sep l'
  end.

(** The context the walker holds after descending through [tags]. *)
Definition path_context (context : str) (tags : list str) : str :=
  fold_left child_context tags context.

Lemma path_context_nonempty tags : forall c,
  c <> [] ->
  path_context c tags = c ++ flat_map (fun tg => u "/" ++ tg) tags.
Proof.
  induction tags as [|tg tags IH]; intros c Hc.
  - simpl. by rewrite app_nil_r.
  - unfold path_context in *. cbn [fold_left flat_map].
    assert (E : child_context c tg = c ++ u "/" ++ tg).
    { unfold child_context. by destruct c. }
    rewrite E, IH; [by rewrite <- !app_assoc|]. by destruct c.
Qed.

Lemma join_cons tg tags :
  join (u "/") (tg :: tags) = tg ++ flat_map (fun x => u "/" ++ x) tags.
Proof.
  revert tg. induction tags as [|x tags IH]; intros tg.
  - simpl. by rewrite app_nil_r.
  - change (join (u "/") (tg :: x :: tags))
      with (tg ++ u "/" ++ join (u "/") (x :: tags)).
    rewrite IH. cbn [flat_map]. by rewrite <- !app_assoc.
Qed.

(** Below the root the context is the joined tags of the path; the root's
    own tag is not part of it. *)
Lemma path_context_join tags :
  Forall (fun tg => tg <> []) tags ->
  path_context [] tags = join (u "/") tags.
Proof.
  destruct 1 as [|tg tags Htg _]; [done|].
  rewrite join_cons. unfold path_context. cbn [fold_left].
  change (child_context [] tg) with tg.
  by apply path_context_nonempty.
Qed.

Lemma slots_at p : forall e c n,
  node_at e p = Some n ->
  exists pre post,
    slots_of e c
      = pre ++ slots_of n (path_context c (tags_below e p)) ++ post.
Proof.
  induction p as [|i p IH]; intros e c n Hn; simpl in Hn.
  - injection Hn as ->. exists [], []. simpl. by rewrite app_nil_r.
  - destruct e as [tg ats tx cs tl]. simpl in *.
    destruct (cs !! i) as [ch|] eqn:Hi; [|done].
    destruct (IH ch (child_context c (tag ch)) n Hn) as (pre & post & E).
    apply list_elem_of_split_length in Hi as (l1 & l2 & -> & _).
    rewrite flat_map_app. simpl. rewrite E.
    eexists ((tx, c) :: flat_map _ l1 ++ pre), (post ++ flat_map _ l2 ++ [_]).
    simpl. by rewrite <- !app_assoc.
Qed.

(** ** The provider classes

    [OpenAITranslator], [AnthropicTranslator], [DeepSeekTranslator],
    [ZhipuTranslator] and [OllamaTranslator] share one [translate_text]: they
    differ in the remote call only.  The remote service is a parameter:
    [chat w prompt] is the state of the service after the call and the text
    of the answer before [.strip()], or [None] when anything inside the
    [try] block raises.  The Unicode case tables used by
    [enhance_translation] are parameters as well. *)

Record Stats := mkStats {
  total : nat;
  translated : nat;
  errors : nat;
  cached : nat
}.

Record LLMTranslator (W : Type) := mkLLM {
  world : W;
  translation_cache : gmap (str * str) str;
  translation_stats : Stats
}.
Arguments mkLLM {W} _ _ _.
Arguments world {W} _.
Arguments translation_cache {W} _.
Arguments translation_stats {W} _.

(** [LLMTranslator.__init__]: empty cache, counters at zero. *)
Definition new_translator {W : Type} (w : W) : LLMTranslator W :=
  mkLLM w ∅ (mkStats 0 0 0 0).

(** [s.replace(old, new)] for one-character [old] and [new]. *)
Definition replace_char (old new : char) (s : str) : str :=
  map (fun c => if bool_decide (c = old) then new else c) s.

Lemma replace_char_same c s : replace_char c c s = s.
Proof.
  induction s as [|a s IH]; [done|]. simpl. rewrite IH.
  by case_bool_decide; subst.
Qed.

Definition newline : str := [10%N].

Section Provider.
Context {W : Type}.
Variable chat : W -> str -> W * option str.
Variables islower isupper : char -> bool.
Variable upper : char -> str.

Definition create_translation_prompt (text context : str) : str :=
  u "You are a professional literary translator specializing in Russian to Serbian translation. 
Your task is to translate the following Russian text into natural, idiomatic Serbian.

Guidelines:
1. Preserve the literary style and tone
2. Use appropriate Serbian vocabulary and grammar
3. Maintain cultural nuances and idioms
4. Keep names of people and places unchanged unless they have standard Serbian equivalents
5. Preserve formatting, punctuation, and paragraph structure
6. Use Serbian Cyrillic script (ћирилица)

Context: "
  ++ (if truthy context then context else u "Literary text")
  ++ u "

Russian text:
"
  ++ text
  ++ u "

Serbian translation:".

(** The three [replace] calls of the source put a character in place of
    itself (code points 34, 34 and 39). *)
Definition enhance_translation (original translated : str) : str :=
  let enhanced := translated in
  let enhanced := replace_char 34%N 34%N (replace_char 34%N 34%N enhanced) in
  let enhanced := replace_char 39%N 39%N enhanced in
  let enhanced :=
    if endswith original newline && negb (endswith enhanced newline)
    then enhanced ++ newline else enhanced in
  match enhanced, original with
  | e0 :: erest, o0 :: _ =>
    if islower e0 && isupper o0 then upper e0 ++ erest else enhanced
  | _, _ => enhanced
  end.

Definition bump_total (s : Stats) : Stats :=
  mkStats (total s + 1) (translated s) (errors s) (cached s).
Definition bump_translated (s : Stats) : Stats :=
  mkStats (total s) (translated s + 1) (errors s) (cached s).
Definition bump_errors (s : Stats) : Stats :=
  mkStats (total s) (translated s) (errors s + 1) (cached s).
Definition bump_cached (s : Stats) : Stats :=
  mkStats (total s) (translated s) (errors s) (cached s + 1).

Definition llm_translate_text (t : LLMTranslator W) (text context : str)
  : option str * LLMTranslator W :=
  if negb (truthy text) || negb (truthy (strip text)) then (Some text, t)
  else
    let cache_key := (text, context) in
    match translation_cache t !! cache_key with
    | Some hit =>
      (Some hit,
       mkLLM (world t) (translation_cache t)
         (bump_cached (translation_stats t)))
    | None =>
      let prompt := create_translation_prompt text context in
      match chat (world t) prompt with
      | (w', Some content) =>
        let translation := strip content in
        let enhanced := enhance_translation text translation in
        (Some enhanced,
         mkLLM w' (<[cache_key := enhanced]> (translation_cache t))
           (bump_translated (translation_stats t)))
      | (w', None) =>
        (None,
         mkLLM w' (translation_cache t) (bump_errors (translation_stats t)))
      end
    end.

Definition llm_translator : Translator (LLMTranslator W) := {|
  translate_text := llm_translate_text;
  incr_total t :=
    mkLLM (world t) (translation_cache t) (bump_total (translation_stats t))
|}.

(** The same provider with no cache, in the words of the specification:
    every call goes to the remote service. *)
Definition nocache_translate_text (t : LLMTranslator W) (text context : str)
  : option str * LLMTranslator W :=
  if negb (truthy text) || negb (truthy (strip text)) then (Some text, t)
  else
    let prompt := create_translation_prompt text context in
    match chat (world t) prompt with
    | (w', Some content) =>
      let translation := strip content in
      let enhanced := enhance_translation text translation in
      (Some enhanced,
       mkLLM w' (translation_cache t)
         (bump_translated (translation_stats t)))
    | (w', None) =>
      (None,
       mkLLM w' (translation_cache t) (bump_errors (translation_stats t)))
    end.

Definition nocache_translator : Translator (LLMTranslator W) := {|
  translate_text := nocache_translate_text;
  incr_total t :=
    mkLLM (world t) (translation_cache t) (bump_total (translation_stats t))
|}.

End Provider.

(** ** The metadata update

    [find(tag)] returns the first child with that tag and
    [find('.//tag')] the first descendant in document order; the element
    found is then changed in place.  Here the change is applied at the place
    where the element is found. *)

Definition fb2 (name : string) : str :=
  u "{http://www.gribuser.ru/xml/fictionbook/2.0}" ++ u name.

Definition set_text (v : option str) (e : Element) : Element :=
  mkElement (tag e) (attrib e) v (children e) (tail e).

Definition set_children (cs : list Element) (e : Element) : Element :=
  mkElement (tag e) (attrib e) (text e) cs (tail e).

Section Metadata.
Context {T : Type} `{Translator T}.

Fixpoint on_first_child (tg : str) (f : Element -> T -> Element * T)
    (cs : list Element) (t : T) : list Element * T :=
  match cs with
  | [] => ([], t)
  | c :: cs' =>
    if bool_decide (tag c = tg) then
      let '(c', t') := f c t in (c' :: cs', t')
    else
      let '(cs'', t') := on_first_child tg f cs' t in (c :: cs'', t')
  end.

Fixpoint on_first_descendant (tg : str) (f : Element -> T -> Element * T)
    (e : Element) (t : T) : option (Element * T) :=
  match e with
  | mkElement tg0 ats tx cs tl =>
    match
      (fix among (l : list Element) : option (list Element * T) :=
         match l with
         | [] => None
         | c :: l' =>
           if bool_decide (tag c = tg) then
             let '(c', t') := f c t in Some (c' :: l', t')
           else
             match on_first_descendant tg f c t with
             | Some (c', t') => Some (c' :: l', t')
             | None =>
               match among l' with
               | Some (l'', t') => Some (c :: l'', t')
               | None => None
               end
             end
         end) cs
    with
    | Some (cs', t') => Some (mkElement tg0 ats tx cs' tl, t')
    | None => None
    end
  end.

(** The search among the children, named. *)
Fixpoint first_among (tg : str) (f : Element -> T -> Element * T)
    (l : list Element) (t : T) : option (list Element * T) :=
  match l with
  | [] => None
  | c :: l' =>
    if bool_decide (tag c = tg) then
      let '(c', t') := f c t in Some (c' :: l', t')
    else
      match on_first_descendant tg f c t with
      | Some (c', t') => Some (c' :: l', t')
      | None =>
        match first_among tg f l' t with
        | Some (l'', t') => Some (c :: l'', t')
        | None => None
        end
      end
  end.

Lemma on_first_descendant_eq tg f tg0 ats tx cs tl t :
  on_first_descendant tg f (mkElement tg0 ats tx cs tl) t =
  match first_among tg f cs t with
  | Some (cs', t') => Some (mkElement tg0 ats tx cs' tl, t')
  | None => None
  end.
Proof.
  simpl.
  assert (Hk : forall l,
    (fix among (l : list Element) : option (list Element * T) :=
         match l with
         | [] => None
         | c :: l' =>
           if bool_decide (tag c = tg) then
             let '(c', t') := f c t in Some (c' :: l', t')
           else
             match on_first_descendant tg f c t with
             | Some (c', t') => Some (c' :: l', t')
             | None =>
               match among l' with
               | Some (l'', t') => Some (c :: l'', t')
               | None => None
               end
             end
         end) l = first_among tg f l t).
  { induction l as [|c l IH]; [done|]. simpl. by rewrite IH. }
  by rewrite Hk.
Qed.

(** [lang.text = 'sr'] *)
Definition update_lang (lang : Element) (t : T) : Element * T :=
  (set_text (Some (u "sr")) lang, t).

Definition update_book_title (book_title : Element) (t : T)
  : Element * T :=
  match text book_title with
  | Some s =>
    if truthy s then
      let '(translated_title, t') :=
        translate_text t s (u "book-title") in
      if truthy_opt translated_title
      then (set_text translated_title book_title, t')
      else (book_title, t')
    else (book_title, t)
  | None => (book_title, t)
  end.

Definition update_title_info (title_info : Element) (t : T)
  : Element * T :=
  let '(cs1, t1) :=
    on_first_child (fb2 "lang") update_lang (children title_info) t in
  let '(cs2, t2) :=
    on_first_child (fb2 "book-title") update_book_title cs1 t1 in
  (set_children cs2 title_info, t2).

Definition update_description (description : Element) (t : T)
  : Element * T :=
  let '(cs, t') :=
    on_first_child (fb2 "title-info") update_title_info
      (children description) t in
  (set_children cs description, t').

Definition update_document_metadata (root : Element) (t : T)
  : Element * T :=
  match on_first_descendant (fb2 "description") update_description root t
  with
  | Some r => r
  | None => (root, t)
  end.

(** The part of [process_fb2_structure] between parsing and writing. *)
Definition translate_tree (root : Element) (t : T) : Element * T :=
  let '(root1, t1) := update_document_metadata root t in
  process_element_translations root1 [] t1.

Definition keeps_shape (f : Element -> T -> Element * T) : Prop :=
  forall e t, shape_of (fst (f e t)) = shape_of e.

Lemma on_first_child_shape tg f cs t :
  keeps_shape f ->
  map shape_of (fst (on_first_child tg f cs t)) = map shape_of cs.
Proof.
  intros Hf. induction cs as [|c cs IH]; [done|]. simpl.
  case_bool_decide.
  - specialize (Hf c t). destruct (f c t) as [c' t']. simpl in *.
    by rewrite Hf.
  - destruct (on_first_child tg f cs t) as [cs' t']. simpl in *.
    by rewrite IH.
Qed.

Lemma on_first_descendant_shape tg f e : forall t r,
  keeps_shape f ->
  on_first_descendant tg f e t = Some r ->
  shape_of (fst r) = shape_of e.
Proof.
  induction e as [tg0 ats tx cs tl IH] using Element_nested_ind.
  intros t r Hf. rewrite on_first_descendant_eq.
  assert (Hk : forall r', first_among tg f cs t = Some r' ->
                 map shape_of (fst r') = map shape_of cs).
  { induction IH as [|c cs Hc _ IHcs]; intros r'; [done|].
    cbn [first_among]. case_bool_decide.
    - specialize (Hf c t). destruct (f c t) as [c' t'].
      intros [= <-]. simpl in *. by rewrite Hf.
    - destruct (on_first_descendant tg f c t) as [[c' t']|] eqn:Ed.
      + intros [= <-]. simpl. f_equal. by apply (Hc t (c', t')).
      + destruct (first_among tg f cs t) as [[l'' t']|]; [|done].
        intros [= <-]. simpl. f_equal. by apply (IHcs (l'', t')). }
  destruct (first_among tg f cs t) as [[cs' t']|]; [|done].
  intros [= <-]. simpl. f_equal. by apply (Hk (cs', t')).
Qed.

Lemma update_book_title_shape : keeps_shape update_book_title.
Proof.
  intros [tg ats tx cs tl] t. unfold update_book_title. simpl.
  destruct tx as [s|]; [|done]. destruct (truthy s); [|done].
  destruct (translate_text t s _) as [r t'].
  by destruct (truthy_opt r).
Qed.

Lemma update_title_info_shape : keeps_shape update_title_info.
Proof.
  intros [tg ats tx cs tl] t. unfold update_title_info. simpl.
  pose proof (on_first_child_shape (fb2 "lang") update_lang cs t) as E1.
  destruct (on_first_child (fb2 "lang") update_lang cs t) as [cs1 t1].
  pose proof (on_first_child_shape (fb2 "book-title") update_book_title
                cs1 t1 update_book_title_shape) as E2.
  destruct (on_first_child (fb2 "book-title") _ cs1 t1) as [cs2 t2].
  simpl in *. rewrite E2, E1; [done|]. by intros [].
Qed.

Lemma update_description_shape : keeps_shape update_description.
Proof.
  intros [tg ats tx cs tl] t. unfold update_description. simpl.
  pose proof (on_first_child_shape (fb2 "title-info") update_title_info
                cs t update_title_info_shape) as E.
  destruct (on_first_child (fb2 "title-info") _ cs t) as [cs' t'].
  simpl in *. by rewrite E.
Qed.

Lemma update_document_metadata_shape : keeps_shape update_document_metadata.
Proof.
  intros e t. unfold update_document_metadata.
  destruct (on_first_descendant _ _ e t) as [r|] eqn:E; [|done].
  eapply on_first_descendant_shape; [|done].
  apply update_description_shape.
Qed.

End Metadata.

(** ** The output stage *)

(** [LLMTranslator.cyrl_to_latn], entry by entry. *)
Definition cyrl_to_latn : list (string * string) :=
  [("А", "A"); ("Б", "B"); ("В", "V"); ("Г", "G"); ("Д", "D"); ("Ђ", "Đ");
   ("Е", "E"); ("Ж", "Ž"); ("З", "Z"); ("И", "I"); ("Ј", "J"); ("К", "K");
   ("Л", "L"); ("Љ", "Lj"); ("М", "M"); ("Н", "N"); ("Њ", "Nj"); ("О", "O");
   ("П", "P"); ("Р", "R"); ("С", "S"); ("Т", "T"); ("Ћ", "Ć"); ("У", "U");
   ("Ф", "F"); ("Х", "H"); ("Ц", "C"); ("Ч", "Č"); ("Џ", "Dž"); ("Ш", "Š");
   ("а", "a"); ("б", "b"); ("в", "v"); ("г", "g"); ("д", "d"); ("ђ", "đ");
   ("е", "e"); ("ж", "ž"); ("з", "z"); ("и", "i"); ("ј", "j"); ("к", "k");
   ("л", "l"); ("љ", "lj"); ("м", "m"); ("н", "n"); ("њ", "nj"); ("о", "o");
   ("п", "p"); ("р", "r"); ("с", "s"); ("т", "t"); ("ћ", "ć"); ("у", "u");
   ("ф", "f"); ("х", "h"); ("ц", "c"); ("ч", "č"); ("џ", "dž"); ("ш", "ш")].

(** [self.cyrl_to_latn.get(char, char)] *)
Definition latin_of (c : char) : str :=
  match find (fun kv => bool_decide (u (fst kv) = [c])) cyrl_to_latn with
  | Some kv => u (snd kv)
  | None => [c]
  end.

Definition convert_to_latin (s : str) : str := flat_map latin_of s.

Fixpoint convert_tree_to_latin (e : Element) : Element :=
  match e with
  | mkElement tg ats tx cs tl =>
    mkElement tg ats (convert_to_latin <$> tx)
      (map convert_tree_to_latin cs) (convert_to_latin <$> tl)
  end.

Example latin_zdravo : convert_to_latin (u "Здраво") = u "Zdravo".
Proof. vm_compute. reflexivity. Qed.

(** Exceptions, as far as the code tells them apart: all are caught by
    [except Exception]. *)
Inductive exn : Type :=
  | ParseError
  | ExpatError
  | OSError
  | AttributeError (name : string).

Inductive result (A : Type) : Type :=
  | Return (a : A)
  | Raise (e : exn).
Arguments Return {A} _.
Arguments Raise {A} _.

(** The classes a translator object can have, and the names each one
    answers to: the attributes set in [__init__], the methods of the class
    and the methods of the base class [LLMTranslator].  Names inherited from
    [object] all begin with two underscores. *)
Inductive ProviderClass : Type :=
  | OpenAITranslator
  | AnthropicTranslator
  | DeepSeekTranslator
  | ZhipuTranslator
  | OllamaTranslator.

Definition base_class_names : list string :=
  ["__init__"%string; "translate_text"%string;
   "create_translation_prompt"%string; "enhance_translation"%string;
   "convert_to_latin"%string; "config"%string;
   "translation_cache"%string; "translation_stats"%string;
   "cyrl_to_latn"%string].

Definition own_names (p : ProviderClass) : list string :=
  ["__init__"%string; "translate_text"%string] ++
  match p with
  | OllamaTranslator => ["requests"%string; "base_url"%string]
  | _ => ["client"%string]
  end.

Definition has_attribute (p : ProviderClass) (name : string) : bool :=
  bool_decide (name ∈ own_names p ++ base_class_names).

(** The machine the translator runs on: the files, and the condition of the
    host, which decides whether a file can be opened for writing and how much
    of the data handed to it reaches the file. *)
Record Machine (Host : Type) := mkMachine {
  host : Host;
  files : gmap str str
}.
Arguments mkMachine {Host} _ _.
Arguments host {Host} _.
Arguments files {Host} _.

Record AdvancedLLMFB2Translator (W : Type) := mkAdvanced {
  provider : ProviderClass;
  use_latin : bool;
  translator : LLMTranslator W
}.
Arguments mkAdvanced {W} _ _ _.
Arguments provider {W} _.
Arguments use_latin {W} _.
Arguments translator {W} _.

Section Output.
Context {W Host : Type}.
Variable chat : W -> str -> W * option str.
Variables islower isupper : char -> bool.
Variable upper : char -> str.
(** [ET.parse] on the content of a file; [None] when it raises. *)
Variable parse_xml : str -> option Element.
(** [ET.tostring(root, encoding='unicode')] *)
Variable et_tostring : Element -> str.
(** [minidom.parseString(s).toprettyxml(indent=" ")]; [None] when the
    parser rejects [s], which happens before the output file is opened. *)
Variable minidom_pretty : str -> option str.
(** What [tree.write(..., xml_declaration=True)] sends to the file. *)
Variable et_write_data : Element -> str.
(** [open(path, 'w')] succeeds or raises. *)
Variable open_w : Host -> str -> Host * bool.
(** Writing [data] to an open file and closing it: [None] when all of it
    is written, [Some k] when an error is raised after [k] characters. *)
Variable put : Host -> str -> str -> Host * option nat.

(** Opening a file for writing empties it; then the data are written. *)
Definition write_file (path data : str) (m : Machine Host)
  : result unit * Machine Host :=
  let '(h1, opened) := open_w (host m) path in
  if opened then
    match put h1 path data with
    | (h2, None) => (Return tt, mkMachine h2 (<[path := data]> (files m)))
    | (h2, Some k) =>
      (Raise OSError, mkMachine h2 (<[path := take k data]> (files m)))
    end
  else (Raise OSError, mkMachine h1 (files m)).

(** The [try] block of [write_enhanced_xml].  The root of a parsed tree
    is never [None]. *)
Definition pretty_write (root : Element) (output_path : str)
    (m : Machine Host) : result unit * Machine Host :=
  let xml_string := et_tostring root in
  match minidom_pretty xml_string with
  | Some pretty => write_file output_path pretty m
  | None => (Raise ExpatError, m)
  end.

(** The fallback of the [except] block. *)
Definition standard_write (root : Element) (output_path : str)
    (m : Machine Host) : result unit * Machine Host :=
  write_file output_path (et_write_data root) m.

Definition write_enhanced_xml (latin : bool) (root : Element)
    (output_path : str) (m : Machine Host)
  : result unit * Element * Machine Host :=
  let root1 := if latin then convert_tree_to_latin root else root in
  match pretty_write root1 output_path m with
  | (Return _, m1) => (Return tt, root1, m1)
  | (Raise e, m1) =>
    match standard_write root1 output_path m1 with
    | (Return _, m2) => (Return tt, root1, m2)
    | (Raise e2, m2) => (Raise e2, root1, m2)
    end
  end.

(** [self.translator.print_translation_stats()] *)
Definition print_translation_stats (p : ProviderClass) : result unit :=
  if has_attribute p "print_translation_stats" then Return tt
  else Raise (AttributeError "print_translation_stats").

Definition process_fb2_structure (self : AdvancedLLMFB2Translator W)
    (input_path output_path : str) (m : Machine Host)
  : bool * AdvancedLLMFB2Translator W * Machine Host :=
  match files m !! input_path ≫= parse_xml with
  | None => (false, self, m)
  | Some root =>
    let '(root', t') :=
      @translate_tree _ (llm_translator chat islower isupper upper)
        root (translator self) in
    let self' := mkAdvanced (provider self) (use_latin self) t' in
    match write_enhanced_xml (use_latin self) root' output_path m with
    | (Raise _, _, m') => (false, self', m')
    | (Return _, _, m') =>
      match print_translation_stats (provider self) with
      | Return _ => (true, self', m')
      | Raise _ => (false, self', m')
      end
    end
  end.

End Output.

(** ** Sample providers and documents *)

(** The case tables on the ASCII letters and on the Cyrillic letters
    U+0400 to U+045F. *)
Definition basic_islower (c : char) : bool :=
  ((97 <=? c) && (c <=? 122) || (1072 <=? c) && (c <=? 1119))%N.

Definition basic_isupper (c : char) : bool :=
  ((65 <=? c) && (c <=? 90) || (1024 <=? c) && (c <=? 1071))%N.

Definition basic_upper (c : char) : str :=
  if ((97 <=? c) && (c <=? 122) || (1072 <=? c) && (c <=? 1103))%N
  then [(c - 32)%N]
  else if ((1104 <=? c) && (c <=? 1119))%N then [(c - 80)%N]
  else [c].

(** A service that answers every prompt with the same text. *)
Definition canned (answer : str) (w : unit) (prompt : str)
  : unit * option str := (w, Some answer).

(** A service that raises on every call. *)
Definition down (w : unit) (prompt : str) : unit * option str := (w, None).

(** A service that counts its calls, raises on the first and answers from
    the second on. *)
Definition flaky (answer : str) (w : nat) (prompt : str)
  : nat * option str :=
  (S w, if w is O then None else Some answer).

(** A service that counts its calls and answers each with one more mark. *)
Definition varying (w : nat) (prompt : str) : nat * option str :=
  (S w, Some (u "prevod" ++ replicate w 33%N)).

Definition basic_translator {W : Type} (chat : W -> str -> W * option str)
  : Translator (LLMTranslator W) :=
  llm_translator chat basic_islower basic_isupper basic_upper.

Definition basic_nocache {W : Type} (chat : W -> str -> W * option str)
  : Translator (LLMTranslator W) :=
  nocache_translator chat basic_islower basic_isupper basic_upper.

Definition leaf (tg : string) (tx tl : option str) : Element :=
  mkElement (u tg) [] tx [] tl.

(** [<root><p>Привет мир</p>hello</root>] as the parser builds it: the
    text after [</p>] is the tail of [p]. *)
Definition two_level : Element :=
  mkElement (u "root") [] None
    [leaf "p" (Some (u "Привет мир")) (Some (u "hello"))] None.

(** [<root><p>  hello  </p></root>] *)
Definition padded : Element :=
  mkElement (u "root") [] None [leaf "p" (Some (u "  hello  ")) None] None.

(** [<root><p>Здраво</p></root>] *)
Definition one_slot : Element :=
  mkElement (u "root") [] None [leaf "p" (Some (u "Здраво")) None] None.

(** [<root><p>Здраво</p><p>Здраво</p></root>] *)
Definition twice : Element :=
  mkElement (u "root") [] None
    [leaf "p" (Some (u "Здраво")) None; leaf "p" (Some (u "Здраво")) None]
    None.

(** A FictionBook with [description/title-info/lang] holding [ru]. *)
Definition book : Element :=
  mkElement (fb2 "FictionBook") [] None
    [mkElement (fb2 "description") [] None
       [mkElement (fb2 "title-info") [] None
          [mkElement (fb2 "lang") [] (Some (u "ru")) [] None] None] None;
     mkElement (fb2 "body") [] None
       [mkElement (fb2 "p") [] (Some (u "Привет мир")) [] None] None]
    None.

(** ** Properties of the walk *)

(** C1, as the code has it (counterexample to the claim): on
    [<root><p>Привет мир</p>hello</root>] the walk submits the body of [p]
    with context [p] and the text after it with context [p/tail]; the
    contexts are not [root/p] and [root/tail]. *)
Lemma two_level_contexts :
  @submitted _ (basic_translator (canned (u "Zdravo svete")))
    two_level [] (new_translator tt)
  = [(u "Привет мир", u "p"); (u "hello", u "p/tail")]
  /\ @submitted _ (basic_translator (canned (u "Zdravo svete")))
       two_level [] (new_translator tt)
     <> [(u "Привет мир", u "root/p"); (u "hello", u "root/tail")].
Proof. split; [by vm_compute|]. vm_compute. discriminate. Qed.

(** C1, amended: for a node reached from the root through children with
    tags a, b (non-empty names), the walk holds the body of the node with
    context [a/b] and its tail with context [a/b/tail]: the tags below the
    root joined by [/]; the root's own tag is not part of the context, and
    the body of the root has the empty context.  The units submitted are
    those of the slots in that order. *)
Theorem walker_context_of_node {T : Type} `{Translator T}
    (root n : Element) (p : list nat) (t : T) :
  node_at root p = Some n ->
  Forall (fun tg => tg <> []) (tags_below root p) ->
  exists pre mid post,
    slots_of root []
      = pre ++ (text n, join (u "/") (tags_below root p)) :: mid
        ++ (tail n, join (u "/") (tags_below root p) ++ u "/tail") :: post
    /\ submitted root [] t
      = flat_map unit_of pre
        ++ unit_of (text n, join (u "/") (tags_below root p))
        ++ flat_map unit_of mid
        ++ unit_of (tail n, join (u "/") (tags_below root p) ++ u "/tail")
        ++ flat_map unit_of post.
Proof.
  intros Hn Htags.
  destruct (slots_at p root [] n Hn) as (pre & post & E).
  rewrite path_context_join in E by done.
  destruct n as [tg ats tx cs tl]. cbn [slots_of] in E.
  exists pre, (flat_map (fun x => slots_of x
     (child_context (join (u "/") (tags_below root p)) (tag x))) cs), post.
  assert (E' : slots_of root [] =
    pre ++ (tx, join (u "/") (tags_below root p))
      :: flat_map (fun x => slots_of x
           (child_context (join (u "/") (tags_below root p)) (tag x))) cs
      ++ (tl, join (u "/") (tags_below root p) ++ u "/tail") :: post).
  { rewrite E. unfold tail_context. f_equal.
    rewrite <- app_comm_cons. f_equal. by rewrite <- app_assoc. }
  split; [done|].
  rewrite submitted_units. unfold units. rewrite E'.
  rewrite flat_map_app. cbn [flat_map]. rewrite flat_map_app.
  cbn [flat_map]. cbn [text tail]. done.
Qed.

(** The same on the two-level document, for the node [p]. *)
Lemma walker_context_of_node_witness :
  node_at two_level [0] = Some (leaf "p" (Some (u "Привет мир"))
                                  (Some (u "hello")))
  /\ Forall (fun tg => tg <> []) (tags_below two_level [0])
  /\ exists pre mid post,
    slots_of two_level []
      = pre ++ (Some (u "Привет мир"), join (u "/") [u "p"]) :: mid
        ++ (Some (u "hello"), join (u "/") [u "p"] ++ u "/tail") :: post
    /\ @submitted _ (basic_translator down) two_level [] (new_translator tt)
      = flat_map unit_of pre
        ++ unit_of (Some (u "Привет мир"), join (u "/") [u "p"])
        ++ flat_map unit_of mid
        ++ unit_of (Some (u "hello"), join (u "/") [u "p"] ++ u "/tail")
        ++ flat_map unit_of post.
Proof.
  split; [reflexivity|]. split.
  - repeat constructor. vm_compute. discriminate.
  - apply (@walker_context_of_node _ (basic_translator down) two_level
             (leaf "p" (Some (u "Привет мир")) (Some (u "hello"))) [0]
             (new_translator tt)).
    + reflexivity.
    + repeat constructor. vm_compute. discriminate.
Defined.

(** C2: the metadata update followed by the walk returns a tree with the
    nodes, tags, attributes and child order of the input, whatever the
    translator answers; a tree is determined by these and by the values of
    its text slots, and the number of slots has not changed. *)
Theorem translate_tree_keeps_structure {T : Type} `{Translator T}
    (root : Element) (t : T) :
  shape_of (fst (translate_tree root t)) = shape_of root
  /\ length (texts_of (fst (translate_tree root t)))
     = length (texts_of root).
Proof.
  assert (E : shape_of (fst (translate_tree root t)) = shape_of root).
  { unfold translate_tree.
    pose proof (update_document_metadata_shape root t) as E.
    destruct (update_document_metadata root t) as [root1 t1].
    simpl in E. by rewrite walk_shape. }
  split; [done|]. by apply texts_length_shape.
Qed.

(** C3, as the code has it (counterexample to the claim): in a run on a
    FictionBook whose [lang] holds [ru], a slot of stripped length 2, the
    value stored after the run is [sr], although the service never
    answers. *)
Lemma lang_slot_rewritten :
  qualifies (Some (u "ru")) = false
  /\ (node_at book [0; 0; 0] ≫= text) = Some (u "ru")
  /\ (node_at (fst (@translate_tree _ (basic_translator down) book
                      (new_translator tt))) [0; 0; 0] ≫= text)
     = Some (u "sr").
Proof. by vm_compute. Qed.

(** C3, amended: for the walk, every slot whose stripped length is greater
    than 2 produces exactly one unit and every other slot none, the units
    being submitted in the order of the slots; a slot that does not qualify
    holds after the walk the value it held before, whatever the translator
    answers.  (The metadata update that precedes the walk is apart: it sets
    the body of [lang] and submits the body of [book-title].) *)
Theorem walk_units_and_skips {T : Type} `{Translator T}
    (doc : Element) (c : str) (t : T) :
  submitted doc c t = flat_map unit_of (slots_of doc c)
  /\ Forall (fun sc =>
       length (unit_of sc) = if qualifies (fst sc) then 1 else 0)
       (slots_of doc c)
  /\ Forall2 (fun before after =>
       if qualifies before then True else after = before)
       (texts_of doc)
       (texts_of (fst (process_element_translations doc c t))).
Proof.
  split; [apply submitted_units|]. split.
  - apply Forall_forall. intros [[s|] ctx] _; [|done]. simpl.
    by destruct (2 <? len (strip s)).
  - destruct (walk_slots doc c t) as [-> _].
    rewrite <- (slots_texts doc c).
    generalize (slots_of doc c) t. clear.
    induction l as [|[s ctx] l IH]; intros t; [constructor|].
    cbn [run_slots map fst].
    destruct (qualifies s) eqn:Hq.
    + destruct (translate_slot s ctx t) as [s' t1]. specialize (IH t1).
      destruct (run_slots l t1). constructor; [by rewrite Hq | done].
    + rewrite translate_slot_skip by done. specialize (IH t).
      destruct (run_slots l t). constructor; [by rewrite Hq | done].
Qed.

(** C7, as the code has it (counterexample to the claim): the slot
    holding [  hello  ] is submitted as [hello]; the text of the unit is not
    the raw stored text. *)
Lemma padded_submitted_stripped :
  (node_at padded [0] ≫= text) = Some (u "  hello  ")
  /\ @submitted _ (basic_translator down) padded [] (new_translator tt)
     = [(u "hello", u "p")]
  /\ u "hello" <> u "  hello  ".
Proof. split; [by vm_compute|]. split; [by vm_compute|]. by vm_compute. Qed.

(** C7, amended: for a qualifying slot the one call made for it has the
    whitespace-stripped text of the slot and the slot's context; when the
    result is a non-empty string the slot holds exactly that result after
    the walk, and otherwise its former value. *)
Theorem slot_call_and_store {T : Type} `{Translator T}
    (doc : Element) (c : str) (t : T) (i : nat) (s ctx : str) :
  slots_of doc c !! i = Some (Some s, ctx) ->
  qualifies (Some s) = true ->
  calls (snd (translate_slot (Some s) ctx
                (mkTraced (state_at doc c t i) [])))
    = [mkCall (strip s) ctx
         (fst (translate_text (incr_total (state_at doc c t i))
                 (strip s) ctx))]
  /\ texts_of (fst (process_element_translations doc c t)) !! i
     = Some (if truthy_opt
                  (fst (translate_text (incr_total (state_at doc c t i))
                          (strip s) ctx))
             then fst (translate_text (incr_total (state_at doc c t i))
                         (strip s) ctx)
             else Some s).
Proof.
  intros Hi Hq. split.
  - rewrite translate_slot_traced. cbn [snd calls]. by rewrite Hq.
  - rewrite (walk_slot_at doc c t i _ _ Hi).
    rewrite translate_slot_unit by done.
    by destruct (translate_text _ _ _).
Qed.

(** The same on [<root><p>  hello  </p></root>] with a service that answers
    [ zdravo ]: the call is made on [hello] and the slot then holds [zdravo],
    the answer as [translate_text] returns it. *)
Lemma slot_call_and_store_witness :
  slots_of padded [] !! 1 = Some (Some (u "  hello  "), u "p")
  /\ qualifies (Some (u "  hello  ")) = true
  /\ calls (snd (@translate_slot _
                   (@traced_translator _ (basic_translator (canned (u " zdravo "))))
                   (Some (u "  hello  ")) (u "p")
                   (mkTraced
                      (@state_at _ (basic_translator (canned (u " zdravo ")))
                         padded [] (new_translator tt) 1) [])))
     = [mkCall (u "hello") (u "p") (Some (u "zdravo"))]
  /\ texts_of (fst (@process_element_translations _
                      (basic_translator (canned (u " zdravo ")))
                      padded [] (new_translator tt))) !! 1
     = Some (Some (u "zdravo")).
Proof.
  split; [reflexivity|]. split; [reflexivity|].
  exact (@slot_call_and_store _ (basic_translator (canned (u " zdravo ")))
           padded [] (new_translator tt) 1 (u "  hello  ") (u "p")
           eq_refl eq_refl).
Defined.

(** ** Facts about [strip] *)

Lemma lstrip_head s :
  lstrip s = [] \/ exists a r, lstrip s = a :: r /\ isspace a = false.
Proof.
  induction s as [|a s IH]; [by left|]. simpl.
  destruct (isspace a) eqn:E; [done|]. right. by exists a, s.
Qed.

Lemma lstrip_fixed a r : isspace a = false -> lstrip (a :: r) = a :: r.
Proof. intros E. simpl. by rewrite E. Qed.

Lemma lstrip_idem s : lstrip (lstrip s) = lstrip s.
Proof.
  destruct (lstrip_head s) as [->|(a & r & -> & E)]; [done|].
  by apply lstrip_fixed.
Qed.

Lemma lstrip_keeps_last x a :
  isspace a = false -> exists y, lstrip (x ++ [a]) = y ++ [a].
Proof.
  intros E. induction x as [|b x IH].
  - exists []. simpl. by rewrite E.
  - simpl. destruct (isspace b); [done|]. by exists (b :: x).
Qed.

Lemma strip_idem s : strip (strip s) = strip s.
Proof.
  assert (H1 : lstrip (strip s) = strip s).
  { unfold strip, rstrip.
    destruct (lstrip_head s) as [->|(a & r & -> & E)]; [done|].
    simpl rev. destruct (lstrip_keeps_last (rev r) a E) as [y ->].
    rewrite rev_app_distr. simpl. by rewrite E. }
  unfold strip at 1. rewrite H1. unfold strip, rstrip.
  by rewrite rev_involutive, lstrip_idem.
Qed.

Lemma strip_not_endswith_newline s : endswith (strip s) newline = false.
Proof.
  unfold endswith, newline. apply bool_decide_eq_false.
  unfold strip, rstrip.
  destruct (lstrip_head (rev (lstrip s))) as [->|(a & r & -> & E)]; [done|].
  simpl rev. rewrite length_app. simpl length.
  replace (length (rev r) + 1 - 1) with (length (rev r)) by lia.
  rewrite drop_app_length. intros [= ->]. by vm_compute in E.
Qed.

Lemma qualifies_truthy s :
  qualifies (Some s) = true ->
  truthy (strip s) = true /\ truthy (strip (strip s)) = true.
Proof.
  simpl. intros Hq. apply Nat.ltb_lt in Hq. rewrite strip_idem.
  unfold len in Hq. destruct (strip s); simpl in *; [lia|done].
Qed.

(** ** Facts about the provider *)

(** The answer of the service counts as failed when the call raises or
    when the text returned is empty once stripped. *)
Definition answer_fails (r : option str) : bool :=
  match r with
  | None => true
  | Some content => negb (truthy (strip content))
  end.

Definition stat_sum (s : Stats) : nat := translated s + errors s + cached s.

Section ProviderFacts.
Context {W : Type}.
Variable chat : W -> str -> W * option str.
Variables islower isupper : char -> bool.
Variable upper : char -> str.

Abbreviation llm := (llm_translator chat islower isupper upper).
Abbreviation translate := (llm_translate_text chat islower isupper upper).
Abbreviation enhance := (enhance_translation islower isupper upper).

Lemma enhance_empty original :
  endswith original newline = false -> enhance original [] = [].
Proof.
  intros E. unfold enhance_translation. simpl. rewrite E. simpl.
  done.
Qed.

(** A call on a text that is not blank: one of the three outcomes. *)
Lemma translate_cases (t : LLMTranslator W) text ctx :
  truthy text = true -> truthy (strip text) = true ->
  translate t text ctx =
  match translation_cache t !! (text, ctx) with
  | Some hit =>
    (Some hit,
     mkLLM (world t) (translation_cache t)
       (bump_cached (translation_stats t)))
  | None =>
    match chat (world t) (create_translation_prompt text ctx) with
    | (w', Some content) =>
      (Some (enhance text (strip content)),
       mkLLM w'
         (<[(text, ctx) := enhance text (strip content)]>
            (translation_cache t))
         (bump_translated (translation_stats t)))
    | (w', None) =>
      (None,
       mkLLM w' (translation_cache t) (bump_errors (translation_stats t)))
    end
  end.
Proof.
  intros H1 H2. unfold llm_translate_text. by rewrite H1, H2.
Qed.

Lemma translate_failed (t : LLMTranslator W) s ctx :
  qualifies (Some s) = true ->
  translation_cache t !! (strip s, ctx) = None ->
  answer_fails
    (snd (chat (world t) (create_translation_prompt (strip s) ctx)))
    = true ->
  truthy_opt (fst (translate t (strip s) ctx)) = false.
Proof.
  intros Hq Hc Hf. destruct (qualifies_truthy s Hq) as [H1 H2].
  rewrite translate_cases, Hc by done.
  destruct (chat (world t) _) as [w' [content|]]; [|done].
  simpl in Hf. destruct (strip content) eqn:Es; [|done].
  simpl. by rewrite enhance_empty by apply strip_not_endswith_newline.
Qed.

Lemma translate_cache_mono (t : LLMTranslator W) text ctx :
  translation_cache t ⊆ translation_cache (snd (translate t text ctx)).
Proof.
  unfold llm_translate_text.
  destruct (negb (truthy text) || negb (truthy (strip text))); [done|].
  destruct (translation_cache t !! (text, ctx)) eqn:Hc; [done|].
  destruct (chat (world t) _) as [w' [content|]]; [|done].
  simpl. by apply insert_subseteq.
Qed.

Lemma translate_slot_cache_mono slot ctx (t : LLMTranslator W) :
  translation_cache t
    ⊆ translation_cache (snd (@translate_slot _ llm slot ctx t)).
Proof.
  destruct (qualifies slot) eqn:Hq.
  - destruct slot as [s|]; [|done].
    rewrite (@translate_slot_unit _ llm) by done.
    pose proof (translate_cache_mono (@incr_total _ llm t) (strip s) ctx)
      as Hm.
    change (@translate_text _ llm) with translate.
    destruct (translate _ (strip s) ctx) as [r t2]. done.
  - by rewrite (@translate_slot_skip _ llm) by done.
Qed.

Lemma run_slots_cache_mono l : forall (t : LLMTranslator W),
  translation_cache t ⊆ translation_cache (snd (@run_slots _ llm l t)).
Proof.
  induction l as [|[s c] l IH]; intros t; [done|]. cbn [run_slots].
  pose proof (translate_slot_cache_mono s c t) as H1.
  destruct (@translate_slot _ llm s c t) as [s' t1]. specialize (IH t1).
  destruct (@run_slots _ llm l t1) as [r t2]. simpl in *.
  by etrans.
Qed.

(** Counters over one slot and over a list of slots. *)
Lemma translate_slot_stats slot ctx (t : LLMTranslator W) :
  let t' := snd (@translate_slot _ llm slot ctx t) in
  total (translation_stats t')
    = total (translation_stats t) + length (unit_of (slot, ctx))
  /\ stat_sum (translation_stats t')
    = stat_sum (translation_stats t) + length (unit_of (slot, ctx)).
Proof.
  destruct (qualifies slot) eqn:Hq.
  - destruct slot as [s|]; [|done].
    rewrite (@translate_slot_unit _ llm) by done.
    destruct (qualifies_truthy s Hq) as [H1 H2].
    change (@translate_text _ llm) with translate.
    rewrite translate_cases by done.
    cbn [unit_of]. rewrite Hq. cbn [incr_total llm_translator].
    cbn [translation_cache world translation_stats].
    destruct (translation_cache t !! (strip s, ctx)).
    + simpl. unfold stat_sum. simpl. lia.
    + destruct (chat (world t) _) as [w' [content|]];
        simpl; unfold stat_sum; simpl; lia.
  - rewrite (@translate_slot_skip _ llm) by done.
    assert (unit_of (slot, ctx) = []) as ->.
    { destruct slot as [s|]; [simpl in *; by rewrite Hq | done]. }
    simpl. lia.
Qed.

Lemma run_slots_stats l : forall (t : LLMTranslator W),
  let t' := snd (@run_slots _ llm l t) in
  total (translation_stats t')
    = total (translation_stats t) + length (flat_map unit_of l)
  /\ stat_sum (translation_stats t')
    = stat_sum (translation_stats t) + length (flat_map unit_of l).
Proof.
  induction l as [|[s c] l IH]; intros t; [simpl; lia|].
  cbn [run_slots flat_map]. rewrite length_app.
  destruct (translate_slot_stats s c t) as [H1 H2].
  destruct (@translate_slot _ llm s c t) as [s' t1].
  destruct (IH t1) as [H3 H4].
  destruct (@run_slots _ llm l t1) as [r t2]. simpl in *. lia.
Qed.

Lemma state_at_succ doc c (t : LLMTranslator W) i s ctx :
  slots_of doc c !! i = Some (s, ctx) ->
  @state_at _ llm doc c t (S i)
    = snd (@translate_slot _ llm s ctx (@state_at _ llm doc c t i)).
Proof.
  intros Hi. unfold state_at.
  rewrite (take_S_r _ _ _ Hi), run_slots_app.
  destruct (@run_slots _ llm (take i (slots_of doc c)) t) as [r1 t1].
  cbn [run_slots snd]. by destruct (@translate_slot _ llm s ctx t1).
Qed.

End ProviderFacts.

(** ** Two translators side by side *)

Section Simulation.
Context {T1 T2 : Type}.
Variable I1 : Translator T1.
Variable I2 : Translator T2.
Variable R : T1 -> T2 -> Prop.
Hypothesis R_total : forall a b,
  R a b -> R (@incr_total _ I1 a) (@incr_total _ I2 b).
Hypothesis R_translate : forall a b text ctx,
  R a b ->
  fst (@translate_text _ I1 a text ctx) = fst (@translate_text _ I2 b text ctx)
  /\ R (snd (@translate_text _ I1 a text ctx))
       (snd (@translate_text _ I2 b text ctx)).

Lemma translate_slot_sim slot ctx a b :
  R a b ->
  fst (@translate_slot _ I1 slot ctx a) = fst (@translate_slot _ I2 slot ctx b)
  /\ R (snd (@translate_slot _ I1 slot ctx a))
       (snd (@translate_slot _ I2 slot ctx b)).
Proof.
  intros HR. destruct (qualifies slot) eqn:Hq.
  - destruct slot as [s|]; [|done].
    rewrite !translate_slot_unit by done.
    destruct (R_translate _ _ (strip s) ctx (R_total _ _ HR)) as [E1 E2].
    destruct (@translate_text _ I1 _ _ _) as [r1 a'].
    destruct (@translate_text _ I2 _ _ _) as [r2 b'].
    simpl in *. by subst.
  - by rewrite !translate_slot_skip by done.
Qed.

Lemma run_slots_sim l : forall a b,
  R a b ->
  fst (@run_slots _ I1 l a) = fst (@run_slots _ I2 l b)
  /\ R (snd (@run_slots _ I1 l a)) (snd (@run_slots _ I2 l b)).
Proof.
  induction l as [|[s c] l IH]; intros a b HR; [done|].
  cbn [run_slots].
  destruct (translate_slot_sim s c a b HR) as [E1 E2].
  destruct (@translate_slot _ I1 s c a) as [s1 a1].
  destruct (@translate_slot _ I2 s c b) as [s2 b1]. simpl in E1, E2.
  destruct (IH a1 b1 E2) as [E3 E4].
  destruct (@run_slots _ I1 l a1) as [r1 a2].
  destruct (@run_slots _ I2 l b1) as [r2 b2]. simpl in *.
  by subst.
Qed.

Lemma walk_sim e c a b :
  R a b ->
  fst (@process_element_translations _ I1 e c a)
    = fst (@process_element_translations _ I2 e c b)
  /\ R (snd (@process_element_translations _ I1 e c a))
       (snd (@process_element_translations _ I2 e c b)).
Proof.
  intros HR.
  destruct (@walk_slots _ I1 e c a) as [E1 E2].
  destruct (@walk_slots _ I2 e c b) as [E3 E4].
  destruct (run_slots_sim (slots_of e c) a b HR) as [E5 E6].
  rewrite E2, E4. split; [|done].
  apply shape_texts_inj.
  - by rewrite !walk_shape.
  - by rewrite E1, E3.
Qed.

End Simulation.

Lemma truthy_strip text : truthy (strip text) = true -> truthy text = true.
Proof. by destruct text. Qed.

(** ** Properties of the provider *)

Section ProviderClaims.
Context {W : Type}.
Variable chat : W -> str -> W * option str.
Variables islower isupper : char -> bool.
Variable upper : char -> str.

Abbreviation llm := (llm_translator chat islower isupper upper).
Abbreviation nocache := (nocache_translator chat islower isupper upper).
Abbreviation translate := (llm_translate_text chat islower isupper upper).
Abbreviation enhance := (enhance_translation islower isupper upper).

(** C4: a qualifying slot whose translation attempt fails holds after the
    walk the value it held before.  The attempt fails when
    [translate_text] returns [None] or the empty string; this is what
    happens when the service is called (the pair is not in the cache) and
    the call raises or returns a text that is empty once stripped. *)
Theorem failed_attempt_keeps_slot
    (doc : Element) (c : str) (t : LLMTranslator W)
    (i : nat) (s ctx : str) :
  slots_of doc c !! i = Some (Some s, ctx) ->
  qualifies (Some s) = true ->
  truthy_opt
    (fst (translate (@incr_total _ llm (@state_at _ llm doc c t i))
            (strip s) ctx)) = false
  \/ (translation_cache (@state_at _ llm doc c t i) !! (strip s, ctx)
        = None
      /\ answer_fails
           (snd (chat (world (@state_at _ llm doc c t i))
                   (create_translation_prompt (strip s) ctx))) = true) ->
  texts_of (fst (@process_element_translations _ llm doc c t)) !! i
    = Some (Some s).
Proof.
  intros Hi Hq Hfail.
  assert (E : truthy_opt
    (fst (translate (@incr_total _ llm (@state_at _ llm doc c t i))
            (strip s) ctx)) = false).
  { destruct Hfail as [E|[Hc Hf]]; [done|].
    by apply translate_failed. }
  rewrite (@walk_slot_at _ llm doc c t i _ _ Hi).
  rewrite (@translate_slot_unit _ llm) by done.
  change (@translate_text _ llm) with translate.
  destruct (translate _ (strip s) ctx) as [r t2]. simpl in E.
  by rewrite E.
Qed.

(** C8, amended: every unit the walk submits is counted once in [total]
    and once in exactly one of the three other counters, by what happens to
    the call: [cached] when the pair is in the cache, [errors] when the
    service is called and raises, [translated] when the service is called
    and answers, whatever the answer (an empty answer is counted under
    [translated], not as a failure).  So a call that raises adds one to
    [errors] and leaves [translated] and [cached] alone.  A slot that does
    not qualify changes no counter, and over a whole walk [total] grows by
    the number of units submitted, and so does the sum of [translated],
    [errors] and [cached]. *)
Theorem raised_call_counts_one_error
    (doc : Element) (c : str) (t : LLMTranslator W)
    (i : nat) (s ctx : str) :
  slots_of doc c !! i = Some (Some s, ctx) ->
  qualifies (Some s) = true ->
  translation_stats (@state_at _ llm doc c t (S i))
    = (let st := translation_stats (@state_at _ llm doc c t i) in
       match translation_cache (@state_at _ llm doc c t i) !! (strip s, ctx)
       with
       | Some _ =>
         mkStats (total st + 1) (translated st) (errors st) (cached st + 1)
       | None =>
         match snd (chat (world (@state_at _ llm doc c t i))
                      (create_translation_prompt (strip s) ctx)) with
         | Some _ =>
           mkStats (total st + 1) (translated st + 1) (errors st) (cached st)
         | None =>
           mkStats (total st + 1) (translated st) (errors st + 1) (cached st)
         end
       end)
  /\ (forall j slot k,
        slots_of doc c !! j = Some (slot, k) -> qualifies slot = false ->
        translation_stats (@state_at _ llm doc c t (S j))
          = translation_stats (@state_at _ llm doc c t j))
  /\ total (translation_stats
              (snd (@process_element_translations _ llm doc c t)))
     = total (translation_stats t) + length (@submitted _ llm doc c t)
  /\ stat_sum (translation_stats
                 (snd (@process_element_translations _ llm doc c t)))
     = stat_sum (translation_stats t) + length (@submitted _ llm doc c t).
Proof.
  intros Hi Hq. split; [|split].
  - rewrite (state_at_succ chat islower isupper upper doc c t i _ _ Hi).
    rewrite (@translate_slot_unit _ llm) by done.
    destruct (qualifies_truthy s Hq) as [H1 H2].
    change (@translate_text _ llm) with translate.
    rewrite translate_cases by done.
    cbn [incr_total llm_translator translation_cache world
         translation_stats].
    destruct (translation_cache _ !! (strip s, ctx)) as [hit|]; [done|].
    by destruct (chat (world _) _) as [w' [content|]].
  - intros j slot k Hj Hn.
    rewrite (state_at_succ chat islower isupper upper doc c t j _ _ Hj).
    by rewrite (@translate_slot_skip _ llm) by done.
  - rewrite submitted_units. unfold units.
    destruct (@walk_slots _ llm doc c t) as [_ ->].
    apply run_slots_stats.
Qed.

End ProviderClaims.

(** The same on [<root><p>Здраво</p></root>] with a service that raises. *)
Lemma failed_attempt_keeps_slot_witness :
  slots_of one_slot [] !! 1 = Some (Some (u "Здраво"), u "p")
  /\ qualifies (Some (u "Здраво")) = true
  /\ translation_cache
       (@state_at _ (basic_translator down) one_slot []
          (new_translator tt) 1)
       !! (strip (u "Здраво"), u "p") = None
  /\ answer_fails
       (snd (down
          (world (@state_at _ (basic_translator down) one_slot []
                    (new_translator tt) 1))
          (create_translation_prompt (strip (u "Здраво")) (u "p")))) = true
  /\ texts_of (fst (@process_element_translations _ (basic_translator down)
                      one_slot [] (new_translator tt))) !! 1
     = Some (Some (u "Здраво")).
Proof.
  split; [reflexivity|]. split; [reflexivity|].
  split; [vm_compute; reflexivity|]. split; [reflexivity|].
  apply (failed_attempt_keeps_slot down basic_islower basic_isupper
           basic_upper one_slot [] (new_translator tt) 1 (u "Здраво") (u "p")).
  - reflexivity.
  - reflexivity.
  - right. split; [vm_compute; reflexivity | reflexivity].
Defined.

(** C8, as the code has it (counterexample to the claim): the service
    answers the unit [Здраво] with the empty string; the attempt fails (the
    slot keeps its text) and the failure counter does not move: the call is
    counted under [translated]. *)
Lemma empty_answer_not_an_error :
  @submitted _ (basic_translator (canned [])) one_slot [] (new_translator tt)
    = [(u "Здраво", u "p")]
  /\ texts_of (fst (@process_element_translations _
                      (basic_translator (canned []))
                      one_slot [] (new_translator tt))) !! 1
     = Some (Some (u "Здраво"))
  /\ translation_stats
       (snd (@process_element_translations _ (basic_translator (canned []))
               one_slot [] (new_translator tt)))
     = mkStats 1 1 0 0.
Proof.
  split; [by vm_compute|]. split; [by vm_compute|]. by vm_compute.
Qed.

(** The same on [<root><p>Здраво</p></root>] with a service that raises:
    after the slot the counters are total 1, translated 0, errors 1,
    cached 0; with a service that answers with the empty string they are
    total 1, translated 1, errors 0, cached 0; and on
    [<root><p>Здраво</p><p>Здраво</p></root>] with a service that answers,
    the second occurrence is counted under [cached]. *)
Lemma raised_call_counts_one_error_witness :
  slots_of one_slot [] !! 1 = Some (Some (u "Здраво"), u "p")
  /\ slots_of twice [] !! 3 = Some (Some (u "Здраво"), u "p")
  /\ qualifies (Some (u "Здраво")) = true
  /\ translation_stats
       (@state_at _ (basic_translator down) one_slot []
          (new_translator tt) 2)
     = mkStats 1 0 1 0
  /\ translation_stats
       (@state_at _ (basic_translator (canned [])) one_slot []
          (new_translator tt) 2)
     = mkStats 1 1 0 0
  /\ translation_stats
       (@state_at _ (basic_translator (canned (u "Zdravo"))) twice []
          (new_translator tt) 4)
     = mkStats 2 1 0 1.
Proof.
  split; [reflexivity|]. split; [reflexivity|]. split; [reflexivity|].
  pose proof (raised_call_counts_one_error down basic_islower basic_isupper
           basic_upper one_slot [] (new_translator tt) 1 (u "Здраво") (u "p")
           eq_refl eq_refl) as [E1 _].
  pose proof (raised_call_counts_one_error (canned []) basic_islower
           basic_isupper basic_upper one_slot [] (new_translator tt) 1
           (u "Здраво") (u "p") eq_refl eq_refl) as [E2 _].
  pose proof (raised_call_counts_one_error (canned (u "Zdravo"))
           basic_islower basic_isupper basic_upper twice []
           (new_translator tt) 3 (u "Здраво") (u "p") eq_refl eq_refl)
    as [E3 _].
  split; [etrans; [exact E1 | by vm_compute]|].
  split; [etrans; [exact E2 | by vm_compute]|].
  etrans; [exact E3 | by vm_compute].
Defined.

(** C9, as the code has it (counterexample to the claim): the pair
    ([Здраво], [p]) is submitted twice.  With a service that raises on its
    first call and answers afterwards, the second call does not return what
    the first returned and the service is called twice; with a service whose
    answers vary, the document made with the cache differs from the one made
    without it. *)
Lemma repeated_pair_counterexample :
  @submitted _ (basic_translator (flaky (u "Zdravo"))) twice []
     (new_translator 0)
    = [(u "Здраво", u "p"); (u "Здраво", u "p")]
  /\ texts_of (fst (@process_element_translations _
                      (basic_translator (flaky (u "Zdravo")))
                      twice [] (new_translator 0)))
     = [None; Some (u "Здраво"); None; Some (u "Zdravo"); None; None]
  /\ world (snd (@process_element_translations _
                   (basic_translator (flaky (u "Zdravo")))
                   twice [] (new_translator 0))) = 2
  /\ fst (@process_element_translations _ (basic_translator varying)
            twice [] (new_translator 0))
     <> fst (@process_element_translations _ (basic_nocache varying)
               twice [] (new_translator 0)).
Proof.
  split; [by vm_compute|]. split; [by vm_compute|]. split; [by vm_compute|].
  vm_compute. discriminate.
Qed.

(** ** Properties of the output stage *)

Section OutputClaims.
Context {W Host : Type}.
Variable chat : W -> str -> W * option str.
Variables islower isupper : char -> bool.
Variable upper : char -> str.
Variable parse_xml : str -> option Element.
Variable et_tostring : Element -> str.
Variable minidom_pretty : str -> option str.
Variable et_write_data : Element -> str.
Variable open_w : Host -> str -> Host * bool.
Variable put : Host -> str -> str -> Host * option nat.

Abbreviation write_file' := (write_file open_w put).
Abbreviation pretty_write' :=
  (pretty_write et_tostring minidom_pretty open_w put).
Abbreviation standard_write' := (standard_write et_write_data open_w put).
Abbreviation write_enhanced_xml' :=
  (write_enhanced_xml et_tostring minidom_pretty et_write_data open_w put).
Abbreviation process_fb2_structure' :=
  (process_fb2_structure chat islower isupper upper parse_xml et_tostring
     minidom_pretty et_write_data open_w put).

(** A write that returns has put all the data in the file. *)
Lemma write_file_returns path data (m m' : Machine Host) :
  write_file' path data m = (Return tt, m') ->
  files m' !! path = Some data.
Proof.
  unfold write_file. destruct (open_w (host m) path) as [h1 [|]]; [|done].
  destruct (put h1 path data) as [h2 [k|]]; [done|].
  intros [= <-]. simpl. by rewrite lookup_insert_eq.
Qed.

Lemma no_print_translation_stats p :
  print_translation_stats p = Raise (AttributeError "print_translation_stats").
Proof. by destruct p. Qed.

(** When [write_enhanced_xml] returns, the output file is whole. *)
Lemma write_enhanced_xml_returns latin root output_path
    (m m' : Machine Host) written :
  write_enhanced_xml' latin root output_path m = (Return tt, written, m') ->
  (exists pretty,
     minidom_pretty (et_tostring written) = Some pretty
     /\ files m' !! output_path = Some pretty)
  \/ files m' !! output_path = Some (et_write_data written).
Proof.
  unfold write_enhanced_xml.
  set (root1 := if latin then convert_tree_to_latin root else root).
  destruct (pretty_write' root1 output_path m) as [[[]|e1] m1] eqn:Ep.
  - intros [= <- <-]. left. unfold pretty_write in Ep.
    destruct (minidom_pretty (et_tostring root1)) as [pretty|]; [|done].
    exists pretty. split; [done|]. by eapply write_file_returns.
  - destruct (standard_write' root1 output_path m1) as [[[]|e2] m2] eqn:Es;
      [|done].
    intros [= <- <-]. right. by eapply write_file_returns.
Qed.

(** C10, amended: the call returns when the pretty-printed write succeeds,
    or when it fails and the fallback write of the same tree succeeds; in
    both cases the output file holds the whole serialization.  The call
    raises only when the pretty-printed write failed and the fallback,
    started from what that attempt left, failed too, and the error raised
    is the fallback's.  (Nothing is cleaned up after a failure: the output
    file can be left cut short.) *)
Theorem write_enhanced_xml_outcomes
    (latin : bool) (root : Element) (output_path : str)
    (m : Machine Host) :
  match write_enhanced_xml' latin root output_path m with
  | (Return _, written, m') =>
    written = (if latin then convert_tree_to_latin root else root)
    /\ ((pretty_write' written output_path m = (Return tt, m')
         /\ exists pretty,
             minidom_pretty (et_tostring written) = Some pretty
             /\ files m' !! output_path = Some pretty)
        \/ (exists e1 m1,
             pretty_write' written output_path m = (Raise e1, m1)
             /\ standard_write' written output_path m1 = (Return tt, m')
             /\ files m' !! output_path = Some (et_write_data written)))
  | (Raise e, written, m') =>
    written = (if latin then convert_tree_to_latin root else root)
    /\ exists e1 m1,
        pretty_write' written output_path m = (Raise e1, m1)
        /\ standard_write' written output_path m1 = (Raise e, m')
  end.
Proof.
  unfold write_enhanced_xml.
  set (root1 := if latin then convert_tree_to_latin root else root).
  destruct (pretty_write' root1 output_path m) as [[[]|e1] m1] eqn:Ep.
  - split; [done|]. left. split; [done|].
    unfold pretty_write in Ep.
    destruct (minidom_pretty (et_tostring root1)) as [pretty|]; [|done].
    exists pretty. split; [done|]. by eapply write_file_returns.
  - destruct (standard_write' root1 output_path m1) as [[[]|e2] m2] eqn:Es.
    + split; [done|]. right. exists e1, m1. repeat split; try done.
      by eapply write_file_returns.
    + split; [done|]. by exists e1, m1.
Qed.

(** C6: [process_fb2_structure] returns [False] on every run.  In
    particular, on a run where the input is parsed and
    [write_enhanced_xml] returns, the result is [False] although the
    output file holds the whole serialization of the translated tree: the
    call of [print_translation_stats] that follows raises, since no
    translator class has this method. *)
Theorem process_fb2_structure_never_true
    (self : AdvancedLLMFB2Translator W) (input_path output_path : str)
    (m m' : Machine Host) (root written : Element) :
  files m !! input_path ≫= parse_xml = Some root ->
  write_enhanced_xml' (use_latin self)
    (fst (@translate_tree _ (llm_translator chat islower isupper upper)
            root (translator self)))
    output_path m = (Return tt, written, m') ->
  (forall self0 input0 output0 m0,
     fst (fst (process_fb2_structure' self0 input0 output0 m0)) = false)
  /\ fst (fst (process_fb2_structure' self input_path output_path m))
     = false
  /\ snd (process_fb2_structure' self input_path output_path m) = m'
  /\ ((exists pretty,
         minidom_pretty (et_tostring written) = Some pretty
         /\ files m' !! output_path = Some pretty)
      \/ files m' !! output_path = Some (et_write_data written)).
Proof.
  intros Hparse Hwrite.
  assert (Hall : forall self0 input0 output0 m0,
     fst (fst (process_fb2_structure' self0 input0 output0 m0)) = false).
  { intros self0 input0 output0 m0. unfold process_fb2_structure.
    destruct (files m0 !! input0 ≫= parse_xml) as [r|]; [|done].
    destruct (translate_tree r (translator self0)) as [r' t'].
    destruct (write_enhanced_xml' _ r' output0 m0) as [[[[]|e] w] m1];
      [|done].
    by rewrite no_print_translation_stats. }
  split; [done|]. split; [done|].
  pose proof (write_enhanced_xml_returns _ _ _ _ _ _ Hwrite) as Hout.
  unfold process_fb2_structure. rewrite Hparse.
  destruct (translate_tree root (translator self)) as [r' t'].
  simpl fst in *. rewrite Hwrite.
  by rewrite no_print_translation_stats.
Qed.

End OutputClaims.

(** ** A sample machine *)

(** A serializer that writes tags, attributes, text and tail with no
    escaping, the same text with an XML declaration in front, and a parser
    that knows the documents of a list by their serialization. *)
Fixpoint plain_xml (e : Element) : str :=
  match e with
  | mkElement tg ats tx cs tl =>
    u "<" ++ tg
      ++ flat_map (fun kv => u " " ++ fst kv ++ u "=" ++ [34%N] ++ snd kv
                               ++ [34%N]) ats
      ++ u ">" ++ default [] tx ++ flat_map plain_xml cs
      ++ u "</" ++ tg ++ u ">" ++ default [] tl
  end.

Definition with_declaration (e : Element) : str :=
  u "<?xml version='1.0' encoding='utf-8'?>" ++ newline ++ plain_xml e.

Definition parse_known (known : list Element) (content : str)
  : option Element :=
  find (fun d => bool_decide (plain_xml d = content)) known.

(** A pretty-printer that accepts every text and leaves it as it is. *)
Definition accept (s : str) : option str := Some s.

(** A host on which every file can be opened. *)
Definition opens (h : unit) (path : str) : unit * bool := (h, true).

(** A host on which every write is complete. *)
Definition writes_all (h : unit) (path data : str) : unit * option nat :=
  (h, None).

(** A host on which every write stops with an error after [k]
    characters. *)
Definition disk_full (k : nat) (h : unit) (path data : str)
  : unit * option nat := (h, Some k).

Example plain_two_level :
  plain_xml two_level = u "<root><p>Привет мир</p>hello</root>".
Proof. by vm_compute. Qed.

(** C10, as the code has it (counterexample to the claim): the output file
    can be opened but every write stops after five characters.  The
    pretty-printed write fails, the fallback fails, the error is raised and
    the output file, which did not exist, is left holding the first five
    characters: neither a complete document nor no file. *)
Lemma failed_write_leaves_partial_file :
  files (mkMachine tt ∅) !! u "out.fb2" = None
  /\ fst (fst (write_enhanced_xml plain_xml accept with_declaration
                 opens (disk_full 5) false two_level (u "out.fb2")
                 (mkMachine tt ∅)))
     = Raise OSError
  /\ files (snd (write_enhanced_xml plain_xml accept with_declaration
                   opens (disk_full 5) false two_level (u "out.fb2")
                   (mkMachine tt ∅))) !! u "out.fb2"
     = Some (u "<?xml")
  /\ u "<?xml" <> with_declaration two_level
  /\ Some (u "<?xml") <> accept (plain_xml two_level).
Proof.
  split; [by vm_compute|]. split; [by vm_compute|]. split; [by vm_compute|].
  split; vm_compute; discriminate.
Qed.

Definition sample_self : AdvancedLLMFB2Translator unit :=
  mkAdvanced OpenAITranslator false (new_translator tt).

Definition sample_machine : Machine unit :=
  mkMachine tt {[ u "in.fb2" := plain_xml two_level ]}.

Definition sample_run : bool * AdvancedLLMFB2Translator unit * Machine unit :=
  process_fb2_structure (canned (u "Zdravo svete")) basic_islower
    basic_isupper basic_upper (parse_known [two_level]) plain_xml accept
    with_declaration opens writes_all sample_self (u "in.fb2") (u "out.fb2")
    sample_machine.

(** The same on a machine where nothing fails: the run reports failure and
    the output file holds the translated document. *)
Lemma process_fb2_structure_never_true_witness :
  files sample_machine !! u "in.fb2" ≫= parse_known [two_level]
    = Some two_level
  /\ fst (fst sample_run) = false
  /\ files (snd sample_run) !! u "out.fb2"
     = Some (u "<root><p>Zdravo svete</p>Zdravo svete</root>").
Proof.
  split; [by vm_compute|].
  destruct (process_fb2_structure_never_true (canned (u "Zdravo svete"))
    basic_islower basic_isupper basic_upper (parse_known [two_level])
    plain_xml accept with_declaration opens writes_all sample_self
    (u "in.fb2") (u "out.fb2") sample_machine (snd sample_run) two_level
    (fst (@translate_tree _ (basic_translator (canned (u "Zdravo svete")))
            two_level (new_translator tt))))
    as (_ & E & _ & _).
  - by vm_compute.
  - by vm_compute.
  - split; [exact E|]. by vm_compute.
Defined.

(** * Further properties *)

(** ** Conversion to Latin script *)

(** The letters the table converts. *)
Definition is_key (c : char) : bool :=
  existsb (fun kv => bool_decide (u (fst kv) = [c])) cyrl_to_latn.

Lemma latin_of_not_key c : is_key c = false -> latin_of c = [c].
Proof.
  unfold is_key, latin_of. intros Hk.
  destruct (find _ cyrl_to_latn) as [kv|] eqn:Ef; [|done].
  apply find_some in Ef as [Hin Hm].
  assert (existsb (fun kv => bool_decide (u (fst kv) = [c])) cyrl_to_latn
          = true) as Ht.
  { apply existsb_exists. by exists kv. }
  congruence.
Qed.

Lemma latin_of_key c :
  is_key c = true -> exists kv, In kv cyrl_to_latn /\ latin_of c = u (snd kv).
Proof.
  unfold is_key, latin_of. intros Hk.
  destruct (find _ cyrl_to_latn) as [kv|] eqn:Ef.
  - apply find_some in Ef as [Hin _]. by exists kv.
  - apply existsb_exists in Hk as (kv & Hin & Hm).
    by rewrite (find_none _ _ Ef kv Hin) in Hm.
Qed.

(** Facts read off the table entry by entry. *)
Lemma table_values_settled :
  forallb (fun kv =>
    forallb (fun d => negb (is_key d) || bool_decide (d = 1096%N))
      (u (snd kv))) cyrl_to_latn = true.
Proof. by vm_compute. Qed.

Lemma table_values_short :
  forallb (fun kv =>
    bool_decide (1 <= length (u (snd kv)) <= 2)) cyrl_to_latn = true.
Proof. by vm_compute. Qed.

Lemma table_keys_cyrillic :
  forallb (fun kv =>
    match u (fst kv) with
    | [k] => (1026 <=? k)%N && (k <=? 1119)%N
    | _ => false
    end) cyrl_to_latn = true.
Proof. by vm_compute. Qed.

Lemma sha_fixed : latin_of 1096%N = [1096%N].
Proof. by vm_compute. Qed.

Lemma latin_of_settled c :
  Forall (fun d => latin_of d = [d]) (latin_of c).
Proof.
  destruct (is_key c) eqn:Hk.
  - destruct (latin_of_key c Hk) as (kv & Hin & ->).
    pose proof table_values_settled as Ht.
    rewrite forallb_forall in Ht. specialize (Ht kv Hin).
    rewrite forallb_forall in Ht. apply Forall_forall. intros d Hd.
    apply list_elem_of_In in Hd. specialize (Ht d Hd).
    apply orb_true_iff in Ht as [Hn|He].
    + apply latin_of_not_key. by apply negb_true_iff.
    + apply bool_decide_eq_true in He. subst d. apply sha_fixed.
  - rewrite latin_of_not_key by done. constructor; [|constructor].
    by apply latin_of_not_key.
Qed.

Lemma convert_fixed s :
  Forall (fun d => latin_of d = [d]) s -> convert_to_latin s = s.
Proof.
  induction 1 as [|d s Hd _ IH]; [done|].
  unfold convert_to_latin in *. simpl. by rewrite Hd, IH.
Qed.

Lemma convert_settled s :
  Forall (fun d => latin_of d = [d]) (convert_to_latin s).
Proof.
  induction s as [|c s IH]; [constructor|].
  unfold convert_to_latin in *. simpl. apply Forall_app. split; [|done].
  apply latin_of_settled.
Qed.

(** X1: converting to Latin script twice gives what converting once gives:
    every character of a converted text is one the table leaves alone (a
    character that is no key, or the small sha, which the table maps to
    itself). *)
Theorem convert_to_latin_idempotent (s : str) :
  convert_to_latin (convert_to_latin s) = convert_to_latin s
  /\ Forall (fun d => is_key d = false \/ d = 1096%N) (convert_to_latin s).
Proof.
  split; [apply convert_fixed, convert_settled|].
  induction s as [|c s IH]; [constructor|].
  unfold convert_to_latin in *. simpl. apply Forall_app. split; [|done].
  destruct (is_key c) eqn:Hk.
  - destruct (latin_of_key c Hk) as (kv & Hin & ->).
    pose proof table_values_settled as Ht.
    rewrite forallb_forall in Ht. specialize (Ht kv Hin).
    rewrite forallb_forall in Ht. apply Forall_forall. intros d Hd.
    apply list_elem_of_In in Hd. specialize (Ht d Hd).
    apply orb_true_iff in Ht as [Hn|He].
    + left. by apply negb_true_iff.
    + right. by apply bool_decide_eq_true in He.
  - rewrite latin_of_not_key by done. constructor; [by left|constructor].
Qed.

(** X2: a converted text is at least as long as the text and at most twice
    as long: every character becomes one or two characters. *)
Theorem convert_to_latin_length (s : str) :
  len s <= len (convert_to_latin s) <= 2 * len s.
Proof.
  unfold len. induction s as [|c s IH]; [simpl; lia|].
  unfold convert_to_latin in *. simpl. rewrite length_app.
  assert (1 <= length (latin_of c) <= 2); [|lia].
  destruct (is_key c) eqn:Hk.
  - destruct (latin_of_key c Hk) as (kv & Hin & ->).
    pose proof table_values_short as Ht.
    rewrite forallb_forall in Ht. specialize (Ht kv Hin).
    by apply bool_decide_eq_true in Ht.
  - rewrite latin_of_not_key by done. simpl. lia.
Qed.

(** X3: a text with no character between U+0402 and U+045F (so every ASCII
    text) is returned as it is. *)
Theorem convert_to_latin_outside_table (s : str) :
  Forall (fun c => (c < 1026)%N \/ (1119 < c)%N) s ->
  convert_to_latin s = s.
Proof.
  intros Hs. apply convert_fixed. eapply Forall_impl; [exact Hs|].
  intros c Hc. apply latin_of_not_key.
  destruct (is_key c) eqn:Hk; [|done]. exfalso.
  unfold is_key in Hk. apply existsb_exists in Hk as (kv & Hin & Hm).
  apply bool_decide_eq_true in Hm.
  pose proof table_keys_cyrillic as Ht.
  rewrite forallb_forall in Ht. specialize (Ht kv Hin). rewrite Hm in Ht.
  apply andb_true_iff in Ht as [H1 H2].
  apply N.leb_le in H1, H2. simpl in Hc. lia.
Qed.

Lemma convert_to_latin_outside_table_witness :
  Forall (fun c => (c < 1026)%N \/ (1119 < c)%N) (u "<p>Zdravo, svete!</p>")
  /\ convert_to_latin (u "<p>Zdravo, svete!</p>") = u "<p>Zdravo, svete!</p>".
Proof.
  assert (H : Forall (fun c => (c < 1026)%N \/ (1119 < c)%N)
                (u "<p>Zdravo, svete!</p>")).
  { vm_compute. repeat constructor; left; reflexivity. }
  split; [exact H|].
  exact (convert_to_latin_outside_table (u "<p>Zdravo, svete!</p>") H).
Defined.

(** X4: converting a tree keeps its tags, attributes and children and
    converts every text slot that holds a string; empty slots stay empty. *)
Theorem convert_tree_to_latin_slots (e : Element) :
  shape_of (convert_tree_to_latin e) = shape_of e
  /\ texts_of (convert_tree_to_latin e)
     = map (fmap convert_to_latin) (texts_of e).
Proof.
  induction e as [tg ats tx cs tl IH] using Element_nested_ind.
  simpl. split.
  - f_equal. induction IH as [|x cs [Hx _] _ IHl]; [done|].
    simpl. by rewrite Hx, IHl.
  - f_equal. rewrite map_app. simpl. f_equal.
    induction IH as [|x cs [_ Hx] _ IHl]; [done|].
    simpl. by rewrite map_app, Hx, IHl.
Qed.

(** ** Post-processing of a translation *)

Lemma endswith_newline_last s :
  endswith s newline = bool_decide (last s = Some 10%N).
Proof.
  unfold endswith, newline. induction s as [|a s _] using rev_ind.
  - by vm_compute.
  - rewrite length_app, last_snoc. simpl length.
    replace (length s + 1 - 1) with (length s) by lia.
    rewrite drop_app_length. apply bool_decide_ext.
    split; intros [= ->]; done.
Qed.

Section Enhance.
Variables islower isupper : char -> bool.
Variable upper : char -> str.

Abbreviation enhance' := (enhance_translation islower isupper upper).

(** X5: post-processing leaves the translation as it is from its second
    character on (quotation marks and apostrophes included): it can only
    put the upper-case form of the first character in its place and add one
    line break at the end. *)
Theorem enhance_translation_keeps_rest (original : str) (e0 : char)
    (rest : str) :
  exists first final,
    enhance' original (e0 :: rest) = first ++ rest ++ final
    /\ (first = [e0] \/ first = upper e0)
    /\ (final = [] \/ final = newline).
Proof.
  unfold enhance_translation. rewrite !replace_char_same.
  destruct (endswith original newline && negb (endswith (e0 :: rest) newline)).
  - simpl. destruct original as [|o0 original'].
    + exists [e0], newline. simpl. auto.
    + destruct (islower e0 && isupper o0).
      * exists (upper e0), newline. auto.
      * exists [e0], newline. simpl. auto.
  - destruct original as [|o0 original'].
    + exists [e0], []. rewrite app_nil_r. simpl. auto.
    + destruct (islower e0 && isupper o0).
      * exists (upper e0), []. rewrite app_nil_r. auto.
      * exists [e0], []. rewrite app_nil_r. simpl. auto.
Qed.

(** X6: when the original ends with a line break, so does the
    post-processed translation, whatever the translation is (the line break
    is no lower-case letter). *)
Theorem enhance_translation_keeps_line_break (original translated : str) :
  islower 10%N = false ->
  endswith original newline = true ->
  endswith (enhance' original translated) newline = true.
Proof.
  intros Hnl Ho. unfold enhance_translation. rewrite !replace_char_same.
  rewrite Ho. cbn [andb].
  set (e1 := if negb (endswith translated newline)
             then translated ++ newline else translated).
  assert (H1 : last e1 = Some 10%N).
  { unfold e1. destruct (endswith translated newline) eqn:Et; simpl.
    - rewrite endswith_newline_last in Et.
      by apply bool_decide_eq_true in Et.
    - unfold newline. by rewrite last_snoc. }
  rewrite endswith_newline_last in Ho. apply bool_decide_eq_true in Ho.
  destruct e1 as [|e0 erest]; [done|].
  destruct original as [|o0 original']; [done|].
  destruct (islower e0 && isupper o0) eqn:Ec;
    rewrite endswith_newline_last; apply bool_decide_eq_true; [|done].
  destruct erest as [|e1 erest].
  - simpl in H1. injection H1 as ->. by rewrite Hnl in Ec.
  - rewrite last_app. rewrite last_cons_cons in H1. by rewrite H1.
Qed.

End Enhance.

Lemma enhance_translation_keeps_line_break_witness :
  basic_islower 10%N = false
  /\ endswith (u "Глава первая
") newline = true
  /\ endswith (enhance_translation basic_islower basic_isupper basic_upper
                 (u "Глава первая
") (u "глава прва")) newline = true.
Proof.
  split; [reflexivity|]. split; [reflexivity|].
  apply (enhance_translation_keeps_line_break basic_islower basic_isupper
           basic_upper); reflexivity.
Defined.

(** ** Runs as sequences of translator steps *)

(** Every change the walk and the metadata update make to the translator
    is made by [incr_total] or by [translate_text]: a relation that these
    two respect, and that is reflexive and transitive, holds between the
    translator before and after. *)
Section Steps.
Context {T : Type} `{Translator T}.
Variable R : T -> T -> Prop.
Hypothesis R_refl : forall t, R t t.
Hypothesis R_trans : forall a b c, R a b -> R b c -> R a c.
Hypothesis R_total : forall t, R t (incr_total t).
Hypothesis R_translate : forall t x c, R t (snd (translate_text t x c)).

Lemma translate_slot_step slot c t : R t (snd (translate_slot slot c t)).
Proof.
  destruct (qualifies slot) eqn:Hq.
  - destruct slot as [s|]; [|done].
    rewrite translate_slot_unit by done.
    pose proof (R_translate (incr_total t) (strip s) c) as Hs.
    destruct (translate_text (incr_total t) (strip s) c) as [r t2].
    simpl in *. eapply R_trans; [apply R_total | exact Hs].
  - rewrite translate_slot_skip by done. apply R_refl.
Qed.

Lemma run_slots_step l : forall t, R t (snd (run_slots l t)).
Proof.
  induction l as [|[s c] l IH]; intros t; [apply R_refl|].
  cbn [run_slots]. pose proof (translate_slot_step s c t) as H1.
  destruct (translate_slot s c t) as [s' t1]. specialize (IH t1).
  destruct (run_slots l t1) as [r t2]. simpl in *.
  eapply R_trans; [exact H1 | exact IH].
Qed.

Lemma walk_step e c t : R t (snd (process_element_translations e c t)).
Proof. destruct (walk_slots e c t) as [_ ->]. apply run_slots_step. Qed.

Lemma on_first_child_step tg f cs t :
  (forall e t, R t (snd (f e t))) -> R t (snd (on_first_child tg f cs t)).
Proof.
  intros Hf. induction cs as [|x cs IH]; [apply R_refl|]. simpl.
  case_bool_decide.
  - specialize (Hf x t). by destruct (f x t).
  - by destruct (on_first_child tg f cs t).
Qed.

Lemma first_among_step tg f cs t r :
  (forall e t, R t (snd (f e t))) ->
  Forall (fun e => forall r, on_first_descendant tg f e t = Some r ->
                     R t (snd r)) cs ->
  first_among tg f cs t = Some r -> R t (snd r).
Proof.
  intros Hf Hcs. revert r. induction Hcs as [|x cs Hx _ IH]; intros r; [done|].
  cbn [first_among]. case_bool_decide.
  - specialize (Hf x t). destruct (f x t) as [x' t']. by intros [= <-].
  - destruct (on_first_descendant tg f x t) as [[x' t']|] eqn:Ed.
    + intros [= <-]. exact (Hx _ eq_refl).
    + destruct (first_among tg f cs t) as [[l t']|]; [|done].
      intros [= <-]. exact (IH _ eq_refl).
Qed.

Lemma on_first_descendant_step tg f e : forall t r,
  (forall e t, R t (snd (f e t))) ->
  on_first_descendant tg f e t = Some r -> R t (snd r).
Proof.
  induction e as [tg0 ats tx cs tl IH] using Element_nested_ind.
  intros t r Hf. rewrite on_first_descendant_eq.
  destruct (first_among tg f cs t) as [[cs' t']|] eqn:Ea; [|done].
  intros [= <-]. simpl.
  eapply (first_among_step tg f cs t (cs', t') Hf); [|done].
  eapply Forall_impl; [exact IH|]. intros x Hx r Hr. by eapply Hx.
Qed.

Lemma update_book_title_step e t : R t (snd (update_book_title e t)).
Proof.
  unfold update_book_title. destruct (text e) as [s|]; [|apply R_refl].
  destruct (truthy s); [|apply R_refl].
  pose proof (R_translate t s (u "book-title")) as Hs.
  destruct (translate_text t s (u "book-title")) as [r t'].
  by destruct (truthy_opt r).
Qed.

Lemma update_document_metadata_step root t :
  R t (snd (update_document_metadata root t)).
Proof.
  unfold update_document_metadata.
  destruct (on_first_descendant _ _ root t) as [r|] eqn:E; [|apply R_refl].
  eapply on_first_descendant_step; [|exact E].
  intros d t0. unfold update_description.
  pose proof (on_first_child_step (fb2 "title-info") update_title_info
                (children d) t0) as Hti.
  destruct (on_first_child (fb2 "title-info") _ (children d) t0) as [cs t'].
  apply Hti. intros ti t1. unfold update_title_info.
  pose proof (on_first_child_step (fb2 "lang") update_lang
                (children ti) t1) as Hl.
  destruct (on_first_child (fb2 "lang") _ (children ti) t1) as [cs1 t2].
  pose proof (on_first_child_step (fb2 "book-title") update_book_title
                cs1 t2 update_book_title_step) as Hb.
  destruct (on_first_child (fb2 "book-title") _ cs1 t2) as [cs2 t3].
  simpl in *. eapply R_trans; [|exact Hb]. apply Hl.
  intros e t4. apply R_refl.
Qed.

Lemma translate_tree_step root t : R t (snd (translate_tree root t)).
Proof.
  unfold translate_tree.
  pose proof (update_document_metadata_step root t) as H1.
  destruct (update_document_metadata root t) as [root1 t1].
  eapply R_trans; [exact H1|]. apply walk_step.
Qed.

End Steps.

(** ** The cache and the counters over a run *)

Section ProviderExtras.
Context {W : Type}.
Variable chat : W -> str -> W * option str.
Variables islower isupper : char -> bool.
Variable upper : char -> str.

Abbreviation llm' := (llm_translator chat islower isupper upper).
Abbreviation translate' := (llm_translate_text chat islower isupper upper).
Abbreviation enhance'' := (enhance_translation islower isupper upper).

(** X7: over a whole run (metadata update and walk) the cache grows by as
    many entries as the counter [translated] grows: every answer of the
    service is stored under a pair that was not in the cache, and nothing
    else touches the cache.  For a translator that starts empty the number
    of entries equals [translated]. *)
Theorem cache_size_is_translated (root : Element) (t : LLMTranslator W) :
  size (translation_cache (snd (@translate_tree _ llm' root t)))
    + translated (translation_stats t)
  = size (translation_cache t)
    + translated (translation_stats (snd (@translate_tree _ llm' root t))).
Proof.
  apply (@translate_tree_step _ llm'
    (fun a b => size (translation_cache b) + translated (translation_stats a)
                = size (translation_cache a)
                  + translated (translation_stats b))).
  - done.
  - intros a b c0 H1 H2. lia.
  - done.
  - intros a x c0. cbn [translate_text llm_translator].
    unfold llm_translate_text.
    destruct (negb (truthy x) || negb (truthy (strip x))); [done|].
    destruct (translation_cache a !! (x, c0)) eqn:Hc; [done|].
    destruct (chat (world a) _) as [w' [content|]]; [|done].
    simpl. rewrite map_size_insert_None by done. lia.
Qed.

(** X8: [translate_text] returns [None] exactly when it counts an error,
    and then it changes neither the cache nor the other counters; when it
    returns a string the error counter stays as it was. *)
Theorem none_means_one_error (t : LLMTranslator W) (text ctx : str) :
  match fst (translate' t text ctx) with
  | None =>
    translation_stats (snd (translate' t text ctx))
      = bump_errors (translation_stats t)
    /\ translation_cache (snd (translate' t text ctx)) = translation_cache t
  | Some _ =>
    errors (translation_stats (snd (translate' t text ctx)))
      = errors (translation_stats t)
  end.
Proof.
  unfold llm_translate_text.
  destruct (negb (truthy text) || negb (truthy (strip text))); [done|].
  destruct (translation_cache t !! (text, ctx)); [done|].
  by destruct (chat (world t) _) as [w' [content|]].
Qed.

(** X9: an answer that is empty once stripped is remembered like any other
    answer: for a text that is not blank and does not end with a line
    break, such an answer makes this call and every later call for the pair
    return the empty string, and the later calls do not reach the service;
    the pair cannot be translated any more by this translator. *)
Theorem blank_answer_is_remembered
    (first later : LLMTranslator W) (text ctx content : str) :
  truthy (strip text) = true ->
  endswith text newline = false ->
  translation_cache first !! (text, ctx) = None ->
  snd (chat (world first) (create_translation_prompt text ctx))
    = Some content ->
  strip content = [] ->
  translation_cache (snd (translate' first text ctx))
    ⊆ translation_cache later ->
  fst (translate' first text ctx) = Some []
  /\ translate' later text ctx
     = (Some [],
        mkLLM (world later) (translation_cache later)
          (bump_cached (translation_stats later))).
Proof.
  intros Ht Hnl Hc Hans Hblank Hsub.
  pose proof (truthy_strip _ Ht) as Ht'.
  rewrite translate_cases in Hsub |- * by done. rewrite Hc in Hsub |- *.
  destruct (chat (world first) _) as [w' r]. simpl in Hans. subst r.
  rewrite Hblank in Hsub |- *.
  rewrite (enhance_empty islower isupper upper text Hnl) in Hsub |- *.
  split; [done|]. simpl in Hsub.
  rewrite translate_cases by done.
  pose proof (lookup_weaken (A:=str) _ _ (text, ctx) ([] : str)
                (lookup_insert_eq _ _ _) Hsub) as Hl.
  by rewrite Hl.
Qed.

(** X10: when the service raises on every call and the cache is empty, the
    walk returns the document as it was, stores nothing and counts one
    error for every unit submitted. *)
Theorem outage_leaves_document (doc : Element) (c : str)
    (t : LLMTranslator W) :
  (forall w prompt, snd (chat w prompt) = None) ->
  translation_cache t = ∅ ->
  fst (@process_element_translations _ llm' doc c t) = doc
  /\ translation_cache (snd (@process_element_translations _ llm' doc c t))
     = ∅
  /\ errors (translation_stats
               (snd (@process_element_translations _ llm' doc c t)))
     = errors (translation_stats t) + length (units doc c).
Proof.
  intros Hdown Hempty.
  assert (Hstep : forall a x c0, translation_cache a = ∅ ->
    truthy_opt (fst (translate' a x c0)) = truthy x && negb (truthy (strip x))
    /\ translation_cache (snd (translate' a x c0)) = ∅
    /\ translated (translation_stats (snd (translate' a x c0)))
       = translated (translation_stats a)
    /\ cached (translation_stats (snd (translate' a x c0)))
       = cached (translation_stats a)).
  { intros a x c0 Ha. unfold llm_translate_text.
    destruct (truthy x) eqn:E1; [|by destruct x].
    destruct (truthy (strip x)) eqn:E2; [|done]. simpl.
    rewrite Ha, lookup_empty. pose proof (Hdown (world a)
      (create_translation_prompt x c0)) as Hd.
    destruct (chat (world a) _) as [w' r]. simpl in Hd. by subst r. }
  pose proof (@walk_step _ llm'
    (fun a b => translation_cache a = ∅ ->
       translation_cache b = ∅
       /\ translated (translation_stats b) = translated (translation_stats a)
       /\ cached (translation_stats b) = cached (translation_stats a)))
    as Hinv.
  destruct (Hinv) with (e := doc) (c := c) (t := t) as (Hc & Htr & Hca);
    [done| |done| |done|].
  { intros a b c0 H1 H2 Ha. destruct (H1 Ha) as (Hb & E1 & E2).
    destruct (H2 Hb) as (Hc0 & E3 & E4). repeat split; [done|lia|lia]. }
  { intros a x c0 Ha. by destruct (Hstep a x c0 Ha) as (_ & ? & ? & ?). }
  split; [|split; [done|]].
  - apply shape_texts_inj; [by rewrite (@walk_shape _ llm')|].
    destruct (@walk_slots _ llm' doc c t) as [-> _].
    rewrite <- (slots_texts doc c).
    clear Hc Htr Hca Hinv. revert t Hempty.
    induction (slots_of doc c) as [|[s c0] l IH]; intros t Hempty; [done|].
    cbn [run_slots map fst].
    assert (@translate_slot _ llm' s c0 t
            = (s, snd (@translate_slot _ llm' s c0 t))
            /\ translation_cache (snd (@translate_slot _ llm' s c0 t)) = ∅)
      as [Es Hc1].
    { destruct (qualifies s) eqn:Hq.
      - destruct s as [s|]; [|done].
        rewrite (@translate_slot_unit _ llm') by done.
        destruct (qualifies_truthy s Hq) as [H1 H2].
        destruct (Hstep (@incr_total _ llm' t) (strip s) c0 Hempty)
          as (Hr & Hc1 & _).
        change (@translate_text _ llm') with translate'.
        destruct (translate' _ (strip s) c0) as [r t2]. simpl in *.
        rewrite Hr, H2. simpl. rewrite andb_false_r. done.
      - by rewrite (@translate_slot_skip _ llm') by done. }
    rewrite Es. specialize (IH _ Hc1).
    destruct (@run_slots _ llm' l _) as [r t2]. simpl in *. by rewrite IH.
  - destruct (@walk_slots _ llm' doc c t) as [_ E].
    pose proof (run_slots_stats chat islower isupper upper
                  (slots_of doc c) t) as [_ Hsum].
    rewrite <- E in Hsum. unfold stat_sum, units in *. lia.
Qed.

End ProviderExtras.

Lemma blank_answer_is_remembered_witness :
  truthy (strip (u "Здраво")) = true
  /\ endswith (u "Здраво") newline = false
  /\ fst (llm_translate_text (canned (u "  ")) basic_islower basic_isupper
            basic_upper (new_translator tt) (u "Здраво") (u "p")) = Some []
  /\ fst (llm_translate_text (canned (u "  ")) basic_islower basic_isupper
            basic_upper
            (snd (llm_translate_text (canned (u "  ")) basic_islower
                    basic_isupper basic_upper (new_translator tt)
                    (u "Здраво") (u "p")))
            (u "Здраво") (u "p")) = Some [].
Proof.
  split; [reflexivity|]. split; [reflexivity|].
  destruct (blank_answer_is_remembered (canned (u "  ")) basic_islower
    basic_isupper basic_upper (new_translator tt)
    (snd (llm_translate_text (canned (u "  ")) basic_islower
            basic_isupper basic_upper (new_translator tt)
            (u "Здраво") (u "p")))
    (u "Здраво") (u "p") (u "  ")) as [E1 E2]; try reflexivity.
  split; [exact E1|]. by rewrite E2.
Defined.

Lemma outage_leaves_document_witness :
  (forall w prompt, snd (down w prompt) = None)
  /\ translation_cache (new_translator tt) = ∅
  /\ fst (@process_element_translations _ (basic_translator down) twice []
            (new_translator tt)) = twice
  /\ errors (translation_stats
               (snd (@process_element_translations _ (basic_translator down)
                       twice [] (new_translator tt)))) = 2.
Proof.
  split; [reflexivity|]. split; [reflexivity|].
  destruct (outage_leaves_document down basic_islower basic_isupper
    basic_upper twice [] (new_translator tt)) as (E1 & _ & E3);
    [reflexivity | reflexivity |].
  split; [exact E1|]. etrans; [exact E3 | reflexivity].
Defined.

(** ** Documents with nothing to translate *)

(** X11: a document in which no slot qualifies goes through the walk
    unchanged, and so does the translator: nothing is submitted and no
    counter moves. *)
Theorem walk_without_units {T : Type} `{Translator T}
    (doc : Element) (c : str) (t : T) :
  Forall (fun s => qualifies s = false) (texts_of doc) ->
  process_element_translations doc c t = (doc, t).
Proof.
  intros Hq. rewrite <- (slots_texts doc c) in Hq.
  assert (E : run_slots (slots_of doc c) t = (map fst (slots_of doc c), t)).
  { revert t. induction (slots_of doc c) as [|[s c0] l IH]; intros t; [done|].
    apply Forall_cons in Hq as [H1 H2]. cbn [run_slots].
    rewrite translate_slot_skip by done. by rewrite (IH H2). }
  destruct (walk_slots doc c t) as [E1 E2]. rewrite E in E1, E2.
  simpl in *. rewrite slots_texts in E1.
  destruct (process_element_translations doc c t) as [doc' t'] eqn:Ew.
  simpl in *. subst t'. f_equal. apply shape_texts_inj; [|done].
  pose proof (walk_shape doc c t) as Hs. by rewrite Ew in Hs.
Qed.

(** [<root> <p>.</p>
    </root>]: only blank and one-character slots. *)
Definition dots : Element :=
  mkElement (u "root") [] (Some (u " "))
    [leaf "p" (Some (u ".")) (Some newline)] None.

Lemma walk_without_units_witness :
  Forall (fun s => qualifies s = false) (texts_of dots)
  /\ @process_element_translations _ (basic_translator (canned (u "x")))
       dots [] (new_translator tt) = (dots, new_translator tt).
Proof.
  assert (H : Forall (fun s => qualifies s = false) (texts_of dots)).
  { repeat constructor. }
  split; [exact H|].
  exact (@walk_without_units _ (basic_translator (canned (u "x"))) dots []
           (new_translator tt) H).
Defined.

(** ** Looking up what the metadata update changes *)

(** [parent.find(tag)]: the first child with the tag. *)
Definition find_child (tg : str) (cs : list Element) : option Element :=
  find (fun c => bool_decide (tag c = tg)) cs.

(** [element.find('.//' + tag)]: the first descendant with the tag, in
    document order. *)
Fixpoint find_descendant (tg : str) (e : Element) : option Element :=
  match e with
  | mkElement tg0 ats tx cs tl =>
    (fix among (l : list Element) : option Element :=
       match l with
       | [] => None
       | c :: l' =>
         if bool_decide (tag c = tg) then Some c
         else
           match find_descendant tg c with
           | Some d => Some d
           | None => among l'
           end
       end) cs
  end.

Fixpoint find_among (tg : str) (l : list Element) : option Element :=
  match l with
  | [] => None
  | c :: l' =>
    if bool_decide (tag c = tg) then Some c
    else
      match find_descendant tg c with
      | Some d => Some d
      | None => find_among tg l'
      end
  end.

Lemma find_descendant_eq tg tg0 ats tx cs tl :
  find_descendant tg (mkElement tg0 ats tx cs tl) = find_among tg cs.
Proof.
  simpl. induction cs as [|c cs IH]; [done|]. simpl. by rewrite IH.
Qed.

(** The elements the metadata update looks for, found the way it finds
    them. *)
Definition title_info_of (root : Element) : option Element :=
  find_descendant (fb2 "description") root
    ≫= fun d => find_child (fb2 "title-info") (children d).

Definition lang_of (root : Element) : option Element :=
  title_info_of root ≫= fun ti => find_child (fb2 "lang") (children ti).

Definition book_title_of (root : Element) : option Element :=
  title_info_of root
    ≫= fun ti => find_child (fb2 "book-title") (children ti).

Section FindUpdate.
Context {T : Type} `{Translator T}.

Definition keeps_tag (f : Element -> T -> Element * T) : Prop :=
  forall e t, tag (fst (f e t)) = tag e.

Lemma on_first_child_none tg f cs (t : T) :
  find_child tg cs = None -> on_first_child tg f cs t = (cs, t).
Proof.
  unfold find_child. induction cs as [|c cs IH]; [done|]. simpl.
  case_bool_decide; [done|]. intros Hn. by rewrite (IH Hn).
Qed.

Lemma on_first_child_some tg f cs (t : T) x :
  keeps_tag f ->
  find_child tg cs = Some x ->
  find_child tg (fst (on_first_child tg f cs t)) = Some (fst (f x t))
  /\ snd (on_first_child tg f cs t) = snd (f x t).
Proof.
  unfold find_child. intros Hf. induction cs as [|c cs IH]; [done|]. simpl.
  case_bool_decide as Hc.
  - intros [= ->]. specialize (Hf x t). destruct (f x t) as [x' t'].
    simpl in *. by rewrite bool_decide_true by congruence.
  - intros Hx. destruct (IH Hx) as [E1 E2].
    destruct (on_first_child tg f cs t) as [cs' t']. simpl in *.
    by rewrite bool_decide_false by done.
Qed.

Lemma on_first_child_other tg tg' f cs (t : T) :
  keeps_tag f -> tg <> tg' ->
  find_child tg' (fst (on_first_child tg f cs t)) = find_child tg' cs.
Proof.
  unfold find_child. intros Hf Hne. induction cs as [|c cs IH]; [done|].
  simpl. case_bool_decide as Hc.
  - specialize (Hf c t). destruct (f c t) as [c' t']. simpl in *.
    rewrite !bool_decide_false by congruence. done.
  - destruct (on_first_child tg f cs t) as [cs' t']. simpl in *.
    by rewrite IH.
Qed.

Lemma on_first_child_fixed tg f cs (t : T) x :
  find_child tg cs = Some x -> f x t = (x, t) ->
  on_first_child tg f cs t = (cs, t).
Proof.
  unfold find_child. induction cs as [|c cs IH]; [done|]. simpl.
  case_bool_decide as Hc.
  - intros [= ->] ->. done.
  - intros Hx Hf. by rewrite (IH Hx Hf).
Qed.

Lemma first_among_none tg f cs (t : T) :
  Forall (fun e => find_descendant tg e = None ->
                   on_first_descendant tg f e t = None) cs ->
  find_among tg cs = None -> first_among tg f cs t = None.
Proof.
  induction 1 as [|c cs Hc _ IH]; [done|]. simpl.
  case_bool_decide; [done|].
  destruct (find_descendant tg c) eqn:Ed; [done|]. intros Hn.
  by rewrite (Hc eq_refl), (IH Hn).
Qed.

Lemma on_first_descendant_none tg f e : forall (t : T),
  find_descendant tg e = None -> on_first_descendant tg f e t = None.
Proof.
  induction e as [tg0 ats tx cs tl IH] using Element_nested_ind.
  intros t. rewrite find_descendant_eq, on_first_descendant_eq. intros Hn.
  rewrite (first_among_none tg f cs t); [done| |done].
  eapply Forall_impl; [exact IH|]. intros x Hx. apply Hx.
Qed.

Lemma first_among_some tg f cs (t : T) d :
  keeps_tag f ->
  Forall (fun e => forall d, find_descendant tg e = Some d ->
            exists e', on_first_descendant tg f e t = Some (e', snd (f d t))
                       /\ tag e' = tag e
                       /\ find_descendant tg e' = Some (fst (f d t))) cs ->
  Forall (fun e => find_descendant tg e = None ->
                   on_first_descendant tg f e t = None) cs ->
  find_among tg cs = Some d ->
  exists cs', first_among tg f cs t = Some (cs', snd (f d t))
              /\ find_among tg cs' = Some (fst (f d t)).
Proof.
  intros Hf Hs Hn. revert d.
  induction Hs as [|c cs Hc _ IH]; intros d; [done|].
  apply Forall_cons in Hn as [Hn1 Hn2]. simpl.
  case_bool_decide as Htag.
  - intros [= ->]. pose proof (Hf d t) as Hk. destruct (f d t) as [d' t'].
    simpl in *. eexists. split; [done|]. simpl.
    by rewrite bool_decide_true by congruence.
  - destruct (find_descendant tg c) as [d0|] eqn:Ed.
    + intros [= ->]. destruct (Hc d eq_refl) as (e' & E1 & E2 & E3).
      rewrite E1. eexists. split; [done|]. simpl.
      rewrite bool_decide_false by congruence. by rewrite E3.
    + intros Hd. rewrite (Hn1 eq_refl).
      destruct (IH Hn2 d Hd) as (cs' & E1 & E2). rewrite E1.
      eexists. split; [done|]. simpl.
      rewrite bool_decide_false by done. by rewrite Ed.
Qed.

Lemma on_first_descendant_some tg f e : forall (t : T) d,
  keeps_tag f ->
  find_descendant tg e = Some d ->
  exists e', on_first_descendant tg f e t = Some (e', snd (f d t))
             /\ tag e' = tag e
             /\ find_descendant tg e' = Some (fst (f d t)).
Proof.
  induction e as [tg0 ats tx cs tl IH] using Element_nested_ind.
  intros t d Hf. rewrite find_descendant_eq, on_first_descendant_eq.
  intros Hd.
  destruct (first_among_some tg f cs t d Hf) as (cs' & E1 & E2); [| |done|].
  - eapply Forall_impl; [exact IH|]. intros x Hx d0 Hd0.
    exact (Hx t d0 Hf Hd0).
  - apply Forall_forall. intros x _. apply on_first_descendant_none.
  - rewrite E1. eexists. split; [done|]. split; [done|].
    by rewrite find_descendant_eq.
Qed.

Lemma first_among_fixed tg f cs (t : T) d :
  f d t = (d, t) ->
  Forall (fun e => find_descendant tg e = Some d ->
                   on_first_descendant tg f e t = Some (e, t)) cs ->
  Forall (fun e => find_descendant tg e = None ->
                   on_first_descendant tg f e t = None) cs ->
  find_among tg cs = Some d -> first_among tg f cs t = Some (cs, t).
Proof.
  intros Hf Hs Hn. induction Hs as [|c cs Hc _ IH]; [done|].
  apply Forall_cons in Hn as [Hn1 Hn2]. simpl.
  case_bool_decide as Htag.
  - intros [= ->]. by rewrite Hf.
  - destruct (find_descendant tg c) as [d0|] eqn:Ed.
    + intros [= ->]. by rewrite (Hc eq_refl).
    + intros Hd. by rewrite (Hn1 eq_refl), (IH Hn2 Hd).
Qed.

Lemma on_first_descendant_fixed tg f e : forall (t : T) d,
  f d t = (d, t) ->
  find_descendant tg e = Some d ->
  on_first_descendant tg f e t = Some (e, t).
Proof.
  induction e as [tg0 ats tx cs tl IH] using Element_nested_ind.
  intros t d Hf. rewrite find_descendant_eq, on_first_descendant_eq.
  intros Hd. rewrite (first_among_fixed tg f cs t d Hf); [done| | |done].
  - eapply Forall_impl; [exact IH|]. intros x Hx Hd0.
    exact (Hx t d Hf Hd0).
  - apply Forall_forall. intros x _. apply on_first_descendant_none.
Qed.

End FindUpdate.

(** ** What the metadata update does *)

Lemma fb2_lang_title : fb2 "lang" <> fb2 "book-title".
Proof. vm_compute. discriminate. Qed.

Section MetadataExtras.
Context {T : Type} `{Translator T}.

Lemma update_lang_keeps_tag : @keeps_tag T update_lang.
Proof. by intros [] t. Qed.

Lemma update_book_title_keeps_tag : @keeps_tag T update_book_title.
Proof.
  intros [tg ats tx cs tl] t. unfold update_book_title. simpl.
  destruct tx as [s|]; [|done]. destruct (truthy s); [|done].
  destruct (translate_text t s _) as [r t']. by destruct (truthy_opt r).
Qed.

Lemma update_title_info_keeps_tag : @keeps_tag T update_title_info.
Proof.
  intros [tg ats tx cs tl] t. unfold update_title_info. simpl.
  destruct (on_first_child (fb2 "lang") update_lang cs t) as [cs1 t1].
  by destruct (on_first_child (fb2 "book-title") _ cs1 t1).
Qed.

Lemma update_description_keeps_tag : @keeps_tag T update_description.
Proof.
  intros [tg ats tx cs tl] t. unfold update_description. simpl.
  by destruct (on_first_child (fb2 "title-info") _ cs t).
Qed.

Lemma on_first_child_lang_state cs (t : T) :
  snd (on_first_child (fb2 "lang") update_lang cs t) = t.
Proof.
  induction cs as [|c cs IH]; [done|]. simpl. case_bool_decide; [done|].
  by destruct (on_first_child (fb2 "lang") update_lang cs t).
Qed.

(** The update, seen from the [title-info] it finds. *)
Lemma update_at_title_info root (t : T) ti :
  title_info_of root = Some ti ->
  title_info_of (fst (update_document_metadata root t))
    = Some (fst (update_title_info ti t))
  /\ snd (update_document_metadata root t) = snd (update_title_info ti t).
Proof.
  unfold title_info_of, update_document_metadata.
  destruct (find_descendant (fb2 "description") root) as [d|] eqn:Ed; [|done].
  simpl. intros Hti.
  destruct (on_first_descendant_some (fb2 "description") update_description
              root t d update_description_keeps_tag Ed) as (e' & E1 & _ & E3).
  rewrite E1. simpl. rewrite E3. simpl.
  unfold update_description.
  destruct (on_first_child_some (fb2 "title-info") update_title_info
              (children d) t ti update_title_info_keeps_tag Hti) as [E4 E5].
  destruct (on_first_child (fb2 "title-info") _ (children d) t) as [cs t'].
  simpl in *. by rewrite E4, E5.
Qed.

Lemma children_update_title_info ti (t : T) :
  find_child (fb2 "lang") (children (fst (update_title_info ti t)))
    = set_text (Some (u "sr")) <$> find_child (fb2 "lang") (children ti)
  /\ find_child (fb2 "book-title") (children (fst (update_title_info ti t)))
    = (fun b => fst (update_book_title b t))
        <$> find_child (fb2 "book-title") (children ti)
  /\ snd (update_title_info ti t)
    = match find_child (fb2 "book-title") (children ti) with
      | Some b => snd (update_book_title b t)
      | None => t
      end.
Proof.
  unfold update_title_info.
  pose proof (on_first_child_lang_state (children ti) t) as Et.
  pose proof (on_first_child_other (fb2 "lang") (fb2 "book-title")
                update_lang (children ti) t update_lang_keeps_tag
                fb2_lang_title) as Eb.
  assert (El : find_child (fb2 "lang")
                 (fst (on_first_child (fb2 "lang") update_lang
                         (children ti) t))
               = set_text (Some (u "sr"))
                   <$> find_child (fb2 "lang") (children ti)).
  { destruct (find_child (fb2 "lang") (children ti)) as [l|] eqn:E.
    - by destruct (on_first_child_some (fb2 "lang") update_lang
                     (children ti) t l update_lang_keeps_tag E) as [-> _].
    - rewrite on_first_child_none by done. simpl. by rewrite E. }
  destruct (on_first_child (fb2 "lang") update_lang (children ti) t)
    as [cs1 t1]. simpl in Et, Eb, El. subst t1.
  pose proof (on_first_child_other (fb2 "book-title") (fb2 "lang")
                update_book_title cs1 t update_book_title_keeps_tag
                (not_eq_sym fb2_lang_title)) as El2.
  destruct (find_child (fb2 "book-title") (children ti)) as [b|] eqn:E.
  - destruct (on_first_child_some (fb2 "book-title") update_book_title
                cs1 t b update_book_title_keeps_tag Eb) as [E1 E2].
    destruct (on_first_child (fb2 "book-title") _ cs1 t) as [cs2 t2].
    simpl in *. by rewrite El2, El, E1, E2.
  - rewrite (on_first_child_none (fb2 "book-title") update_book_title
               cs1 t Eb). simpl. by rewrite El, Eb.
Qed.

(** X12: when the document has no [description], or its first
    [description] has no [title-info] child, the metadata update changes
    neither the document nor the translator (a [title-info] elsewhere is not
    looked for). *)
Theorem metadata_without_title_info (root : Element) (t : T) :
  title_info_of root = None ->
  update_document_metadata root t = (root, t).
Proof.
  unfold title_info_of, update_document_metadata.
  destruct (find_descendant (fb2 "description") root) as [d|] eqn:Ed.
  - simpl. intros Hti.
    rewrite (on_first_descendant_fixed (fb2 "description")
               update_description root t d); [done| |done].
    unfold update_description. rewrite on_first_child_none by done.
    by destruct d.
  - intros _. by rewrite on_first_descendant_none.
Qed.

(** X13: when the update finds a [lang] element, the [lang] element found
    afterwards in the same place is that element with the body [sr],
    whatever it held and whatever the translator does. *)
Theorem metadata_sets_lang (root : Element) (t : T) (lang : Element) :
  lang_of root = Some lang ->
  lang_of (fst (update_document_metadata root t))
    = Some (set_text (Some (u "sr")) lang).
Proof.
  unfold lang_of.
  destruct (title_info_of root) as [ti|] eqn:Eti; [|done]. simpl.
  intros Hl. destruct (update_at_title_info root t ti Eti) as [-> _].
  simpl. destruct (children_update_title_info ti t) as [-> _].
  by rewrite Hl.
Qed.

(** X14: when the update finds a [book-title] with a non-empty body, it
    submits that body as it is stored (not stripped, whatever its length)
    with the context [book-title], and a non-empty result becomes the body
    of the title. *)
Theorem metadata_translates_title (root : Element) (t t' : T)
    (title : Element) (s r : str) :
  book_title_of root = Some title ->
  text title = Some s ->
  truthy s = true ->
  translate_text t s (u "book-title") = (Some r, t') ->
  truthy r = true ->
  book_title_of (fst (update_document_metadata root t))
    = Some (set_text (Some r) title)
  /\ snd (update_document_metadata root t) = t'.
Proof.
  unfold book_title_of.
  destruct (title_info_of root) as [ti|] eqn:Eti; [|done]. simpl.
  intros Hb Hs Hts Htr Hr.
  destruct (update_at_title_info root t ti Eti) as [-> ->]. simpl.
  destruct (children_update_title_info ti t) as (_ & -> & ->).
  rewrite Hb. simpl. unfold update_book_title.
  by rewrite Hs, Hts, Htr; simpl; rewrite Hr.
Qed.

(** The update reaches the translator through at most one call, made with
    the context [book-title]. *)
Lemma update_document_metadata_once (R : T -> T -> Prop) root (t : T) :
  (forall t, R t t) ->
  (forall t x, R t (snd (translate_text t x (u "book-title")))) ->
  R t (snd (update_document_metadata root t)).
Proof.
  intros R_refl R_call. unfold update_document_metadata.
  destruct (on_first_descendant _ _ root t) as [r|] eqn:E; [|apply R_refl].
  eapply (on_first_descendant_step R); [|exact E].
  intros d t0. unfold update_description.
  pose proof (on_first_child_step R R_refl (fb2 "title-info")
                update_title_info (children d) t0) as Hti.
  destruct (on_first_child (fb2 "title-info") _ (children d) t0) as [cs t1].
  apply Hti. intros ti t2. unfold update_title_info.
  pose proof (on_first_child_lang_state (children ti) t2) as Et.
  destruct (on_first_child (fb2 "lang") _ (children ti) t2) as [cs1 t3].
  simpl in Et. subst t3.
  pose proof (on_first_child_step R R_refl (fb2 "book-title")
                update_book_title cs1 t2) as Hb.
  destruct (on_first_child (fb2 "book-title") _ cs1 t2) as [cs2 t4].
  apply Hb. intros b t5. unfold update_book_title.
  destruct (text b) as [s|]; [|apply R_refl].
  destruct (truthy s); [|apply R_refl].
  pose proof (R_call t5 s) as Hc.
  destruct (translate_text t5 s (u "book-title")) as [r0 t6].
  by destruct (truthy_opt r0).
Qed.

End MetadataExtras.

(** X15: the metadata update calls [translate_text] at most once, and the
    call has the context [book-title]. *)
Theorem metadata_calls_once {T : Type} `{Translator T}
    (root : Element) (t : T) (log : list Call) :
  exists new,
    calls (snd (update_document_metadata root (mkTraced t log)))
      = log ++ new
    /\ length new <= 1
    /\ Forall (fun k => call_context k = u "book-title") new.
Proof.
  apply (@update_document_metadata_once (Traced T) _
    (fun a b => exists new, calls b = calls a ++ new /\ length new <= 1
       /\ Forall (fun k => call_context k = u "book-title") new)
    root (mkTraced t log)).
  - intros a. exists []. rewrite app_nil_r.
    split; [done|]. split; [simpl; lia | constructor].
  - intros a x. cbn [translate_text traced_translator].
    destruct (translate_text (inner a) x (u "book-title")) as [r t'].
    eexists. split; [done|]. split; [simpl; lia|]. by repeat constructor.
Qed.

Section MetadataState.
Context {T : Type} `{Translator T}.

(** The title after the update, and the translator after the update. *)
Lemma title_after_update root (t : T) :
  book_title_of (fst (update_document_metadata root t))
    = (fun b => fst (update_book_title b t)) <$> book_title_of root
  /\ snd (update_document_metadata root t)
    = match book_title_of root with
      | Some b => snd (update_book_title b t)
      | None => t
      end.
Proof.
  unfold book_title_of.
  destruct (title_info_of root) as [ti|] eqn:Eti.
  - destruct (update_at_title_info root t ti Eti) as [-> ->]. simpl.
    by destruct (children_update_title_info ti t) as (_ & -> & ->).
  - assert (update_document_metadata root t = (root, t)) as ->.
    { revert Eti. unfold title_info_of, update_document_metadata.
      destruct (find_descendant (fb2 "description") root) as [d|] eqn:Ed.
      - simpl. intros Hti.
        rewrite (on_first_descendant_fixed (fb2 "description")
                   update_description root t d); [done| |done].
        unfold update_description. rewrite on_first_child_none by done.
        by destruct d.
      - intros _. by rewrite on_first_descendant_none. }
    simpl. by rewrite Eti.
Qed.

End MetadataState.

(** The number of calls the metadata update has counted: one when the
    title found holds a text that is not blank. *)
Definition title_call (root : Element) : nat :=
  match book_title_of root ≫= text with
  | Some s => if truthy (strip s) then 1 else 0
  | None => 0
  end.

Section MetadataProvider.
Context {W : Type}.
Variable chat : W -> str -> W * option str.
Variables islower isupper : char -> bool.
Variable upper : char -> str.

Abbreviation llm2 := (llm_translator chat islower isupper upper).
Abbreviation translate2 := (llm_translate_text chat islower isupper upper).

Lemma translate_counts (t : LLMTranslator W) x c :
  total (translation_stats (snd (translate2 t x c)))
    = total (translation_stats t)
  /\ stat_sum (translation_stats (snd (translate2 t x c)))
    = stat_sum (translation_stats t) + (if truthy (strip x) then 1 else 0).
Proof.
  unfold llm_translate_text.
  destruct (truthy x) eqn:E1.
  - destruct (truthy (strip x)) eqn:E2; simpl; [|lia].
    destruct (translation_cache t !! (x, c)).
    + unfold stat_sum. simpl. lia.
    + destruct (chat (world t) _) as [w' [content|]];
        unfold stat_sum; simpl; lia.
  - destruct x; [|done]. simpl. lia.
Qed.

(** X16: over a whole run the counters [translated], [errors] and [cached]
    together grow by the growth of [total] plus one when the book has a
    title that is not blank: the call made for the title by the metadata
    update is counted as an answer, an error or a cache hit, but not in
    [total]. *)
Theorem title_call_not_in_total (root : Element) (t : LLMTranslator W) :
  stat_sum (translation_stats (snd (@translate_tree _ llm2 root t)))
    + total (translation_stats t)
  = stat_sum (translation_stats t)
    + total (translation_stats (snd (@translate_tree _ llm2 root t)))
    + title_call root.
Proof.
  unfold translate_tree.
  destruct (@title_after_update _ llm2 root t) as [_ Et].
  destruct (@update_document_metadata _ llm2 root t) as [root1 t1].
  simpl in Et.
  assert (E1 : total (translation_stats t1) = total (translation_stats t)
          /\ stat_sum (translation_stats t1)
             = stat_sum (translation_stats t) + title_call root).
  { subst t1. unfold title_call.
    destruct (book_title_of root) as [b|]; [|simpl; lia]. simpl.
    unfold update_book_title. destruct (text b) as [s|]; [|simpl; lia].
    destruct (truthy s) eqn:Es.
    - pose proof (translate_counts t s (u "book-title")) as Hc.
      change (@translate_text _ llm2) with translate2.
      destruct (translate2 t s (u "book-title")) as [r t']. simpl in Hc.
      by destruct (truthy_opt r).
    - destruct s; [|done]. simpl. lia. }
  destruct (@walk_slots _ llm2 root1 [] t1) as [_ ->].
  pose proof (run_slots_stats chat islower isupper upper
                (slots_of root1 []) t1) as [H1 H2].
  simpl in *. lia.
Qed.

(** X17: when the title found ends with a line break and the service
    answers it with a text that is empty once stripped, the title is
    replaced by a lone line break: unlike a slot of the walk, the title does
    not keep its text after such an answer. *)
Theorem blank_answer_erases_title (root : Element) (t : LLMTranslator W)
    (title : Element) (s content : str) :
  islower 10%N = false ->
  book_title_of root = Some title ->
  text title = Some s ->
  truthy (strip s) = true ->
  endswith s newline = true ->
  translation_cache t !! (s, u "book-title") = None ->
  snd (chat (world t) (create_translation_prompt s (u "book-title")))
    = Some content ->
  strip content = [] ->
  book_title_of (fst (@update_document_metadata _ llm2 root t))
    = Some (set_text (Some newline) title).
Proof.
  intros Hnl Hb Hs Ht Hend Hc Hans Hblank.
  destruct (@title_after_update _ llm2 root t) as [-> _].
  rewrite Hb. simpl. f_equal. unfold update_book_title. rewrite Hs.
  pose proof (truthy_strip _ Ht) as Ht'. rewrite Ht'.
  change (@translate_text _ llm2) with translate2.
  rewrite translate_cases, Hc by done.
  destruct (chat (world t) _) as [w' r]. simpl in Hans. subst r.
  rewrite Hblank.
  assert (enhance_translation islower isupper upper s [] = newline) as ->.
  { unfold enhance_translation. simpl. rewrite Hend.
    replace (endswith [] newline) with false by done. simpl.
    destruct s as [|o0 s']; [done|]. unfold newline. by rewrite Hnl. }
  done.
Qed.

End MetadataProvider.

(** A FictionBook whose title is one letter followed by a line break. *)
Definition titled : Element :=
  mkElement (fb2 "FictionBook") [] None
    [mkElement (fb2 "description") [] None
       [mkElement (fb2 "title-info") [] None
          [mkElement (fb2 "book-title") [] (Some (u "Я" ++ newline)) [] None;
           mkElement (fb2 "lang") [] (Some (u "ru")) [] None] None] None]
    None.

Lemma metadata_without_title_info_witness :
  title_info_of two_level = None
  /\ @update_document_metadata _ (basic_translator (canned (u "x")))
       two_level (new_translator tt) = (two_level, new_translator tt).
Proof.
  split; [reflexivity|].
  exact (@metadata_without_title_info _ (basic_translator (canned (u "x")))
           two_level (new_translator tt) eq_refl).
Defined.

Lemma metadata_sets_lang_witness :
  lang_of titled = Some (mkElement (fb2 "lang") [] (Some (u "ru")) [] None)
  /\ lang_of (fst (@update_document_metadata _ (basic_translator down)
                     titled (new_translator tt)))
     = Some (mkElement (fb2 "lang") [] (Some (u "sr")) [] None).
Proof.
  assert (H : lang_of titled
              = Some (mkElement (fb2 "lang") [] (Some (u "ru")) [] None)).
  { by vm_compute. }
  split; [exact H|].
  pose proof (@metadata_sets_lang _ (basic_translator down) titled
                (new_translator tt) _ H) as E.
  etrans; [exact E|]. reflexivity.
Defined.

Lemma metadata_translates_title_witness :
  book_title_of titled
    = Some (mkElement (fb2 "book-title") [] (Some (u "Я" ++ newline)) [] None)
  /\ truthy (u "Я" ++ newline) = true
  /\ fst (@translate_text _ (basic_translator (canned (u "Ja")))
            (new_translator tt) (u "Я" ++ newline) (u "book-title"))
     = Some (u "Ja" ++ newline)
  /\ book_title_of (fst (@update_document_metadata _
                           (basic_translator (canned (u "Ja")))
                           titled (new_translator tt)))
     = Some (mkElement (fb2 "book-title") [] (Some (u "Ja" ++ newline))
               [] None).
Proof.
  split; [by vm_compute|]. split; [reflexivity|]. split; [by vm_compute|].
  destruct (@metadata_translates_title _ (basic_translator (canned (u "Ja")))
    titled (new_translator tt)
    (snd (@translate_text _ (basic_translator (canned (u "Ja")))
            (new_translator tt) (u "Я" ++ newline) (u "book-title")))
    (mkElement (fb2 "book-title") [] (Some (u "Я" ++ newline)) [] None)
    (u "Я" ++ newline) (u "Ja" ++ newline)) as [E _].
  - by vm_compute.
  - reflexivity.
  - reflexivity.
  - by vm_compute.
  - reflexivity.
  - etrans; [exact E|]. reflexivity.
Defined.

Lemma blank_answer_erases_title_witness :
  basic_islower 10%N = false
  /\ book_title_of titled
     = Some (mkElement (fb2 "book-title") [] (Some (u "Я" ++ newline)) [] None)
  /\ endswith (u "Я" ++ newline) newline = true
  /\ book_title_of (fst (@update_document_metadata _
                           (basic_translator (canned []))
                           titled (new_translator tt)))
     = Some (mkElement (fb2 "book-title") [] (Some newline) [] None).
Proof.
  split; [reflexivity|]. split; [by vm_compute|]. split; [reflexivity|].
  pose proof (blank_answer_erases_title (canned []) basic_islower
    basic_isupper basic_upper titled (new_translator tt)
    (mkElement (fb2 "book-title") [] (Some (u "Я" ++ newline)) [] None)
    (u "Я" ++ newline) []) as E.
  etrans; [apply E|reflexivity].
  - reflexivity.
  - by vm_compute.
  - reflexivity.
  - reflexivity.
  - reflexivity.
  - by vm_compute.
  - reflexivity.
  - reflexivity.
Defined.

(** ** Whole runs

    A run of [process_fb2_structure] hands the parsed document to
    [update_document_metadata] and then to the walk, with one translator. *)

(** A FictionBook with a title, a language and one paragraph. *)
Definition novel : Element :=
  mkElement (fb2 "FictionBook") [] None
    [mkElement (fb2 "description") [] None
       [mkElement (fb2 "title-info") [] None
          [mkElement (fb2 "book-title") [] (Some (u "Война и мир")) [] None;
           mkElement (fb2 "lang") [] (Some (u "ru")) [] None] None] None;
     mkElement (fb2 "body") [] None
       [mkElement (fb2 "p") [] (Some (u "Привет мир")) [] None] None]
    None.

(** The pairs submitted to [translate_text] by a whole run started in state
    [t]: those of the metadata update, then those of the walk. *)
Definition submitted_run {T : Type} `{Translator T}
    (root : Element) (t : T) : list (str * str) :=
  map call_unit (calls (snd (translate_tree root (mkTraced t [])))).

(** The pair the metadata update submits: the body of the title it finds,
    as stored, when that body is not empty. *)
Definition title_unit (root : Element) : list (str * str) :=
  match book_title_of root ≫= text with
  | Some s => if truthy s then [(s, u "book-title")] else []
  | None => []
  end.

Section FoundFirst.
Context {T : Type} `{Translator T}.

Lemma first_among_found tg (f : Element -> T -> Element * T) cs (t : T) :
  Forall (fun e => on_first_descendant tg f e t = None ->
                   find_descendant tg e = None) cs ->
  first_among tg f cs t = None -> find_among tg cs = None.
Proof.
  induction 1 as [|c cs Hc _ IH]; [done|]. simpl.
  case_bool_decide; [by destruct (f c t)|].
  destruct (on_first_descendant tg f c t) as [[c' t']|] eqn:E; [done|].
  rewrite (Hc eq_refl).
  destruct (first_among tg f cs t) as [[l' t']|]; [done|].
  intros _. by apply IH.
Qed.

Lemma on_first_descendant_found tg (f : Element -> T -> Element * T) e :
  forall t : T,
    on_first_descendant tg f e t = None -> find_descendant tg e = None.
Proof.
  induction e as [tg0 ats tx cs tl IH] using Element_nested_ind.
  intros t. rewrite find_descendant_eq, on_first_descendant_eq.
  destruct (first_among tg f cs t) as [[cs' t']|] eqn:E; [done|].
  intros _. apply (first_among_found tg f cs t); [|done].
  eapply Forall_impl; [exact IH|]. intros x Hx. apply Hx.
Qed.

End FoundFirst.

(** *** Two translators on one document *)

Section MetadataAgree.
Context {T1 T2 : Type}.
Variable I1 : Translator T1.
Variable I2 : Translator T2.

Lemma on_first_child_agree tg (f1 : Element -> T1 -> Element * T1)
    (f2 : Element -> T2 -> Element * T2) cs (a : T1) (b : T2) :
  (forall x, find_child tg cs = Some x -> fst (f1 x a) = fst (f2 x b)) ->
  fst (on_first_child tg f1 cs a) = fst (on_first_child tg f2 cs b).
Proof.
  unfold find_child. induction cs as [|c cs IH]; [done|]. simpl.
  case_bool_decide as Hc; intros Hx.
  - specialize (Hx c eq_refl).
    destruct (f1 c a) as [c1 a1]. destruct (f2 c b) as [c2 b2].
    simpl in *. by subst.
  - specialize (IH Hx).
    destruct (on_first_child tg f1 cs a) as [l1 a1].
    destruct (on_first_child tg f2 cs b) as [l2 b2].
    simpl in *. by subst.
Qed.

Lemma first_among_agree tg (f1 : Element -> T1 -> Element * T1)
    (f2 : Element -> T2 -> Element * T2) cs (a : T1) (b : T2) :
  Forall (fun e =>
    (forall d, find_descendant tg e = Some d -> fst (f1 d a) = fst (f2 d b)) ->
    fst <$> on_first_descendant tg f1 e a
      = fst <$> on_first_descendant tg f2 e b) cs ->
  (forall d, find_among tg cs = Some d -> fst (f1 d a) = fst (f2 d b)) ->
  fst <$> first_among tg f1 cs a = fst <$> first_among tg f2 cs b.
Proof.
  induction 1 as [|c cs Hc _ IH]; [done|]. simpl.
  case_bool_decide as Htag; intros Hd.
  - specialize (Hd c eq_refl).
    destruct (f1 c a) as [c1 a1]. destruct (f2 c b) as [c2 b2].
    simpl in *. by subst.
  - destruct (find_descendant tg c) as [d0|] eqn:Ed.
    + assert (E : fst <$> on_first_descendant tg f1 c a
                  = fst <$> on_first_descendant tg f2 c b).
      { apply Hc. by intros d [= <-]; apply Hd. }
      destruct (on_first_descendant tg f1 c a) as [[c1 a1]|] eqn:E1.
      * destruct (on_first_descendant tg f2 c b) as [[c2 b2]|]; [|done].
        simpl in E. injection E as ->. done.
      * apply on_first_descendant_found in E1. congruence.
    + rewrite !on_first_descendant_none by done.
      specialize (IH Hd).
      destruct (first_among tg f1 cs a) as [[l1 a1]|];
        destruct (first_among tg f2 cs b) as [[l2 b2]|]; try done.
      simpl in IH. injection IH as ->. done.
Qed.

Lemma on_first_descendant_agree tg (f1 : Element -> T1 -> Element * T1)
    (f2 : Element -> T2 -> Element * T2) e (a : T1) (b : T2) :
  (forall d, find_descendant tg e = Some d -> fst (f1 d a) = fst (f2 d b)) ->
  fst <$> on_first_descendant tg f1 e a
    = fst <$> on_first_descendant tg f2 e b.
Proof.
  induction e as [tg0 ats tx cs tl IH] using Element_nested_ind.
  rewrite find_descendant_eq, !on_first_descendant_eq. intros Hd.
  pose proof (first_among_agree tg f1 f2 cs a b IH Hd) as E.
  destruct (first_among tg f1 cs a) as [[l1 a1]|];
    destruct (first_among tg f2 cs b) as [[l2 b2]|]; try done.
  simpl in E. injection E as ->. done.
Qed.

Lemma update_book_title_agree x (a : T1) (b : T2) :
  (forall s, text x = Some s -> truthy s = true ->
     fst (@translate_text _ I1 a s (u "book-title"))
       = fst (@translate_text _ I2 b s (u "book-title"))) ->
  fst (@update_book_title _ I1 x a) = fst (@update_book_title _ I2 x b).
Proof.
  intros Hs. unfold update_book_title.
  destruct (text x) as [s|]; [|done].
  destruct (truthy s) eqn:Et; [|done].
  specialize (Hs s eq_refl Et).
  destruct (@translate_text _ I1 a s _) as [r1 a1].
  destruct (@translate_text _ I2 b s _) as [r2 b2].
  simpl in Hs. subst r2. by destruct (truthy_opt r1).
Qed.

Lemma update_title_info_agree ti (a : T1) (b : T2) :
  (forall s, find_child (fb2 "book-title") (children ti) ≫= text = Some s ->
     truthy s = true ->
     fst (@translate_text _ I1 a s (u "book-title"))
       = fst (@translate_text _ I2 b s (u "book-title"))) ->
  fst (@update_title_info _ I1 ti a) = fst (@update_title_info _ I2 ti b).
Proof.
  intros Hs. unfold update_title_info.
  pose proof (on_first_child_agree (fb2 "lang") update_lang update_lang
                (children ti) a b (fun x _ => eq_refl)) as El.
  pose proof (on_first_child_lang_state (children ti) a) as Ea.
  pose proof (on_first_child_lang_state (children ti) b) as Eb.
  pose proof (on_first_child_other (fb2 "lang") (fb2 "book-title")
                update_lang (children ti) a update_lang_keeps_tag
                fb2_lang_title) as Ef.
  destruct (on_first_child (fb2 "lang") update_lang (children ti) a)
    as [cs1 a1].
  destruct (on_first_child (fb2 "lang") update_lang (children ti) b)
    as [cs1' b1].
  simpl in El, Ea, Eb, Ef. subst cs1' a1 b1.
  pose proof (on_first_child_agree (fb2 "book-title")
                (@update_book_title _ I1) (@update_book_title _ I2)
                cs1 a b) as Et.
  destruct (on_first_child (fb2 "book-title") _ cs1 a) as [cs2 a2].
  destruct (on_first_child (fb2 "book-title") _ cs1 b) as [cs2' b2].
  simpl in Et. rewrite Et; [done|].
  intros x Hx. apply update_book_title_agree. intros s Htx.
  apply Hs. rewrite <- Ef, Hx. exact Htx.
Qed.

Lemma update_description_agree d (a : T1) (b : T2) :
  (forall s,
     (find_child (fb2 "title-info") (children d)
        ≫= fun ti => find_child (fb2 "book-title") (children ti))
       ≫= text = Some s ->
     truthy s = true ->
     fst (@translate_text _ I1 a s (u "book-title"))
       = fst (@translate_text _ I2 b s (u "book-title"))) ->
  fst (@update_description _ I1 d a) = fst (@update_description _ I2 d b).
Proof.
  intros Hs. unfold update_description.
  pose proof (on_first_child_agree (fb2 "title-info")
                (@update_title_info _ I1) (@update_title_info _ I2)
                (children d) a b) as Et.
  destruct (on_first_child (fb2 "title-info") _ (children d) a) as [cs a1].
  destruct (on_first_child (fb2 "title-info") _ (children d) b) as [cs' b1].
  simpl in Et. rewrite Et; [done|].
  intros ti Hti. apply update_title_info_agree. intros s Htx.
  apply Hs. by rewrite Hti.
Qed.

(** The document the metadata update leaves depends on the translator
    through the result of the call for the title only. *)
Lemma update_document_metadata_agree root (a : T1) (b : T2) :
  (forall s, book_title_of root ≫= text = Some s -> truthy s = true ->
     fst (@translate_text _ I1 a s (u "book-title"))
       = fst (@translate_text _ I2 b s (u "book-title"))) ->
  fst (@update_document_metadata _ I1 root a)
    = fst (@update_document_metadata _ I2 root b).
Proof.
  intros Hs. unfold update_document_metadata.
  pose proof (on_first_descendant_agree (fb2 "description")
                (@update_description _ I1) (@update_description _ I2)
                root a b) as Ed.
  destruct (on_first_descendant (fb2 "description") _ root a) as [[r1 a1]|];
    destruct (on_first_descendant (fb2 "description") _ root b)
      as [[r2 b2]|]; simpl in *.
  - assert (Some r1 = Some r2) as [= ->]; [|done].
    apply Ed. intros d Hd. apply update_description_agree. intros s Htx.
    apply Hs. unfold book_title_of, title_info_of. by rewrite Hd.
  - assert (Some r1 = None); [|done].
    apply Ed. intros d Hd. apply update_description_agree. intros s Htx.
    apply Hs. unfold book_title_of, title_info_of. by rewrite Hd.
  - assert (None = Some r2); [|done].
    apply Ed. intros d Hd. apply update_description_agree. intros s Htx.
    apply Hs. unfold book_title_of, title_info_of. by rewrite Hd.
  - done.
Qed.

End MetadataAgree.

(** *** The calls of a run *)

Section RunCalls.
Context {T : Type} `{Translator T}.

(** Tracing does not change the metadata update. *)
Lemma update_document_metadata_traced root (t : T) log :
  fst (update_document_metadata root (mkTraced t log))
    = fst (update_document_metadata root t).
Proof.
  apply update_document_metadata_agree. intros s _ _.
  cbn [translate_text traced_translator inner].
  by destruct (translate_text t s (u "book-title")).
Qed.

(** The calls the metadata update makes. *)
Lemma update_document_metadata_calls root (t : T) :
  map call_unit (calls (snd (update_document_metadata root (mkTraced t []))))
    = title_unit root.
Proof.
  destruct (title_after_update root (mkTraced t [])) as [_ ->].
  unfold title_unit. destruct (book_title_of root) as [b|]; [|done].
  simpl. unfold update_book_title. destruct (text b) as [s|]; [|done].
  destruct (truthy s); [|done].
  cbn [translate_text traced_translator inner calls].
  destruct (translate_text t s (u "book-title")) as [r t'].
  by destruct (truthy_opt r).
Qed.

(** The calls of a run: the one for the title, then those of the walk over
    the document the metadata update left. *)
Lemma submitted_run_units root (t : T) :
  submitted_run root t
    = title_unit root ++ units (fst (update_document_metadata root t)) [].
Proof.
  unfold submitted_run, translate_tree.
  pose proof (update_document_metadata_traced root t []) as E1.
  pose proof (update_document_metadata_calls root t) as E2.
  destruct (update_document_metadata root (mkTraced t [])) as [root1 [t1 log]].
  simpl in E1, E2. subst root1.
  destruct (walk_slots (fst (update_document_metadata root t)) []
              (mkTraced t1 log)) as [_ ->].
  destruct (run_slots_traced
              (slots_of (fst (update_document_metadata root t)) []) t1 log)
    as (_ & _ & new & -> & E).
  by rewrite map_app, E2, E.
Qed.

End RunCalls.

(** C5, as the code has it (counterexample to the claim): one document and
    one service that raises on its first call and answers afterwards.  A
    run that starts with the service's first call and a run that starts
    after it submit different sequences of pairs: the title is submitted
    by the metadata update ahead of the walk, with the context
    [book-title], and the walk then submits the body of the title element
    again, as that call left it.  The body of the title is thus submitted
    twice, the first time before the bodies of the elements above it. *)
Lemma run_sequence_follows_title_answer :
  @submitted_run _ (basic_translator (flaky (u "Rat i mir"))) novel
     (new_translator 0)
    = [(u "Война и мир", u "book-title");
       (u "Война и мир",
        join (u "/") [fb2 "description"; fb2 "title-info"; fb2 "book-title"]);
       (u "Привет мир", join (u "/") [fb2 "body"; fb2 "p"])]
  /\ @submitted_run _ (basic_translator (flaky (u "Rat i mir"))) novel
       (new_translator 1)
    = [(u "Война и мир", u "book-title");
       (u "Rat i mir",
        join (u "/") [fb2 "description"; fb2 "title-info"; fb2 "book-title"]);
       (u "Привет мир", join (u "/") [fb2 "body"; fb2 "p"])]
  /\ @submitted_run _ (basic_translator (flaky (u "Rat i mir"))) novel
       (new_translator 0)
     <> @submitted_run _ (basic_translator (flaky (u "Rat i mir"))) novel
          (new_translator 1).
Proof.
  split; [by vm_compute|]. split; [by vm_compute|].
  vm_compute. discriminate.
Qed.

(** C5, amended: the pairs a run submits are, first, the body of the book
    title as stored, with the context [book-title], when the document has a
    title with a non-empty body; then the pairs of the walk over the
    document as the metadata update left it, started in the state that
    update left.  That document depends on the run through the result of
    the call for the title only, so two runs on one document submit the
    same pairs in the same order whenever that call returns the same result
    in both (as when there is no title to submit), whatever the translators
    are.  The pairs of a walk depend on the document walked alone, and they
    come in pre-order: the unit of the body of a node, then what the walks
    of its children submit, first child first, then the unit of its tail;
    every node contributes its two slots once, in document order. *)
Theorem run_sequence_determined {T1 T2 : Type}
    `{Translator T1} `{Translator T2}
    (root : Element) (t1 : T1) (t2 : T2) :
  submitted_run root t1
    = title_unit root
      ++ submitted (fst (update_document_metadata root t1)) []
           (snd (update_document_metadata root t1))
  /\ ((forall s, book_title_of root ≫= text = Some s -> truthy s = true ->
         fst (translate_text t1 s (u "book-title"))
           = fst (translate_text t2 s (u "book-title"))) ->
      submitted_run root t1 = submitted_run root t2)
  /\ forall (doc : Element) (c : str),
       submitted doc c t1 = submitted doc c t2
       /\ submitted doc c t1
          = unit_of (text doc, c)
            ++ flat_map
                 (fun child =>
                    submitted child (child_context c (tag child)) t1)
                 (children doc)
            ++ unit_of (tail doc, tail_context c)
       /\ map fst (slots_of doc c) = texts_of doc
       /\ length (slots_of doc c) = 2 * node_count doc.
Proof.
  split; [by rewrite submitted_run_units, submitted_units|].
  split.
  - intros Hs. rewrite !submitted_run_units.
    by rewrite (update_document_metadata_agree _ _ root t1 t2 Hs).
  - intros doc c. split; [by rewrite !submitted_units|].
    split; [|split; [apply slots_texts | apply slots_count]].
    rewrite submitted_units. destruct doc as [tg ats tx cs tl].
    unfold units. cbn [slots_of flat_map text tail children tag].
    rewrite flat_map_app. cbn [flat_map]. rewrite app_nil_r.
    f_equal. f_equal.
    induction cs as [|x cs IH]; [done|].
    cbn [flat_map]. rewrite flat_map_app, IH.
    by rewrite submitted_units.
Qed.

(** The same on a book with the title [Война и мир], for a translator with
    the cache and one without, with a service that always answers
    [Rat i mir]. *)
Lemma run_sequence_determined_witness :
  (forall s, book_title_of novel ≫= text = Some s -> truthy s = true ->
     fst (@translate_text _ (basic_translator (canned (u "Rat i mir")))
            (new_translator tt) s (u "book-title"))
       = fst (@translate_text _ (basic_nocache (canned (u "Rat i mir")))
                (new_translator tt) s (u "book-title")))
  /\ @submitted_run _ (basic_translator (canned (u "Rat i mir"))) novel
       (new_translator tt)
     = @submitted_run _ (basic_nocache (canned (u "Rat i mir"))) novel
         (new_translator tt).
Proof.
  assert (Hs : forall s, book_title_of novel ≫= text = Some s ->
             truthy s = true ->
             fst (@translate_text _ (basic_translator (canned (u "Rat i mir")))
                    (new_translator tt) s (u "book-title"))
             = fst (@translate_text _ (basic_nocache (canned (u "Rat i mir")))
                      (new_translator tt) s (u "book-title"))).
  { intros s Hb _. vm_compute in Hb. injection Hb as <-. by vm_compute. }
  split; [exact Hs|].
  exact (proj1 (proj2 (@run_sequence_determined _ _
                         (basic_translator (canned (u "Rat i mir")))
                         (basic_nocache (canned (u "Rat i mir")))
                         novel (new_translator tt) (new_translator tt))) Hs).
Defined.

(** *** A run with the cache and a run without *)

Section RunSimulation.
Context {T1 T2 : Type}.
Variable I1 : Translator T1.
Variable I2 : Translator T2.
Variable R : T1 -> T2 -> Prop.
Hypothesis R_total : forall a b,
  R a b -> R (@incr_total _ I1 a) (@incr_total _ I2 b).
Hypothesis R_translate : forall a b text ctx,
  R a b ->
  fst (@translate_text _ I1 a text ctx) = fst (@translate_text _ I2 b text ctx)
  /\ R (snd (@translate_text _ I1 a text ctx))
       (snd (@translate_text _ I2 b text ctx)).

Lemma update_document_metadata_sim root a b :
  R a b ->
  fst (@update_document_metadata _ I1 root a)
    = fst (@update_document_metadata _ I2 root b)
  /\ R (snd (@update_document_metadata _ I1 root a))
       (snd (@update_document_metadata _ I2 root b)).
Proof.
  intros HR. split.
  - apply update_document_metadata_agree. intros s _ _.
    by apply R_translate.
  - destruct (@title_after_update _ I1 root a) as [_ ->].
    destruct (@title_after_update _ I2 root b) as [_ ->].
    destruct (book_title_of root) as [bt|]; [|done].
    unfold update_book_title. destruct (text bt) as [s|]; [|done].
    destruct (truthy s); [|done].
    destruct (R_translate a b s (u "book-title") HR) as [E1 E2].
    destruct (@translate_text _ I1 a s _) as [r1 a1].
    destruct (@translate_text _ I2 b s _) as [r2 b2].
    simpl in *. subst r2. by destruct (truthy_opt r1).
Qed.

Lemma translate_tree_sim root a b :
  R a b ->
  fst (@translate_tree _ I1 root a) = fst (@translate_tree _ I2 root b).
Proof.
  intros HR. unfold translate_tree.
  destruct (update_document_metadata_sim root a b HR) as [E1 E2].
  destruct (@update_document_metadata _ I1 root a) as [r1 a1].
  destruct (@update_document_metadata _ I2 root b) as [r2 b2].
  simpl in E1, E2. subst r2.
  exact (proj1 (walk_sim I1 I2 R R_total R_translate r1 [] a1 b2 E2)).
Qed.

End RunSimulation.

Section StateAt.
Context {T : Type} `{Translator T}.

(** The state at a later slot is reached by running the slots between. *)
Lemma state_at_add doc c (t : T) i k :
  state_at doc c t (i + k)
    = snd (run_slots (take k (drop i (slots_of doc c))) (state_at doc c t i)).
Proof.
  unfold state_at. rewrite <- take_take_drop, run_slots_app.
  destruct (run_slots (take i (slots_of doc c)) t) as [r1 t1].
  cbn [snd]. by destruct (run_slots (take k (drop i (slots_of doc c))) t1).
Qed.

End StateAt.

Section CacheClaims.
Context {W : Type}.
Variable chat : W -> str -> W * option str.
Variables islower isupper : char -> bool.
Variable upper : char -> str.

Abbreviation llm3 := (llm_translator chat islower isupper upper).
Abbreviation nocache3 := (nocache_translator chat islower isupper upper).
Abbreviation translate3 := (llm_translate_text chat islower isupper upper).
Abbreviation enhance3 := (enhance_translation islower isupper upper).
(** The state in which the walk calls [translate_text] for slot [i]: it has
    just added one to [total]. *)
Abbreviation at_call doc c t i :=
  (@incr_total _ llm3 (@state_at _ llm3 doc c t i)).

(** A call that returns a result leaves the pair in the cache with that
    result. *)
Lemma call_result_cached (t : LLMTranslator W) x ctx v :
  truthy x = true -> truthy (strip x) = true ->
  fst (translate3 t x ctx) = Some v ->
  translation_cache (snd (translate3 t x ctx)) !! (x, ctx) = Some v.
Proof.
  intros H1 H2. rewrite translate_cases by done.
  destruct (translation_cache t !! (x, ctx)) as [hit|] eqn:Hc.
  - simpl. by intros [= <-].
  - destruct (chat (world t) _) as [w' [content|]]; [|done].
    simpl. intros [= <-]. by rewrite lookup_insert_eq.
Qed.

(** A call returns [None] only when the pair is not in the cache and the
    service raises; the cache is then left as it was. *)
Lemma call_raised (t : LLMTranslator W) x ctx :
  truthy x = true -> truthy (strip x) = true ->
  fst (translate3 t x ctx) = None ->
  translation_cache t !! (x, ctx) = None
  /\ snd (chat (world t) (create_translation_prompt x ctx)) = None
  /\ translation_cache (snd (translate3 t x ctx)) = translation_cache t.
Proof.
  intros H1 H2. rewrite translate_cases by done.
  destruct (translation_cache t !! (x, ctx)) as [hit|] eqn:Hc; [done|].
  by destruct (chat (world t) _) as [w' [content|]].
Qed.

(** Slots with other units leave the entry of a pair as it is. *)
Lemma translate_slot_cache_other slot c (t : LLMTranslator W) x k :
  (x, k) ∉ unit_of (slot, c) ->
  translation_cache (snd (@translate_slot _ llm3 slot c t)) !! (x, k)
    = translation_cache t !! (x, k).
Proof.
  intros Hn. destruct (qualifies slot) eqn:Hq.
  - destruct slot as [s|]; [|done].
    rewrite (@translate_slot_unit _ llm3) by done.
    destruct (qualifies_truthy s Hq) as [H1 H2].
    change (@translate_text _ llm3) with translate3.
    rewrite translate_cases by done.
    cbn [unit_of] in Hn. rewrite Hq in Hn.
    apply not_elem_of_cons in Hn as [Hne _].
    cbn [incr_total llm_translator translation_cache world
         translation_stats].
    destruct (translation_cache t !! (strip s, c)); [done|].
    destruct (chat (world t) _) as [w' [content|]]; [|done].
    simpl. by rewrite lookup_insert_ne by done.
  - by rewrite (@translate_slot_skip _ llm3) by done.
Qed.

Lemma run_slots_cache_other l : forall (t : LLMTranslator W) x k,
  (x, k) ∉ flat_map unit_of l ->
  translation_cache (snd (@run_slots _ llm3 l t)) !! (x, k)
    = translation_cache t !! (x, k).
Proof.
  induction l as [|[s c] l IH]; intros t x k Hn; [done|].
  cbn [flat_map] in Hn. apply not_elem_of_app in Hn as [Hn1 Hn2].
  cbn [run_slots].
  pose proof (translate_slot_cache_other s c t x k Hn1) as E1.
  destruct (@translate_slot _ llm3 s c t) as [s' t1].
  specialize (IH t1 x k Hn2).
  destruct (@run_slots _ llm3 l t1) as [r t2]. simpl in *.
  by rewrite IH.
Qed.

(** The state after a qualifying slot is the one its call leaves. *)
Lemma state_after_call doc c (t : LLMTranslator W) i s ctx :
  slots_of doc c !! i = Some (Some s, ctx) ->
  qualifies (Some s) = true ->
  @state_at _ llm3 doc c t (S i)
    = snd (translate3 (at_call doc c t i) (strip s) ctx).
Proof.
  intros Hi Hq.
  rewrite (state_at_succ chat islower isupper upper doc c t i _ _ Hi).
  rewrite (@translate_slot_unit _ llm3) by done.
  change (@translate_text _ llm3) with translate3.
  by destruct (translate3 _ (strip s) ctx).
Qed.

(** What a qualifying slot holds after the walk. *)
Lemma slot_after_walk doc c (t : LLMTranslator W) i s ctx :
  slots_of doc c !! i = Some (Some s, ctx) ->
  qualifies (Some s) = true ->
  texts_of (fst (@process_element_translations _ llm3 doc c t)) !! i
    = Some (let r := fst (translate3 (at_call doc c t i) (strip s) ctx) in
            if truthy_opt r then r else Some s).
Proof.
  intros Hi Hq. rewrite (@walk_slot_at _ llm3 doc c t i _ _ Hi).
  rewrite (@translate_slot_unit _ llm3) by done.
  change (@translate_text _ llm3) with translate3.
  by destruct (translate3 _ (strip s) ctx).
Qed.

(** With a service whose answer depends on the prompt alone, the provider
    with the cache and the provider without it answer alike as long as the
    cache holds what the service answers. *)
Lemma cache_sim_translate (answer : str -> option str)
    (a b : LLMTranslator W) x k :
  (forall w prompt, snd (chat w prompt) = answer prompt) ->
  (forall x k v, translation_cache a !! (x, k) = Some v ->
     exists content,
       answer (create_translation_prompt x k) = Some content
       /\ v = enhance3 x (strip content)) ->
  fst (@translate_text _ llm3 a x k) = fst (@translate_text _ nocache3 b x k)
  /\ (forall x' k' v,
        translation_cache (snd (@translate_text _ llm3 a x k)) !! (x', k')
          = Some v ->
        exists content,
          answer (create_translation_prompt x' k') = Some content
          /\ v = enhance3 x' (strip content)).
Proof.
  intros Hdet Ha.
  cbn [translate_text llm_translator nocache_translator].
  unfold llm_translate_text, nocache_translate_text.
  destruct (negb (truthy x) || negb (truthy (strip x))); [done|].
  pose proof (Hdet (world a) (create_translation_prompt x k)) as Da.
  pose proof (Hdet (world b) (create_translation_prompt x k)) as Db.
  destruct (translation_cache a !! (x, k)) as [v|] eqn:Hc.
  - destruct (Ha _ _ _ Hc) as (content & Hans & ->).
    destruct (chat (world b) _) as [wb rb]. simpl in Db. subst rb.
    rewrite Hans. done.
  - destruct (chat (world a) _) as [wa ra]. simpl in Da. subst ra.
    destruct (chat (world b) _) as [wb rb]. simpl in Db. subst rb.
    destruct (answer _) as [content|] eqn:Hans; [|done].
    split; [done|]. cbn [snd translation_cache].
    intros x' k' v'. destruct (decide ((x, k) = (x', k'))) as [E|NE].
    + injection E as <- <-. rewrite lookup_insert_eq.
      intros [= <-]. by exists content.
    + rewrite lookup_insert_ne by done. apply Ha.
Qed.

(** C9, amended: take two slots of the document walked that give the same
    pair, slot [i] and a later slot [S i + k].  When the call made for slot
    [i] returned a result, the call made for the later slot returns that
    result from the cache, whatever the service would answer: the state of
    the service and the cache are as they were and the call is counted
    under [cached]; when the result is not empty both slots hold it after
    the walk.  When the call made for slot [i] raised (it returned [None])
    and no slot between the two gives the pair, the pair is not in the
    cache when the later slot is reached and the call made for it goes to
    the service again: its result and the new state are what the service
    gives then.  Last, with a service whose answer depends on the prompt
    alone, and a cache that holds at the start only what that service
    answers, the walk with the cache and the walk without it return the
    same document, and so do the whole runs. *)
Theorem cache_is_transparent
    (doc : Element) (c : str) (t t' : LLMTranslator W) :
  (forall (i k : nat) (s1 s2 ctx : str),
     slots_of doc c !! i = Some (Some s1, ctx) ->
     slots_of doc c !! (S i + k) = Some (Some s2, ctx) ->
     strip s2 = strip s1 ->
     qualifies (Some s1) = true ->
     (forall v,
        fst (translate3 (at_call doc c t i) (strip s1) ctx) = Some v ->
        translate3 (at_call doc c t (S i + k)) (strip s1) ctx
          = (Some v,
             mkLLM (world (at_call doc c t (S i + k)))
               (translation_cache (at_call doc c t (S i + k)))
               (bump_cached (translation_stats (at_call doc c t (S i + k)))))
        /\ (truthy v = true ->
            texts_of (fst (@process_element_translations _ llm3 doc c t))
              !! i = Some (Some v)
            /\ texts_of (fst (@process_element_translations _ llm3 doc c t))
                 !! (S i + k) = Some (Some v)))
     /\ (fst (translate3 (at_call doc c t i) (strip s1) ctx) = None ->
         (strip s1, ctx)
           ∉ flat_map unit_of (take k (drop (S i) (slots_of doc c))) ->
         translation_cache (at_call doc c t (S i + k)) !! (strip s1, ctx)
           = None
         /\ translate3 (at_call doc c t (S i + k)) (strip s1) ctx
            = match chat (world (at_call doc c t (S i + k)))
                      (create_translation_prompt (strip s1) ctx) with
              | (w', Some content) =>
                (Some (enhance3 (strip s1) (strip content)),
                 mkLLM w'
                   (<[(strip s1, ctx) := enhance3 (strip s1) (strip content)]>
                      (translation_cache (at_call doc c t (S i + k))))
                   (bump_translated
                      (translation_stats (at_call doc c t (S i + k)))))
              | (w', None) =>
                (None,
                 mkLLM w' (translation_cache (at_call doc c t (S i + k)))
                   (bump_errors
                      (translation_stats (at_call doc c t (S i + k)))))
              end))
  /\ (forall answer : str -> option str,
        (forall w prompt, snd (chat w prompt) = answer prompt) ->
        (forall x k v, translation_cache t !! (x, k) = Some v ->
           exists content,
             answer (create_translation_prompt x k) = Some content
             /\ v = enhance3 x (strip content)) ->
        fst (@process_element_translations _ llm3 doc c t)
          = fst (@process_element_translations _ nocache3 doc c t')
        /\ fst (@translate_tree _ llm3 doc t)
           = fst (@translate_tree _ nocache3 doc t')).
Proof.
  split.
  - intros i k s1 s2 ctx Hi Hj Hstrip Hq.
    assert (Hq2 : qualifies (Some s2) = true) by (simpl in *; congruence).
    destruct (qualifies_truthy s1 Hq) as [H1 H2].
    pose proof (state_after_call doc c t i s1 ctx Hi Hq) as Ei.
    pose proof (@state_at_add _ llm3 doc c t (S i) k) as Ej.
    split.
    + intros v Hv.
      assert (Hin : translation_cache (at_call doc c t (S i + k))
                      !! (strip s1, ctx) = Some v).
      { cbn [incr_total llm_translator translation_cache].
        rewrite Ej.
        eapply lookup_weaken;
          [|apply (run_slots_cache_mono chat islower isupper upper)].
        rewrite Ei. by apply call_result_cached. }
      split.
      * rewrite translate_cases by done. by rewrite Hin.
      * intros Hv'.
        rewrite (slot_after_walk doc c t i s1 ctx Hi Hq).
        rewrite (slot_after_walk doc c t (S i + k) s2 ctx Hj Hq2).
        rewrite Hstrip.
        rewrite (translate_cases _ _ _ _ (at_call doc c t (S i + k)))
          by done.
        rewrite Hin, Hv. simpl. by rewrite Hv'.
    + intros Hn Hbetween.
      destruct (call_raised _ _ _ H1 H2 Hn) as (Hc & _ & Ekeep).
      assert (Hout : translation_cache (at_call doc c t (S i + k))
                       !! (strip s1, ctx) = None).
      { cbn [incr_total llm_translator translation_cache].
        rewrite Ej, run_slots_cache_other by done.
        by rewrite Ei, Ekeep. }
      split; [done|].
      rewrite translate_cases by done. by rewrite Hout.
  - intros answer Hdet Hcons.
    set (R := fun (a b : LLMTranslator W) =>
                forall x k v, translation_cache a !! (x, k) = Some v ->
                  exists content,
                    answer (create_translation_prompt x k) = Some content
                    /\ v = enhance3 x (strip content)).
    assert (R_total : forall a b,
              R a b -> R (@incr_total _ llm3 a) (@incr_total _ nocache3 b)).
    { intros a b Ha. exact Ha. }
    assert (R_translate : forall a b x k,
              R a b ->
              fst (@translate_text _ llm3 a x k)
                = fst (@translate_text _ nocache3 b x k)
              /\ R (snd (@translate_text _ llm3 a x k))
                   (snd (@translate_text _ nocache3 b x k))).
    { intros a b x k Ha. by apply cache_sim_translate. }
    split.
    + exact (proj1 (walk_sim llm3 nocache3 R R_total R_translate
                      doc c t t' Hcons)).
    + exact (translate_tree_sim llm3 nocache3 R R_total R_translate
               doc t t' Hcons).
Qed.

End CacheClaims.

(** The same on [<root><p>Здраво</p><p>Здраво</p></root>], whose slots 1
    and 3 give the pair ([Здраво], [p]).  With the service whose answers
    vary, both slots hold the first answer after the walk; with the service
    that raises on its first call, the second call goes to the service and
    is answered; with a service that always answers the same, the walk with
    the cache and the walk without it return the same document. *)
Lemma cache_is_transparent_witness :
  slots_of twice [] !! 1 = Some (Some (u "Здраво"), u "p")
  /\ slots_of twice [] !! 3 = Some (Some (u "Здраво"), u "p")
  /\ qualifies (Some (u "Здраво")) = true
  /\ (texts_of (fst (@process_element_translations _
                       (basic_translator varying) twice []
                       (new_translator 0))) !! 1 = Some (Some (u "Prevod"))
      /\ texts_of (fst (@process_element_translations _
                          (basic_translator varying) twice []
                          (new_translator 0))) !! 3
         = Some (Some (u "Prevod")))
  /\ fst (llm_translate_text (flaky (u "Zdravo")) basic_islower
            basic_isupper basic_upper
            (@incr_total _ (basic_translator (flaky (u "Zdravo")))
               (@state_at _ (basic_translator (flaky (u "Zdravo"))) twice []
                  (new_translator 0) 3))
            (u "Здраво") (u "p"))
     = Some (u "Zdravo")
  /\ fst (@process_element_translations _
            (basic_translator (canned (u "Zdravo")))
            twice [] (new_translator tt))
     = fst (@process_element_translations _
              (basic_nocache (canned (u "Zdravo")))
              twice [] (new_translator tt)).
Proof.
  split; [reflexivity|]. split; [reflexivity|]. split; [reflexivity|].
  split; [|split].
  - destruct (cache_is_transparent varying basic_islower basic_isupper
                basic_upper twice [] (new_translator 0) (new_translator 0))
      as [Hhit _].
    destruct (Hhit 1 1 (u "Здраво") (u "Здраво") (u "p")
                eq_refl eq_refl eq_refl eq_refl) as [Hsame _].
    assert (Hv : fst (llm_translate_text varying basic_islower basic_isupper
                        basic_upper
                        (@incr_total _ (basic_translator varying)
                           (@state_at _ (basic_translator varying) twice []
                              (new_translator 0) 1))
                        (strip (u "Здраво")) (u "p")) = Some (u "Prevod"))
      by (by vm_compute).
    assert (Ht : truthy (u "Prevod") = true) by reflexivity.
    destruct (Hsame _ Hv) as [_ Hslots].
    exact (Hslots Ht).
  - destruct (cache_is_transparent (flaky (u "Zdravo")) basic_islower
                basic_isupper basic_upper twice [] (new_translator 0)
                (new_translator 0)) as [Hretry _].
    destruct (Hretry 1 1 (u "Здраво") (u "Здраво") (u "p")
                eq_refl eq_refl eq_refl eq_refl) as [_ Hraised].
    assert (Hn : fst (llm_translate_text (flaky (u "Zdravo")) basic_islower
                        basic_isupper basic_upper
                        (@incr_total _ (basic_translator (flaky (u "Zdravo")))
                           (@state_at _ (basic_translator (flaky (u "Zdravo")))
                              twice [] (new_translator 0) 1))
                        (strip (u "Здраво")) (u "p")) = None)
      by (by vm_compute).
    assert (Hb : (strip (u "Здраво"), u "p")
                 ∉ flat_map unit_of (take 1 (drop 2 (slots_of twice []))))
      by (vm_compute; apply not_elem_of_nil).
    destruct (Hraised Hn Hb) as [_ E].
    assert (Es : strip (u "Здраво") = u "Здраво") by (by vm_compute).
    rewrite Es in E. etrans; [exact (f_equal fst E)|]. by vm_compute.
  - destruct (cache_is_transparent (canned (u "Zdravo")) basic_islower
                basic_isupper basic_upper twice [] (new_translator tt)
                (new_translator tt)) as [_ Hdoc].
    destruct (Hdoc (fun _ => Some (u "Zdravo"))) as [E _].
    + reflexivity.
    + intros x k v Hl. vm_compute in Hl. discriminate.
    + exact E.
Defined.

(** ** Writing: what is touched *)

Section WriteExtras.
Context {W Host : Type}.
Variable chat : W -> str -> W * option str.
Variables islower isupper : char -> bool.
Variable upper : char -> str.
Variable parse_xml : str -> option Element.
Variable et_tostring : Element -> str.
Variable minidom_pretty : str -> option str.
Variable et_write_data : Element -> str.
Variable open_w : Host -> str -> Host * bool.
Variable put : Host -> str -> str -> Host * option nat.

Abbreviation write_file2 := (write_file open_w put).
Abbreviation write_enhanced_xml2 :=
  (write_enhanced_xml et_tostring minidom_pretty et_write_data open_w put).
Abbreviation process_fb2_structure2 :=
  (process_fb2_structure chat islower isupper upper parse_xml et_tostring
     minidom_pretty et_write_data open_w put).




(** X19: when the output file cannot be opened for writing,
    [write_enhanced_xml] raises the error of the fallback and leaves every
    file as it was. *)
Theorem write_enhanced_xml_cannot_open
    (latin : bool) (root : Element) (output_path : str) (m : Machine Host) :
  (forall h, snd (open_w h output_path) = false) ->
  fst (fst (write_enhanced_xml2 latin root output_path m)) = Raise OSError
  /\ files (snd (write_enhanced_xml2 latin root output_path m)) = files m.
Proof.
  intros Hno.
  assert (Hw : forall data m0,
    fst (write_file2 output_path data m0) = Raise OSError
    /\ files (snd (write_file2 output_path data m0)) = files m0).
  { intros data m0. unfold write_file. pose proof (Hno (host m0)) as Hh.
    destruct (open_w (host m0) output_path) as [h1 o]. simpl in Hh.
    by subst o. }
  unfold write_enhanced_xml, pretty_write, standard_write.
  set (root1 := if latin then convert_tree_to_latin root else root).
  destruct (minidom_pretty (et_tostring root1)) as [pretty|].
  - destruct (Hw pretty m) as [E1 E2].
    destruct (write_file2 output_path pretty m) as [r1 m1]. simpl in *.
    subst r1. destruct (Hw (et_write_data root1) m1) as [E3 E4].
    destruct (write_file2 output_path (et_write_data root1) m1) as [r2 m2].
    simpl in *. subst r2. simpl. by rewrite E4.
  - destruct (Hw (et_write_data root1) m) as [E3 E4].
    destruct (write_file2 output_path (et_write_data root1) m) as [r2 m2].
    simpl in *. by subst r2.
Qed.

End WriteExtras.

(** A host on which no file can be opened. *)
Definition read_only (h : unit) (path : str) : unit * bool := (h, false).


Lemma write_enhanced_xml_cannot_open_witness :
  (forall h, snd (read_only h (u "out.fb2")) = false)
  /\ fst (fst (write_enhanced_xml plain_xml accept with_declaration
                 read_only writes_all false two_level (u "out.fb2")
                 sample_machine)) = Raise OSError
  /\ files (snd (write_enhanced_xml plain_xml accept with_declaration
                   read_only writes_all false two_level (u "out.fb2")
                   sample_machine)) = files sample_machine.
Proof.
  split; [reflexivity|].
  exact (write_enhanced_xml_cannot_open plain_xml accept with_declaration
           read_only writes_all false two_level (u "out.fb2") sample_machine
           (fun h => eq_refl)).
Defined.

(** ** Configuration and the command line *)

Module Config.

(** The dataclass [LLMConfig]; [F] stands for Python's [float].  [model] is
    declared a string, but [create_config_from_env] can leave it [None]. *)
Record LLMConfig (F : Type) := mkConfig {
  provider : str;
  model : option str;
  api_key : option str;
  base_url : option str;
  temperature : F;
  max_tokens : option Z
}.
Arguments mkConfig {F} _ _ _ _ _ _.
Arguments provider {F} _.
Arguments model {F} _.
Arguments api_key {F} _.
Arguments base_url {F} _.
Arguments temperature {F} _.
Arguments max_tokens {F} _.

End Config.


(** What ends a call: a value is returned, or an exception that nothing
    catches leaves the function. *)
Inductive failure : Type :=
  | ValueError
  | EOFError
  | ConnectError
  | WriteError.

Inductive outcome (A : Type) : Type :=
  | Done (a : A)
  | Uncaught (e : failure).
Arguments Done {A} _.
Arguments Uncaught {A} _.

(** [a or b] on values that are [None] or a string. *)
Definition py_or (a b : option str) : option str :=
  if truthy_opt a then a else b.

(** [s.startswith(prefix)] *)
Definition startswith (s prefix : str) : bool :=
  bool_decide (take (length prefix) s = prefix).

(** [l.index(x)] for an [x] that [l] may not hold. *)
Fixpoint index_of (x : str) (l : list str) : option nat :=
  match l with
  | [] => None
  | y :: l' => if bool_decide (y = x) then Some 0 else S <$> index_of x l'
  end.

(** The value that follows an option on the command line:
    [if flag in argv: i = argv.index(flag); if i + 1 < len(argv):
    argv[i + 1]]. *)
Definition value_after (flag : str) (argv : list str) : option str :=
  index_of flag argv ≫= fun i => argv !! (i + 1).

(** The key looked up in the environment, the same way in
    [create_config_from_env] and in [main]. *)
Definition env_api_key (env : gmap str str) : option str :=
  py_or (py_or (py_or (py_or (env !! u "LLM_API_KEY")
                         (env !! u "OPENAI_API_KEY"))
                  (env !! u "ANTHROPIC_API_KEY"))
           (env !! u "DEEPSEEK_API_KEY"))
    (env !! u "ZHIPU_API_KEY").

(** The provider names [AdvancedLLMFB2Translator.__init__] accepts. *)
Definition provider_class (name : str) : option ProviderClass :=
  if bool_decide (name = u "openai") then Some OpenAITranslator
  else if bool_decide (name = u "anthropic") then Some AnthropicTranslator
  else if bool_decide (name = u "deepseek") then Some DeepSeekTranslator
  else if bool_decide (name = u "zhipu") then Some ZhipuTranslator
  else if bool_decide (name = u "ollama") then Some OllamaTranslator
  else None.

(** The text [save_default_config] writes: [json.dump] of the default
    configuration with [indent=2]. *)
Definition quoted (s : string) : str := [34%N] ++ u s ++ [34%N].

Definition default_config_json : str :=
  u "{" ++ newline
  ++ u "  " ++ quoted "provider" ++ u ": " ++ quoted "openai" ++ u ","
  ++ newline
  ++ u "  " ++ quoted "model" ++ u ": " ++ quoted "gpt-4" ++ u "," ++ newline
  ++ u "  " ++ quoted "api_key" ++ u ": " ++ quoted "your-api-key-here"
  ++ u "," ++ newline
  ++ u "  " ++ quoted "base_url" ++ u ": null," ++ newline
  ++ u "  " ++ quoted "temperature" ++ u ": 0.3," ++ newline
  ++ u "  " ++ quoted "max_tokens" ++ u ": 4000" ++ newline
  ++ u "}".

Section Main.
Context {W Host F : Type}.
(** The service as a configuration sets it up.  The libraries that reach
    the service read the environment of the process themselves (the client
    of [openai] takes [OPENAI_BASE_URL] when no [base_url] is given), so the
    environment is an argument here and of the constructor below. *)
Variable chat_of :
  gmap str str -> Config.LLMConfig F -> W -> str -> W * option str.
Variables islower isupper : char -> bool.
Variable upper : char -> str.
Variable parse_xml : str -> option Element.
Variable et_tostring : Element -> str.
Variable minidom_pretty : str -> option str.
Variable et_write_data : Element -> str.
Variable open_w : Host -> str -> Host * bool.
Variable put : Host -> str -> str -> Host * option nat.
(** [Path(p).stem] *)
Variable stem : str -> str.
(** [json.load] on the content of a file and [LLMConfig] built from the
    result; [None] when either raises. *)
Variable parse_config : str -> option (Config.LLMConfig F).
(** [float(s)] and [int(s)]; [None] when they raise [ValueError]. *)
Variable parse_float : str -> option F.
Variable parse_int : str -> option Z.
(** The float [0.3]. *)
Variable f0_3 : F.
(** The constructor of a provider class, run in an environment: the state
    of the service once connected, or [None] when the constructor raises. *)
Variable connect :
  ProviderClass -> Config.LLMConfig F -> gmap str str -> option W.

(** [os.getenv(name, default)] *)
Definition getenv_default (env : gmap str str) (name default : str) : str :=
  match env !! name with Some v => v | None => default end.

Definition default_model (provider : str) : option str :=
  if bool_decide (provider = u "openai") then Some (u "gpt-4")
  else if bool_decide (provider = u "anthropic")
  then Some (u "claude-3-sonnet-20240229")
  else if bool_decide (provider = u "deepseek") then Some (u "deepseek-chat")
  else if bool_decide (provider = u "zhipu") then Some (u "glm-4")
  else if bool_decide (provider = u "ollama") then Some (u "llama3:8b")
  else None.

Definition create_config_from_env (env : gmap str str)
  : outcome (option (Config.LLMConfig F)) :=
  let provider := getenv_default env (u "LLM_PROVIDER") (u "openai") in
  let api_key := env_api_key env in
  let base_url := env !! u "LLM_BASE_URL" in
  let model := env !! u "LLM_MODEL" in
  if negb (truthy_opt api_key) && negb (bool_decide (provider = u "ollama"))
  then Done None
  else
    let model :=
      if truthy_opt model then model
      else match default_model provider with
           | Some name => Some name
           | None => model
           end in
    match parse_float (getenv_default env (u "LLM_TEMPERATURE") (u "0.3")) with
    | None => Uncaught ValueError
    | Some temperature =>
      if truthy_opt (env !! u "LLM_MAX_TOKENS") then
        match parse_int (getenv_default env (u "LLM_MAX_TOKENS") (u "4000"))
        with
        | None => Uncaught ValueError
        | Some n =>
          Done (Some (Config.mkConfig provider model api_key base_url temperature
                        (Some n)))
        end
      else
        Done (Some (Config.mkConfig provider model api_key base_url temperature
                      None))
    end.

(** [load_config_from_file]: every exception gives [None]. *)
Definition load_config_from_file (m : Machine Host) (config_path : str)
  : option (Config.LLMConfig F) :=
  files m !! config_path ≫= parse_config.

(** [save_default_config]: an error while writing is not caught. *)
Definition save_default_config (config_path : str) (m : Machine Host)
  : outcome unit * Machine Host :=
  match write_file open_w put config_path default_config_json m with
  | (Return _, m') => (Done tt, m')
  | (Raise _, m') => (Uncaught WriteError, m')
  end.

Definition path_exists (m : Machine Host) (p : str) : bool :=
  bool_decide (is_Some (files m !! p)).

(** The output file [main] settles on: the first argument after the input
    file that does not begin with two dashes, or, when there is none or it
    is empty, a name made from the input file. *)
Definition output_file_of (argv : list str) (input_file : str)
    (latin : bool) : str :=
  match find (fun arg => negb (startswith arg (u "--"))) (drop 2 argv) with
  | Some (c :: arg) => c :: arg
  | _ =>
    stem input_file ++ (if latin then u "_sr_latin.b2" else u "_sr_llm.b2")
  end.

(** The configuration [main] builds from the command line and the
    environment when no configuration file gave one. *)
Definition command_line_config (argv : list str) (env : gmap str str)
    (stdin : option str) (input_exists : bool) : outcome (Config.LLMConfig F) :=
  let provider := default (u "openai") (value_after (u "--provider") argv) in
  let model := default (u "gpt-4") (value_after (u "--model") argv) in
  let api_key := env_api_key env in
  let finish key :=
    Done (Config.mkConfig provider (Some model) key None f0_3 (Some 4000%Z)) in
  if negb (bool_decide (provider = u "ollama")) && negb (truthy_opt api_key)
     && input_exists
  then
    match stdin with
    | Some line => finish (Some (strip line))
    | None => Uncaught EOFError
    end
  else finish api_key.

(** [AdvancedLLMFB2Translator(config, use_latin)] *)
Definition new_advanced (config : Config.LLMConfig F) (latin : bool)
    (env : gmap str str) : outcome (AdvancedLLMFB2Translator W) :=
  match provider_class (Config.provider config) with
  | None => Uncaught ValueError
  | Some p =>
    match connect p config env with
    | None => Uncaught ConnectError
    | Some w => Done (mkAdvanced p latin (new_translator w))
    end
  end.

(** [main], with the function it falls back on for a configuration as a
    parameter. *)
Definition main_with
    (fallback : gmap str str -> outcome (option (Config.LLMConfig F)))
    (argv : list str) (env : gmap str str) (stdin : option str)
    (m : Machine Host) : outcome bool * Machine Host :=
  if length argv <? 2 then (Done false, m)
  else
    match index_of (u "--create-config") argv with
    | Some config_idx =>
      match argv !! (config_idx + 1) with
      | Some config_path =>
        match save_default_config config_path m with
        | (Done _, m') => (Done true, m')
        | (Uncaught e, m') => (Uncaught e, m')
        end
      | None => (Done false, m)
      end
    | None =>
      let input_file := default [] (argv !! 1) in
      if negb (path_exists m input_file)
         && negb (existsb (fun arg => startswith arg (u "--")) (drop 2 argv))
      then (Done false, m)
      else
        let latin := bool_decide (u "--latin" ∈ argv) in
        let output_file := output_file_of argv input_file latin in
        let config :=
          value_after (u "--config") argv ≫= load_config_from_file m in
        let config :=
          match config with
          | Some c => Done (Some c)
          | None =>
            match command_line_config argv env stdin
                    (path_exists m input_file) with
            | Done c => Done (Some c)
            | Uncaught e => Uncaught e
            end
          end in
        let config :=
          match config with
          | Done None => fallback env
          | other => other
          end in
        match config with
        | Uncaught e => (Uncaught e, m)
        | Done None => (Done false, m)
        | Done (Some c) =>
          if negb (path_exists m input_file)
             && negb (existsb
                        (fun arg => startswith arg (u "--create-config"))
                        argv)
          then (Done false, m)
          else
            match new_advanced c latin env with
            | Uncaught e => (Uncaught e, m)
            | Done translator =>
              let '(success, _, m') :=
                process_fb2_structure (chat_of env c) islower isupper upper
                  parse_xml et_tostring minidom_pretty et_write_data
                  open_w put translator input_file output_file m in
              (Done success, m')
            end
        end
    end.

Definition main := main_with create_config_from_env.

End Main.

(** ** Properties of [main] *)

Section MainExtras.
Context {W Host F : Type}.
Variable chat_of :
  gmap str str -> Config.LLMConfig F -> W -> str -> W * option str.
Variables islower isupper : char -> bool.
Variable upper : char -> str.
Variable parse_xml : str -> option Element.
Variable et_tostring : Element -> str.
Variable minidom_pretty : str -> option str.
Variable et_write_data : Element -> str.
Variable open_w : Host -> str -> Host * bool.
Variable put : Host -> str -> str -> Host * option nat.
Variable stem : str -> str.
Variable parse_config : str -> option (Config.LLMConfig F).
Variable parse_float : str -> option F.
Variable parse_int : str -> option Z.
Variable f0_3 : F.
Variable connect :
  ProviderClass -> Config.LLMConfig F -> gmap str str -> option W.

Abbreviation main_with' :=
  (main_with chat_of islower isupper upper parse_xml et_tostring
     minidom_pretty et_write_data open_w put stem parse_config f0_3 connect).
Abbreviation main' :=
  (main chat_of islower isupper upper parse_xml et_tostring
     minidom_pretty et_write_data open_w put stem parse_config parse_float
     parse_int f0_3 connect).
Abbreviation output_file_of' := (output_file_of stem).

(** A translation run: its result is never [True], it changes no file but
    the output file, and with an input that cannot be parsed it changes
    nothing. *)
Lemma run_reports_false (chat : W -> str -> W * option str)
    (self : AdvancedLLMFB2Translator W) input output (m : Machine Host) :
  fst (fst (process_fb2_structure chat islower isupper upper parse_xml
              et_tostring minidom_pretty et_write_data open_w put
              self input output m)) = false.
Proof.
  unfold process_fb2_structure.
  destruct (files m !! input ≫= parse_xml) as [r|]; [|done].
  destruct (translate_tree r (translator self)) as [r' t'].
  destruct (write_enhanced_xml _ _ _ _ _ _ r' output m) as [[[[]|e] w] m1];
    [|done].
  by rewrite no_print_translation_stats.
Qed.


Lemma run_without_input (chat : W -> str -> W * option str)
    (self : AdvancedLLMFB2Translator W) input output (m : Machine Host) :
  files m !! input = None ->
  snd (process_fb2_structure chat islower isupper upper parse_xml
         et_tostring minidom_pretty et_write_data open_w put
         self input output m) = m.
Proof. intros Hn. unfold process_fb2_structure. by rewrite Hn. Qed.

(** The configuration [main] runs with: the one of the configuration file
    when it can be loaded, else the one of the command line. *)
Definition chosen_config (argv : list str) (env : gmap str str)
    (stdin : option str) (m : Machine Host)
  : outcome (Config.LLMConfig F) :=
  match value_after (u "--config") argv
          ≫= load_config_from_file parse_config m with
  | Some c => Done c
  | None =>
    command_line_config f0_3 argv env stdin
      (path_exists m (default [] (argv !! 1)))
  end.

(** [main] without [--create-config]: the configuration is never missing,
    so the fallback is never consulted. *)
Lemma main_with_run fb argv env stdin (m : Machine Host) :
  index_of (u "--create-config") argv = None ->
  main_with' fb argv env stdin m =
  if length argv <? 2 then (Done false, m)
  else if negb (path_exists m (default [] (argv !! 1)))
          && negb (existsb (fun arg => startswith arg (u "--"))
                     (drop 2 argv))
  then (Done false, m)
  else
    match chosen_config argv env stdin m with
    | Uncaught e => (Uncaught e, m)
    | Done c =>
      if negb (path_exists m (default [] (argv !! 1)))
         && negb (existsb (fun arg => startswith arg (u "--create-config"))
                    argv)
      then (Done false, m)
      else
        match new_advanced connect c (bool_decide (u "--latin" ∈ argv)) env
        with
        | Uncaught e => (Uncaught e, m)
        | Done translator =>
          (Done (fst (fst (process_fb2_structure (chat_of env c) islower
                             isupper
                             upper parse_xml et_tostring minidom_pretty
                             et_write_data open_w put translator
                             (default [] (argv !! 1))
                             (output_file_of' argv (default [] (argv !! 1))
                                (bool_decide (u "--latin" ∈ argv))) m))),
           snd (process_fb2_structure (chat_of env c) islower isupper
                  upper parse_xml et_tostring minidom_pretty
                  et_write_data open_w put translator
                  (default [] (argv !! 1))
                  (output_file_of' argv (default [] (argv !! 1))
                     (bool_decide (u "--latin" ∈ argv))) m))
        end
    end.
Proof.
  intros Hcc. unfold main_with, chosen_config. rewrite Hcc.
  destruct (length argv <? 2); [done|].
  destruct (_ && _); [done|].
  destruct (value_after (u "--config") argv
              ≫= load_config_from_file parse_config m) as [c|].
  - destruct (_ && _); [done|].
    destruct (new_advanced connect c _ env) as [tr|e]; [|done].
    by destruct (process_fb2_structure _ _ _ _ _ _ _ _ _ _ _ _ _ m)
      as [[b s0] m'].
  - destruct (command_line_config f0_3 argv env stdin _) as [c|e]; [|done].
    destruct (_ && _); [done|].
    destruct (new_advanced connect c _ env) as [tr|e]; [|done].
    by destruct (process_fb2_structure _ _ _ _ _ _ _ _ _ _ _ _ _ m)
      as [[b s0] m'].
Qed.

(** X20: [main] returns [True] only when it is given [--create-config]
    followed by a path, and then that path holds the default configuration:
    no translation run ends with [True]. *)
Theorem main_true_only_for_create_config
    (argv : list str) (env : gmap str str) (stdin : option str)
    (m : Machine Host) :
  fst (main' argv env stdin m) = Done true ->
  exists config_path,
    value_after (u "--create-config") argv = Some config_path
    /\ files (snd (main' argv env stdin m)) !! config_path
       = Some default_config_json.
Proof.
  unfold main.
  destruct (index_of (u "--create-config") argv) as [i|] eqn:Hcc.
  - unfold main_with, value_after. rewrite Hcc.
    destruct (length argv <? 2); [done|].
    simpl. destruct (argv !! (i + 1)) as [path|]; [|done].
    unfold save_default_config.
    destruct (write_file open_w put path default_config_json m)
      as [[[]|e] m'] eqn:Ew; [|done].
    intros _. exists path. split; [done|]. simpl.
    by eapply write_file_returns.
  - rewrite main_with_run by done.
    destruct (length argv <? 2); [done|].
    destruct (_ && _); [done|].
    destruct (chosen_config argv env stdin m) as [c|e]; [|done].
    destruct (_ && _); [done|].
    destruct (new_advanced connect c _ env) as [tr|e]; [|done].
    simpl. by rewrite run_reports_false.
Qed.

(** X21: the code of [main] reads the environment for the API key only.
    [create_config_from_env] is never called: any function in its place
    gives the same run, so [LLM_PROVIDER], [LLM_MODEL], [LLM_BASE_URL],
    [LLM_TEMPERATURE] and [LLM_MAX_TOKENS], which only that function reads,
    do not reach the configuration.  Two environments that give the same
    key give the same run as long as the provider's library, which reads
    the environment on its own, does not tell them apart. *)
Theorem main_reads_only_the_key
    (fb : gmap str str -> outcome (option (Config.LLMConfig F)))
    (argv : list str) (env env' : gmap str str) (stdin : option str)
    (m : Machine Host) :
  main' argv env stdin m = main_with' fb argv env stdin m
  /\ (env_api_key env = env_api_key env' ->
      (forall p c, connect p c env = connect p c env') ->
      (forall c, chat_of env c = chat_of env' c) ->
      main' argv env stdin m = main' argv env' stdin m).
Proof.
  unfold main.
  destruct (index_of (u "--create-config") argv) as [i|] eqn:Hcc.
  - split; [|intros _ _ _]; unfold main_with; by rewrite Hcc.
  - rewrite !main_with_run by done. split; [done|].
    intros Hk Hconnect Hchat.
    assert (chosen_config argv env stdin m = chosen_config argv env' stdin m)
      as ->.
    { unfold chosen_config, command_line_config. by rewrite Hk. }
    destruct (length argv <? 2); [done|].
    destruct (_ && _); [done|].
    destruct (chosen_config argv env' stdin m) as [c|e]; [|done].
    destruct (_ && _); [done|].
    unfold new_advanced. rewrite Hchat.
    destruct (provider_class (Config.provider c)) as [p|]; [|done].
    by rewrite Hconnect.
Qed.


(** X23: the value of an option can be taken for the output file: when the
    first argument after the input file is an option and the next one is
    its value, that value is the output file.  With
    [book.fb2 --config config.json] the output file is [config.json]. *)
Theorem option_value_is_output
    (prog input flag value : str) (rest : list str) (latin : bool) :
  startswith flag (u "--") = true ->
  startswith value (u "--") = false ->
  value <> [] ->
  output_file_of' (prog :: input :: flag :: value :: rest) input latin
    = value.
Proof.
  intros Hf Hv Hne. unfold output_file_of. simpl. rewrite Hf, Hv. simpl.
  by destruct value.
Qed.

(** X24: when every argument after the input file begins with two dashes,
    the output file is the stem of the input file followed by
    [_sr_latin.b2] with [--latin] and by [_sr_llm.b2] without. *)
Theorem default_output_name (argv : list str) (input : str) (latin : bool) :
  Forall (fun arg => startswith arg (u "--") = true) (drop 2 argv) ->
  output_file_of' argv input latin
    = stem input ++ (if latin then u "_sr_latin.b2" else u "_sr_llm.b2").
Proof.
  intros Hall. unfold output_file_of.
  destruct (find _ (drop 2 argv)) as [x|] eqn:Ef; [|done].
  apply find_some in Ef as [Hin Hx].
  rewrite Forall_forall in Hall. apply list_elem_of_In in Hin.
  by rewrite (Hall x Hin) in Hx.
Qed.

(** X25: [create_config_from_env] returns [None] exactly when none of the
    five key variables holds a non-empty value and the provider is not
    [ollama]; it does not look at the other variables then. *)
Theorem no_key_no_config (env : gmap str str) :
  create_config_from_env parse_float parse_int env = Done None
  <-> truthy_opt (env_api_key env) = false
      /\ getenv_default env (u "LLM_PROVIDER") (u "openai") <> u "ollama".
Proof.
  unfold create_config_from_env.
  destruct (truthy_opt (env_api_key env)) eqn:Ek; simpl.
  - split; [|by intros []].
    destruct (parse_float _); [|done].
    destruct (truthy_opt (env !! u "LLM_MAX_TOKENS")); [|done].
    by destruct (parse_int _).
  - case_bool_decide as Hp; simpl.
    + split; [|by intros []].
      destruct (parse_float _); [|done].
      destruct (truthy_opt (env !! u "LLM_MAX_TOKENS")); [|done].
      by destruct (parse_int _).
    + done.
Qed.

(** X26: when the input file does not exist and [--create-config] is not
    given, [main] writes nothing: every file is as it was, whatever the
    other arguments are. *)
Theorem main_without_input_writes_nothing
    (argv : list str) (env : gmap str str) (stdin : option str)
    (m : Machine Host) :
  index_of (u "--create-config") argv = None ->
  files m !! default [] (argv !! 1) = None ->
  snd (main' argv env stdin m) = m.
Proof.
  intros Hcc Hin. unfold main. rewrite main_with_run by done.
  destruct (length argv <? 2); [done|].
  destruct (_ && _); [done|].
  destruct (chosen_config argv env stdin m) as [c|e]; [|done].
  destruct (_ && _); [done|].
  destruct (new_advanced connect c _ env) as [tr|e]; [|done].
  simpl. by apply run_without_input.
Qed.

End MainExtras.

(** ** A sample command line *)

(** The part of a file name before its first dot. *)
Fixpoint before_dot (s : str) : str :=
  match s with
  | [] => []
  | c :: s' => if bool_decide (c = 46%N) then [] else c :: before_dot s'
  end.

(** [main] on a machine where nothing fails, with a service that answers
    every prompt with the same text, a configuration file reader that
    rejects every file and number parsers that accept every text. *)
Definition sample_main (argv : list str) (env : gmap str str)
    (stdin : option str) (m : Machine unit)
  : outcome bool * Machine unit :=
  main (fun _ (_ : Config.LLMConfig unit) => canned (u "Zdravo svete"))
    basic_islower basic_isupper basic_upper (parse_known [two_level])
    plain_xml accept with_declaration opens writes_all before_dot
    (fun _ => None) (fun _ => Some tt) (fun _ => Some 4000%Z) tt
    (fun _ _ _ => Some tt) argv env stdin m.

Definition key_only : gmap str str := {[ u "OPENAI_API_KEY" := u "k" ]}.

Definition key_and_provider : gmap str str :=
  <[ u "LLM_PROVIDER" := u "ollama" ]> key_only.

(** A machine that holds a book and a configuration file. *)
Definition desk : Machine unit :=
  mkMachine tt (<[ u "config.json" := default_config_json ]>
                  {[ u "book.fb2" := plain_xml two_level ]}).

Lemma main_true_only_for_create_config_witness :
  fst (sample_main [u "prog"; u "--create-config"; u "config.json"]
         ∅ None (mkMachine tt ∅)) = Done true
  /\ exists config_path,
      value_after (u "--create-config")
        [u "prog"; u "--create-config"; u "config.json"] = Some config_path
      /\ files (snd (sample_main
                       [u "prog"; u "--create-config"; u "config.json"]
                       ∅ None (mkMachine tt ∅))) !! config_path
         = Some default_config_json.
Proof.
  assert (H : fst (sample_main
                     [u "prog"; u "--create-config"; u "config.json"]
                     ∅ None (mkMachine tt ∅)) = Done true)
    by (by vm_compute).
  split; [exact H|].
  exact (main_true_only_for_create_config _ _ _ _ _ _ _ _ _ _ _ _ _ _ _ _
           _ _ _ _ H).
Defined.

Lemma main_reads_only_the_key_witness :
  env_api_key key_only = env_api_key key_and_provider
  /\ sample_main [u "prog"; u "book.fb2"] key_only None desk
     = sample_main [u "prog"; u "book.fb2"] key_and_provider None desk.
Proof.
  assert (H : env_api_key key_only = env_api_key key_and_provider)
    by (by vm_compute).
  split; [exact H|].
  refine (proj2 (main_reads_only_the_key _ _ _ _ _ _ _ _ _ _ _ _ _ _ _ _
                   (fun _ => Done None) _ _ _ _ _) H _ _); done.
Defined.


Lemma option_value_is_output_witness :
  startswith (u "--config") (u "--") = true
  /\ startswith (u "config.json") (u "--") = false
  /\ u "config.json" <> []
  /\ output_file_of before_dot
       [u "prog"; u "book.fb2"; u "--config"; u "config.json"]
       (u "book.fb2") false = u "config.json".
Proof.
  split; [reflexivity|]. split; [reflexivity|].
  split; [vm_compute; discriminate|].
  apply (option_value_is_output before_dot (u "prog") (u "book.fb2")
           (u "--config") (u "config.json") [] false).
  - reflexivity.
  - reflexivity.
  - vm_compute. discriminate.
Defined.

Lemma default_output_name_witness :
  Forall (fun arg => startswith arg (u "--") = true)
    (drop 2 [u "prog"; u "book.fb2"; u "--latin"])
  /\ output_file_of before_dot [u "prog"; u "book.fb2"; u "--latin"]
       (u "book.fb2") true = u "book_sr_latin.b2".
Proof.
  assert (H : Forall (fun arg => startswith arg (u "--") = true)
                (drop 2 [u "prog"; u "book.fb2"; u "--latin"])).
  { repeat constructor. }
  split; [exact H|].
  etrans; [exact (default_output_name before_dot _ _ true H)|].
  by vm_compute.
Defined.

Lemma main_without_input_writes_nothing_witness :
  index_of (u "--create-config")
    [u "prog"; u "missing.fb2"; u "--provider"; u "ollama"] = None
  /\ files desk !! u "missing.fb2" = None
  /\ snd (sample_main
            [u "prog"; u "missing.fb2"; u "--provider"; u "ollama"]
            ∅ None desk) = desk.
Proof.
  split; [by vm_compute|]. split; [by vm_compute|].
  apply (main_without_input_writes_nothing _ _ _ _ _ _ _ _ _ _ _ _ _ _
           _ _ _ _).
  - by vm_compute.
  - by vm_compute.
Defined.
